(** * Project Economics & Scheduling Engine: a shallow embedding

    The engine of [src/app/api/projects/route.ts] (the library of pure
    functions behind [@/lib/calculations]) is embedded function by function.

    Conventions of the embedding.
    - Identifiers and names are [string]s; periods, durations and horizons
      are integers ([Z]), with the [-1] sentinel of [scheduleTask] kept.
    - A JavaScript [number] that the scheduler or the decision tree handles
      (capacities, amounts, rates, multipliers, probabilities, money) is an
      exact rational ([Qc], canonical so that equality is Leibniz equality).
      The estimation and finance functions divide by values that can be
      zero, so they use [num]: exact rationals extended with [+Infinity],
      [-Infinity] and [NaN], following the IEEE rules for these special
      values.  These functions compute in exact arithmetic; what is
      proved of them is what does not depend on rounding.  Where rounding
      decides, the same source is embedded a second time over binary64
      values (module [Binary64]) and evaluated there.
    - A JavaScript object used as a dictionary ([Record<string, T>]) is a
      [gmap string T].
    - Code that can throw returns [res]: [Ok v], [Throw e], or [Timeout] when
      the fuel of a recursion that is not structural runs out. *)

From Stdlib Require Import QArith Qcanon Qround ZArith Lia Ascii String.
From Stdlib Require Import Floats.
From stdpp Require Import base option list numbers strings gmap fin_maps.

Set Warnings "-register-all,-clear-no-such-hyp,-inexact-float".
Local Open Scope Z_scope.

(** ** Results of computations that may throw *)

Inductive exn : Type :=
| RangeError  (* [new Array(n)] with an invalid length *)
| TypeError.  (* property read on [undefined] *)

Inductive res (A : Type) : Type :=
| Ok (a : A)
| Throw (e : exn)
| Timeout.

Arguments Ok {A} a.
Arguments Throw {A} e.
Arguments Timeout {A}.

Definition res_bind {A B} (m : res A) (k : A -> res B) : res B :=
  match m with
  | Ok a => k a
  | Throw e => Throw e
  | Timeout => Timeout
  end.

Notation "'let*' x ':=' m 'in' k" := (res_bind m (fun x => k))
  (at level 10, x name, m at level 100, k at level 200).

(** Left-to-right iteration of a fallible step ([forEach], [for .. of]). *)
Fixpoint foldlM {A S} (f : S -> A -> res S) (l : list A) (s : S) : res S :=
  match l with
  | [] => Ok s
  | a :: l' => let* s' := f s a in foldlM f l' s'
  end.

(** ** JavaScript idioms on exact numbers *)

(** [x || d] on a number: [0] is falsy. *)
Definition js_or (x d : Qc) : Qc := if decide (x = 0%Qc) then d else x.

(** [v || d] where [v] may be [undefined]. *)
Definition js_or_undef (v : option Qc) (d : Qc) : Qc :=
  match v with
  | Some x => js_or x d
  | None => d
  end.

(** [arr[i]] for an integer [i]: [undefined] outside [0 .. length-1]. *)
Definition array_get {A} (arr : list A) (i : Z) : option A :=
  if decide (0 <= i) then arr !! Z.to_nat i else None.

(** ** Resource scheduler *)

Module Scheduler.

Record Resource : Type := mkResource {
  r_id : string;
  r_name : string;
  r_type : string;
  maxCapacity : Qc;
  hourlyRate : Qc;
  availability : list Qc
}.

Record Requirement : Type := mkRequirement {
  resourceId : string;
  amount : Qc
}.

Record Task : Type := mkTask {
  t_id : string;
  t_name : string;
  duration : Z;
  requiredResources : list Requirement;
  prerequisites : list string;
  priority : Qc
}.

Record ScheduleEntry : Type := mkEntry {
  taskId : string;
  startPeriod : Z;
  endPeriod : Z;
  assignedResources : gmap string Qc
}.

Record ScheduleResult : Type := mkResult {
  schedule : list ScheduleEntry;
  resourceUtilization : gmap string (list Qc);
  totalCost : Qc;
  projectDuration : Z;
  conflicts : list string
}.

(** [resources.find(r => r.id === id)] *)
Definition find_resource (resources : list Resource) (id : string) : option Resource :=
  List.find (fun r => bool_decide (r_id r = id)) resources.

(** [tasks.find(t => t.id === id)] *)
Definition find_task (tasks : list Task) (id : string) : option Task :=
  List.find (fun t => bool_decide (t_id t = id)) tasks.

(** *** topologicalSort *)

Record sort_state : Type := mkSortState {
  visited : gset string;
  visiting : gset string;
  result : list Task
}.

(** [visit(taskId)].  The recursion of the source is not structural; [fuel]
    bounds its depth and [Timeout] reports that the bound was reached. *)
Fixpoint visit (fuel : nat) (tasks : list Task) (st : sort_state) (taskId : string)
  : res sort_state :=
  match fuel with
  | O => Timeout
  | S fuel' =>
    if decide (taskId ∈ visiting st) then Ok st
    else if decide (taskId ∈ visited st) then Ok st
    else
      let st1 := mkSortState (visited st) ({[taskId]} ∪ visiting st) (result st) in
      match find_task tasks taskId with
      | Some task =>
        let* st2 := foldlM (visit fuel' tasks) (prerequisites task) st1 in
        Ok (mkSortState ({[taskId]} ∪ visited st2)
                        (visiting st2 ∖ {[taskId]})
                        (result st2 ++ [task]))
      | None =>
        Ok (mkSortState (visited st1) (visiting st1 ∖ {[taskId]}) (result st1))
      end
  end.

(** Fuel handed to [visit]: one level per task of the list, and one for the
    innermost call, which returns at once. *)
Definition sort_fuel (tasks : list Task) : nat := S (length tasks).

Definition topologicalSort (tasks : list Task) : res (list Task) :=
  let* st := foldlM (visit (sort_fuel tasks) tasks) (map t_id tasks)
              (mkSortState ∅ ∅ []) in
  Ok (result st).

(** *** getEarliestStartTime *)

Definition getEarliestStartTime (task : Task) (sched : list ScheduleEntry) : Z :=
  match prerequisites task with
  | [] => 0
  | prereqs =>
    foldl (fun earliestStart prereqId =>
             match List.find (fun s => bool_decide (taskId s = prereqId)) sched with
             | Some prereqSchedule => Z.max earliestStart (endPeriod prereqSchedule)
             | None => earliestStart
             end) 0 prereqs
  end.

(** *** scheduleTask *)

(** [resource.availability[period % resource.availability.length]]:
    [undefined] when the list is empty (the index is [NaN]). *)
Definition availability_at (resource : Resource) (period : Z) : option Qc :=
  let len := Z.of_nat (length (availability resource)) in
  if decide (len = 0) then None
  else array_get (availability resource) (Z.rem period len).

(** [resource.maxCapacity * (resource.availability[...] || 1)] *)
Definition availableCapacity (resource : Resource) (period : Z) : Qc :=
  (maxCapacity resource * js_or_undef (availability_at resource period) 1)%Qc.

(** One turn of the inner loop: the period leaves [available] true. *)
Definition period_ok (resource : Resource) (utilization : list Qc)
    (requested : Qc) (period : Z) : bool :=
  let currentUtilization := js_or_undef (array_get utilization period) 0 in
  negb (bool_decide (availableCapacity resource period < currentUtilization + requested)%Qc).

(** The loop over [start .. start + duration - 1] for one requirement.
    [resourceUtilization[resource.id][period]] throws when the resource has
    no utilization array and the loop body runs. *)
Definition requirement_available (resource : Resource)
    (ru : gmap string (list Qc)) (start dur : Z) (requested : Qc) : res bool :=
  match seqZ start dur with
  | [] => Ok true
  | periods =>
    match ru !! r_id resource with
    | None => Throw TypeError
    | Some utilization => Ok (forallb (period_ok resource utilization requested) periods)
    end
  end.

(** The loop over [task.requiredResources] for one candidate start; [None]
    is [canSchedule = false]. *)
Fixpoint check_requirements (resources : list Resource)
    (ru : gmap string (list Qc)) (start dur : Z)
    (reqs : list Requirement) (assigned : gmap string Qc)
  : res (option (gmap string Qc)) :=
  match reqs with
  | [] => Ok (Some assigned)
  | requirement :: rest =>
    match find_resource resources (resourceId requirement) with
    | None => Ok None
    | Some resource =>
      let* available := requirement_available resource ru start dur (amount requirement) in
      if available : bool
      then check_requirements resources ru start dur rest
             (<[resourceId requirement := amount requirement]> assigned)
      else Ok None
    end
  end.

Record placement : Type := mkPlacement {
  p_startPeriod : Z;
  p_assignedResources : gmap string Qc;
  p_conflicts : list string
}.

Fixpoint try_starts (task : Task) (resources : list Resource)
    (ru : gmap string (list Qc)) (starts : list Z) : res placement :=
  match starts with
  | [] => Ok (mkPlacement (-1) ∅ [])
  | start :: rest =>
    let* r := check_requirements resources ru start (duration task)
          (requiredResources task) ∅ in
    match r with
    | Some assigned => Ok (mkPlacement start assigned [])
    | None => try_starts task resources ru rest
    end
  end.

(** [for (start = earliestStart; start <= maxPeriods - task.duration; start++)].
    The counter is an integer here; the source's is a binary64 value, which
    [start++] stops increasing at 2^53: the two agree while
    [maxPeriods - task.duration] is below 2^53, as it is for a horizon that is
    an array length and a duration that is not negative. *)
Definition scheduleTask (task : Task) (resources : list Resource)
    (ru : gmap string (list Qc)) (earliestStart maxPeriods : Z) : res placement :=
  try_starts task resources ru
    (seqZ earliestStart (maxPeriods - duration task - earliestStart + 1)).

(** *** optimizeResourceAllocation *)

(** [new Array(n).fill(0)] *)
Definition new_array_zero (n : Z) : res (list Qc) :=
  if decide (0 <= n < 2 ^ 32) then Ok (replicate (Z.to_nat n) 0%Qc)
  else Throw RangeError.

Definition init_utilization (resources : list Resource) (maxPeriods : Z)
  : res (gmap string (list Qc)) :=
  foldlM (fun ru resource =>
            let* arr := new_array_zero maxPeriods in
            Ok (<[r_id resource := arr]> ru))
         resources ∅.

(** [resourceUtilization[resourceId][period] += amount], guarded as in the
    source by the array being present and [period] below its length.  The
    periods met here are never negative. *)
Definition commit_amount (period : Z) (ru : gmap string (list Qc))
    (entry : string * Qc) : gmap string (list Qc) :=
  match ru !! entry.1 with
  | Some utilization =>
    if decide (period < Z.of_nat (length utilization)) then
      match array_get utilization period with
      | Some u => <[entry.1 := <[Z.to_nat period := (u + entry.2)%Qc]> utilization]> ru
      | None => ru
      end
    else ru
  | None => ru
  end.

Definition commit_period (assigned : gmap string Qc)
    (ru : gmap string (list Qc)) (period : Z) : gmap string (list Qc) :=
  foldl (commit_amount period) ru (map_to_list assigned).

Definition commit_task (assigned : gmap string Qc) (start dur : Z)
    (ru : gmap string (list Qc)) : gmap string (list Qc) :=
  foldl (commit_period assigned) ru (seqZ start dur).

Record loop_state : Type := mkLoop {
  l_schedule : list ScheduleEntry;
  l_utilization : gmap string (list Qc);
  l_conflicts : list string
}.

Definition cannot_schedule (task : Task) : string :=
  "Cannot schedule task " +:+ t_name task +:+ " - insufficient resources".

(** Body of [for (const task of sortedTasks)]. *)
Definition schedule_step (resources : list Resource) (maxPeriods : Z)
    (st : loop_state) (task : Task) : res loop_state :=
  let earliestStart := getEarliestStartTime task (l_schedule st) in
  let* p := scheduleTask task resources (l_utilization st) earliestStart maxPeriods in
  if decide (p_startPeriod p = -1) then
    Ok (mkLoop (l_schedule st) (l_utilization st)
               (l_conflicts st ++ [cannot_schedule task]))
  else
    Ok (mkLoop
          (l_schedule st ++
             [mkEntry (t_id task) (p_startPeriod p)
                      (p_startPeriod p + duration task) (p_assignedResources p)])
          (commit_task (p_assignedResources p) (p_startPeriod p) (duration task)
                       (l_utilization st))
          (l_conflicts st ++ p_conflicts p)).

(** Cost of one schedule entry, added to the running total. *)
Definition entry_cost (resources : list Resource) (item : ScheduleEntry)
    (total : Qc) : Qc :=
  foldl (fun acc (e : string * Qc) =>
           match find_resource resources e.1 with
           | Some resource =>
             (acc + e.2 * hourlyRate resource
                    * Qc_of_Z (endPeriod item - startPeriod item))%Qc
           | None => acc
           end)
        total (map_to_list (assignedResources item)).

Definition totals (resources : list Resource) (sched : list ScheduleEntry) : Qc * Z :=
  foldl (fun (acc : Qc * Z) item =>
           (entry_cost resources item acc.1, Z.max acc.2 (endPeriod item)))
        (0%Qc, 0) sched.

(** [projectDeadline || 100] *)
Definition horizon (projectDeadline : option Z) : Z :=
  match projectDeadline with
  | Some d => if decide (d = 0) then 100 else d
  | None => 100
  end.

Definition optimizeResourceAllocation (tasks : list Task)
    (resources : list Resource) (projectDeadline : option Z) : res ScheduleResult :=
  let* sortedTasks := topologicalSort tasks in
  let maxPeriods := horizon projectDeadline in
  let* ru0 := init_utilization resources maxPeriods in
  let* st := foldlM (schedule_step resources maxPeriods) sortedTasks (mkLoop [] ru0 []) in
  let t := totals resources (l_schedule st) in
  Ok (mkResult (l_schedule st) (l_utilization st) t.1 t.2 (l_conflicts st)).

(** *** performScenarioAnalysis *)

Record ScenarioParameters : Type := mkScenario {
  resourceMultiplier : Qc;
  budgetConstraint : option Qc;
  timeConstraint : option Z;
  qualityRequirement : option Qc
}.

Record ScenarioOutcome : Type := mkOutcome {
  so_scenario : ScenarioParameters;
  so_result : ScheduleResult;
  so_efficiency : Qc;
  so_riskLevel : Qc
}.

Definition adjust_resource (scenario : ScenarioParameters) (resource : Resource) : Resource :=
  mkResource (r_id resource) (r_name resource) (r_type resource)
             (maxCapacity resource * resourceMultiplier scenario)%Qc
             (hourlyRate resource) (availability resource).

Definition run_scenario (baseTasks : list Task) (baseResources : list Resource)
    (scenario : ScenarioParameters) : res ScenarioOutcome :=
  let adjustedResources := map (adjust_resource scenario) baseResources in
  let* r := optimizeResourceAllocation baseTasks adjustedResources (timeConstraint scenario) in
  let efficiency :=
    if decide (0 < totalCost r)%Qc
    then (Qc_of_Z (projectDuration r) / totalCost r * Qc_of_Z 1000)%Qc
    else 0%Qc in
  let riskLevel :=
    (Qc_of_Z (Z.of_nat (length (conflicts r)))
     / Qc_of_Z (Z.max 1 (Z.of_nat (length baseTasks))))%Qc in
  Ok (mkOutcome scenario r efficiency riskLevel).

(** [scenarios.map(...)]: the first scenario that throws ends the call. *)
Fixpoint performScenarioAnalysis (baseTasks : list Task) (baseResources : list Resource)
    (scenarios : list ScenarioParameters) : res (list ScenarioOutcome) :=
  match scenarios with
  | [] => Ok []
  | scenario :: rest =>
    let* o := run_scenario baseTasks baseResources scenario in
    let* os := performScenarioAnalysis baseTasks baseResources rest in
    Ok (o :: os)
  end.

End Scheduler.


(** ** Decision tree evaluator *)

Module DecisionTree.

Local Open Scope Qc_scope.

Inductive node_type : Type := decision | chance | outcome.

(** [children?: DecisionNode[]]: the source reads the field in three places
    and treats an absent list like the empty one in each, so the embedding
    keeps one list. *)
Inductive DecisionNode : Type := mkNode {
  n_id : string;
  n_name : string;
  n_type : node_type;
  probability : option Qc;
  cost : option Qc;
  value : option Qc;
  children : list DecisionNode
}.

Inductive risk_level : Type := High | Medium | Low | Unknown.

#[global] Instance risk_level_eq_dec : EqDecision risk_level.
Proof. solve_decision. Defined.

Record RiskMetrics : Type := mkMetrics {
  successProbability : Qc;
  failureProbability : Qc;
  roi : Qc;
  avgCost : Qc;
  worstCase : Qc;
  riskLevel : risk_level
}.

(** The template strings pushed on [reasoning], each with the values it
    interpolates ([toFixed] formatting is left to the reader of the value). *)
Inductive reasoning_line : Type :=
| ValuesVeryClose (top second : Qc)
| BetterRiskAdjusted (name : string)
| HigherSuccessProbability (secondPercent topPercent : Qc)
| SignificantlyBetterROI (second top : Qc)
| LowerRiskProfile (second top : risk_level)
| BestBalance (name : string)
| ClearAdvantage (top : Qc).

Record RiskAnalysis : Type := mkRiskAnalysis {
  bestOption : string;
  ra_riskLevel : risk_level;
  reasoning : list reasoning_line
}.

Record PathResult : Type := mkPath {
  path : list string;
  pr_riskAnalysis : option RiskAnalysis
}.

Record ChildAnalysis : Type := mkChild {
  ca_name : string;
  ca_expectedValue : Qc;
  ca_riskMetrics : option RiskMetrics;
  ca_path : PathResult
}.

Record DecisionAnalysisResult : Type := mkAnalysis {
  expectedValue : Qc;
  bestPath : list string;
  riskAnalysis : option RiskAnalysis
}.

Definition Qc_max (x y : Qc) : Qc := if decide (x < y) then y else x.
Definition Qc_min (x y : Qc) : Qc := if decide (y < x) then y else x.
Definition Qc_abs (x : Qc) : Qc := if decide (x < 0) then - x else x.

(** Decimal constants of the source. *)
Definition q (n : Z) (d : positive) : Qc := Q2Qc (n # d).

(** [s.toLowerCase()] on the ASCII letters. *)
Definition ascii_to_lower (c : ascii) : ascii :=
  let n := nat_of_ascii c in
  if (Nat.leb 65 n && Nat.leb n 90)%bool then ascii_of_nat (n + 32) else c.

Fixpoint to_lower (s : string) : string :=
  match s with
  | EmptyString => EmptyString
  | String c s' => String (ascii_to_lower c) (to_lower s')
  end.

(** [s.includes(needle)] *)
Fixpoint includes (needle s : string) : bool :=
  (String.prefix needle s ||
   match s with
   | EmptyString => false
   | String _ s' => includes needle s'
   end)%bool.

(** [Math.max(...xs)] on a list that is not empty. *)
Definition max_list (x : Qc) (xs : list Qc) : Qc := foldl Qc_max x xs.

Fixpoint calculateExpectedValue (node : DecisionNode) : Qc :=
  match node with
  | mkNode _ _ ty _ c v cs =>
    match ty with
    | outcome => js_or_undef v 0 - js_or_undef c 0
    | decision =>
      match map calculateExpectedValue cs with
      | [] => 0
      | x :: xs => max_list x xs
      end
    | chance =>
      (fix sum (l : list DecisionNode) (acc : Qc) : Qc :=
         match l with
         | [] => acc
         | child :: l' =>
           sum l' (acc + js_or_undef (probability child) 0 * calculateExpectedValue child)
         end) cs 0
    end
  end.

Definition name_has (word : string) (child : DecisionNode) : bool :=
  includes word (to_lower (n_name child)).

Definition calculateRiskMetrics (node : DecisionNode) : option RiskMetrics :=
  match List.find (name_has "success") (children node),
        List.find (name_has "failure") (children node) with
  | Some successOutcome, Some failureOutcome =>
    let successProbability := js_or_undef (probability successOutcome) 0 in
    let failureProbability := js_or_undef (probability failureOutcome) 0 in
    let avgCost := successProbability * js_or_undef (cost successOutcome) 0
                   + failureProbability * js_or_undef (cost failureOutcome) 0 in
    let avgValue := successProbability * js_or_undef (value successOutcome) 0
                    + failureProbability * js_or_undef (value failureOutcome) 0 in
    let roi := if decide (0 < avgCost)
               then (avgValue - avgCost) / avgCost * Qc_of_Z 100 else 0 in
    let worstCase :=
      Qc_min (js_or_undef (value successOutcome) 0 - js_or_undef (cost successOutcome) 0)
             (js_or_undef (value failureOutcome) 0 - js_or_undef (cost failureOutcome) 0) in
    Some (mkMetrics successProbability failureProbability roi avgCost worstCase
            (if decide (q 3 10 < failureProbability) then High
             else if decide (q 15 100 < failureProbability) then Medium else Low))
  | _, _ => None
  end.

(** [childAnalysis.sort((a, b) => b.expectedValue - a.expectedValue)]: a
    stable sort by decreasing expected value. *)
Fixpoint insert_by_value (x : ChildAnalysis) (l : list ChildAnalysis) : list ChildAnalysis :=
  match l with
  | [] => [x]
  | y :: l' =>
    if decide (ca_expectedValue x < ca_expectedValue y)
    then y :: insert_by_value x l'
    else x :: l
  end.

Definition sort_by_value (l : list ChildAnalysis) : list ChildAnalysis :=
  foldr insert_by_value [] l.

Definition riskScore (m : RiskMetrics) : Qc :=
  0 + successProbability m * Qc_of_Z 30
    + match riskLevel m with
      | Low => Qc_of_Z 25
      | Medium => Qc_of_Z 15
      | _ => Qc_of_Z 5
      end
    + Qc_min (roi m / Qc_of_Z 10) (Qc_of_Z 20)
    + Qc_max 0 (worstCase m / Qc_of_Z 10000).

Definition level_or_unknown (m : option RiskMetrics) : risk_level :=
  match m with
  | Some r => riskLevel r
  | None => Unknown
  end.

(** The part of the [decision] branch after the sort.  [childAnalysis[1]]
    is [undefined] when the node has one child, and reading
    [secondOption.expectedValue] then throws. *)
Definition choose_option (sorted : list ChildAnalysis) : res PathResult :=
  match sorted with
  | topOption :: secondOption :: _ =>
    let valueDifference :=
      Qc_abs (ca_expectedValue topOption - ca_expectedValue secondOption) in
    let averageValue :=
      (ca_expectedValue topOption + ca_expectedValue secondOption) / Qc_of_Z 2 in
    let percentageDifference :=
      if decide (0 < averageValue)
      then valueDifference / averageValue * Qc_of_Z 100 else 0 in
    let close_call :=
      match ca_riskMetrics topOption, ca_riskMetrics secondOption with
      | Some mt, Some ms =>
        if decide (percentageDifference < Qc_of_Z 5) then Some (mt, ms) else None
      | _, _ => None
      end in
    let '(best, reasons) :=
      match close_call with
      | Some (mt, ms) =>
        let r0 := [ValuesVeryClose (ca_expectedValue topOption)
                                   (ca_expectedValue secondOption)] in
        if decide (riskScore mt < riskScore ms) then
          (secondOption,
           r0 ++ [BetterRiskAdjusted (ca_name secondOption);
                  HigherSuccessProbability (successProbability ms * Qc_of_Z 100)
                                           (successProbability mt * Qc_of_Z 100)]
              ++ (if decide (roi mt * q 3 2 < roi ms)
                  then [SignificantlyBetterROI (roi ms) (roi mt)] else [])
              ++ (if decide (riskLevel ms = riskLevel mt)
                  then [] else [LowerRiskProfile (riskLevel ms) (riskLevel mt)]))
        else
          (topOption, r0 ++ [BestBalance (ca_name topOption)])
      | None => (topOption, [ClearAdvantage (ca_expectedValue topOption)])
      end in
    Ok (mkPath (path (ca_path best))
               (Some (mkRiskAnalysis (ca_name best)
                                     (level_or_unknown (ca_riskMetrics best))
                                     reasons)))
  | _ => Throw TypeError
  end.

Definition prob (n : DecisionNode) : Qc := js_or_undef (probability n) 0.

Fixpoint findBestPathWithRiskAnalysis (node : DecisionNode) (currentPath : list string)
  : res PathResult :=
  match node with
  | mkNode _ nm ty _ _ _ cs =>
    let newPath := currentPath ++ [nm] in
    match ty, cs with
    | outcome, _ => Ok (mkPath newPath None)
    | _, [] => Ok (mkPath newPath None)
    | decision, _ =>
      let* childAnalysis :=
        (fix analyse (l : list DecisionNode) : res (list ChildAnalysis) :=
           match l with
           | [] => Ok []
           | child :: l' =>
             let* p := findBestPathWithRiskAnalysis child newPath in
             let* rest := analyse l' in
             Ok (mkChild (n_name child) (calculateExpectedValue child)
                         (calculateRiskMetrics child) p :: rest)
           end) cs in
      choose_option (sort_by_value childAnalysis)
    | chance, first :: rest =>
      (* [reduce] without a seed: the running best starts at the first
         child; only the chosen child is then descended into *)
      (fix follow (best : DecisionNode) (k : res PathResult) (l : list DecisionNode)
         : res PathResult :=
         match l with
         | [] => k
         | current :: l' =>
           if decide (prob best < prob current)
           then follow current (findBestPathWithRiskAnalysis current newPath) l'
           else follow best k l'
         end) first (findBestPathWithRiskAnalysis first newPath) rest
    end
  end.

Definition analyzeDecisionTree (rootNode : DecisionNode) : res DecisionAnalysisResult :=
  let* analysis := findBestPathWithRiskAnalysis rootNode [] in
  Ok (mkAnalysis (calculateExpectedValue rootNode) (path analysis)
                 (pr_riskAnalysis analysis)).

End DecisionTree.

(** ** JavaScript numbers with the IEEE special values *)

Module JsNum.

Local Open Scope Qc_scope.

(** A [number]: an exact rational, an infinity, or [NaN].  The sign of zero
    is not kept: a division by zero takes the zero as [+0]. *)
Inductive num : Type :=
| Fin (x : Qc)
| PInf
| NInf
| NaN.

Definition of_Z (z : Z) : num := Fin (Qc_of_Z z).
Definition of_nat (n : nat) : num := of_Z (Z.of_nat n).
Definition dec (n : Z) (d : positive) : num := Fin (Q2Qc (n # d)).

Definition is_finite (a : num) : bool :=
  match a with
  | Fin _ => true
  | _ => false
  end.

Definition nneg (a : num) : num :=
  match a with
  | Fin x => Fin (- x)
  | PInf => NInf
  | NInf => PInf
  | NaN => NaN
  end.

Definition nadd (a b : num) : num :=
  match a, b with
  | NaN, _ | _, NaN => NaN
  | Fin x, Fin y => Fin (x + y)
  | PInf, NInf | NInf, PInf => NaN
  | PInf, _ | _, PInf => PInf
  | NInf, _ | _, NInf => NInf
  end.

Definition nsub (a b : num) : num := nadd a (nneg b).

(** An infinity with the sign of [x]; [NaN] for [x = 0]. *)
Definition signed_inf (positive_inf : bool) (x : Qc) : num :=
  if decide (x = 0) then NaN
  else if Bool.eqb (bool_decide (0 < x)) positive_inf then PInf else NInf.

Definition nmul (a b : num) : num :=
  match a, b with
  | NaN, _ | _, NaN => NaN
  | Fin x, Fin y => Fin (x * y)
  | Fin x, PInf | PInf, Fin x => signed_inf true x
  | Fin x, NInf | NInf, Fin x => signed_inf false x
  | PInf, PInf | NInf, NInf => PInf
  | PInf, NInf | NInf, PInf => NInf
  end.

Definition ndiv (a b : num) : num :=
  match a, b with
  | NaN, _ | _, NaN => NaN
  | Fin x, Fin y => if decide (y = 0) then signed_inf true x else Fin (x / y)
  | Fin _, _ => Fin 0
  | PInf, Fin y => if decide (y < 0) then NInf else PInf
  | NInf, Fin y => if decide (y < 0) then PInf else NInf
  | _, _ => NaN
  end.

Definition nabs (a : num) : num :=
  match a with
  | Fin x => Fin (if decide (x < 0) then - x else x)
  | NaN => NaN
  | _ => PInf
  end.

(** [a < b] *)
Definition nltb (a b : num) : bool :=
  match a, b with
  | Fin x, Fin y => bool_decide (x < y)
  | NInf, Fin _ | NInf, PInf | Fin _, PInf => true
  | _, _ => false
  end.

(** [a === b] *)
Definition neqb (a b : num) : bool :=
  match a, b with
  | Fin x, Fin y => bool_decide (x = y)
  | PInf, PInf | NInf, NInf => true
  | _, _ => false
  end.

(** [Math.max(a, b)], [Math.min(a, b)] *)
Definition nmax (a b : num) : num :=
  match a, b with
  | NaN, _ | _, NaN => NaN
  | _, _ => if nltb a b then b else a
  end.

Definition nmin (a b : num) : num :=
  match a, b with
  | NaN, _ | _, NaN => NaN
  | _, _ => if nltb b a then b else a
  end.



(** [Math.floor] *)
Definition nfloor (a : num) : num :=
  match a with
  | Fin x => of_Z (Qfloor x)
  | _ => a
  end.

(** [arr[i]] with a [number] index: [undefined] unless [i] is an integer
    inside the array. *)
Definition n_index {A} (arr : list A) (i : num) : option A :=
  match i with
  | Fin x => if decide (Qc_of_Z (Qfloor x) = x) then array_get arr (Qfloor x) else None
  | _ => None
  end.


(** The functions of [Math] that ECMAScript leaves implementation-approximated,
    on the arguments where their value is not a rational given by the rules
    below: the square root of a finite number that is not negative, and a
    power of a positive base other than [1] with an exponent that is not an
    integer. *)
Class MathLib : Type := {
  sqrt_approx : Qc -> Qc;
  sqrt_approx_0 : sqrt_approx 0 = 0;
  pow_approx : Qc -> Qc -> Qc
}.

Section math.
Context {M : MathLib}.

(** [Math.sqrt] *)
Definition nsqrt (a : num) : num :=
  match a with
  | Fin x => if decide (x < 0) then NaN else Fin (sqrt_approx x)
  | PInf => PInf
  | _ => NaN
  end.

(** [b] multiplied [n] times into [1] *)
Definition npow_nat (b : num) (n : nat) : num := Nat.iter n (nmul b) (Fin 1).

(** [Math.pow(b, e)] for an integer [e] *)
Definition npow_int (b : num) (e : Z) : num :=
  if decide (0 <= e)%Z then npow_nat b (Z.to_nat e)
  else ndiv (Fin 1) (npow_nat b (Z.to_nat (- e))).

(** [Math.pow(b, e)] *)
Definition npow (b e : num) : num :=
  match e with
  | NaN => NaN
  | Fin y =>
    if decide (Qc_of_Z (Qfloor y) = y) then npow_int b (Qfloor y)
    else
      match b with
      | NaN => NaN
      | Fin x =>
        if decide (x < 0) then NaN
        else if decide (x = 0) then (if decide (0 < y) then Fin 0 else PInf)
        else if decide (x = 1) then Fin 1
        else Fin (pow_approx x y)
      | _ => if decide (0 < y) then PInf else Fin 0
      end
  | PInf =>
    match nabs b with
    | Fin x => if decide (x = 1) then NaN else if decide (1 < x) then PInf else Fin 0
    | NaN => NaN
    | _ => PInf
    end
  | NInf =>
    match nabs b with
    | Fin x => if decide (x = 1) then NaN else if decide (1 < x) then Fin 0 else PInf
    | NaN => NaN
    | _ => Fin 0
    end
  end.

End math.

(** A library for running the functions on examples: the square root is
    rounded down to a multiple of [2^-52], and a power with a fractional
    exponent [n/d] is the [d]-th root of the [n]-th power rounded down to a
    multiple of [2^-52]. *)
Fixpoint root_bits (d : nat) (target : Z) (bits : nat) (r : Z) : Z :=
  match bits with
  | O => r
  | S bits' =>
    let r' := (r + 2 ^ Z.of_nat bits')%Z in
    root_bits d target bits'
      (if decide (Z.pow r' (Z.of_nat d) <= target)%Z then r' else r)
  end.

Definition root_floor (d : nat) (x : Qc) : Qc :=
  let scale := (2 ^ 52)%Z in
  let target := Qfloor (x * Qc_of_Z (scale ^ Z.of_nat d)) in
  Q2Qc (Qmake (root_bits d target (S (Z.to_nat (Z.log2 target))) 0) (Z.to_pos scale)).

Definition pow_floor (x y : Qc) : Qc :=
  let n := Qnum y in
  let d := Pos.to_nat (Qden y) in
  let xn := if decide (0 <= n)%Z then Qcpower x (Z.to_nat n)
            else / Qcpower x (Z.to_nat (- n)) in
  root_floor d xn.

Definition root_floor_2_0 : root_floor 2 0 = 0 :=
  Qc_is_canon (root_floor 2 0) 0 (eq_refl : (root_floor 2 0 == 0%Qc)%Q).

Definition floor_math : MathLib :=
  {| sqrt_approx := root_floor 2;
     sqrt_approx_0 := root_floor_2_0;
     pow_approx := pow_floor |}.

End JsNum.


(** ** Financial math and estimation methods *)

Module Estimation.

Import JsNum.

Section engine.
Context {M : MathLib}.

(** [xs.reduce((sum, val) => sum + val, 0)] *)
Definition nsum (xs : list num) : num := foldl nadd (Fin 0) xs.

(** *** calculateNPV *)

(** Body of [cashFlows.forEach]: the running [npv] and the index [period]. *)
Definition npv_step (discountRate : num) (acc : num * nat) (cashFlow : num) : num * nat :=
  (nadd acc.1
        (ndiv cashFlow (npow (nadd (Fin 1) discountRate) (of_nat (acc.2 + 1)))),
   S acc.2).

Definition calculateNPV (cashFlows : list num) (discountRate initialInvestment : num) : num :=
  (foldl (npv_step discountRate) (nneg initialInvestment, O) cashFlows).1.

(** *** calculateIRR *)

(** Body of [allCashFlows.forEach]: [npv], [derivative] and the index
    [period]. *)
Definition irr_step (rate : num) (acc : num * num * nat) (cf : num) : num * num * nat :=
  let '(npv, derivative, period) := acc in
  (nadd npv (ndiv cf (npow (nadd (Fin 1) rate) (of_nat period))),
   if decide (0 < period)%nat
   then nsub derivative
          (ndiv (nmul (of_nat period) cf)
                (npow (nadd (Fin 1) rate) (of_nat (period + 1))))
   else derivative,
   S period).

(** One pass over [allCashFlows]: the pair [(npv, derivative)]. *)
Definition irr_pass (allCashFlows : list num) (rate : num) : num * num :=
  (foldl (irr_step rate) (Fin 0, Fin 0, O) allCashFlows).1.

(** How the Newton-Raphson loop ended. *)
Inductive irr_exit : Type :=
| Converged       (* [Math.abs(npv) < 0.01] *)
| ZeroDerivative  (* [derivative === 0] *)
| Exhausted.      (* [i] reached [maxIterations] *)

Fixpoint irr_loop (allCashFlows : list num) (iterations : nat) (rate : num)
  : num * irr_exit :=
  match iterations with
  | O => (rate, Exhausted)
  | S iterations' =>
    let '(npv, derivative) := irr_pass allCashFlows rate in
    if nltb (nabs npv) (dec 1 100) then (rate, Converged)
    else if neqb derivative (Fin 0) then (rate, ZeroDerivative)
    else irr_loop allCashFlows iterations' (nsub rate (ndiv npv derivative))
  end.

Definition irr_run (cashFlows : list num) (initialInvestment : num)
    (maxIterations : nat) : num * irr_exit :=
  irr_loop (nneg initialInvestment :: cashFlows) maxIterations (dec 1 10).

Definition calculateIRR (cashFlows : list num) (initialInvestment : num)
    (maxIterations : nat) : num :=
  nmul (irr_run cashFlows initialInvestment maxIterations).1 (of_Z 100).

(** *** monteCarloSimulation *)

Record RiskFactors : Type := mkRisk {
  technical : num;
  market : num;
  organizational : num
}.

Record Percentiles : Type := mkPercentiles {
  p10 : option num;
  p50 : option num;
  p90 : option num
}.

Record MonteCarloResult : Type := mkMonteCarlo {
  mean : num;
  standardDeviation : num;
  percentiles : Percentiles
}.

(** [1 + (Math.random() - 0.5) * 2 * risk] for the draw [u] *)
Definition risk_factor (u : Qc) (risk : num) : num :=
  nadd (Fin 1) (nmul (nmul (nsub (Fin u) (dec 1 2)) (of_Z 2)) risk).

(** The value pushed by iteration [i]; [random k] is what the [k]-th call of
    [Math.random()] returns. *)
Definition simulatedValue (random : nat -> Qc) (baseValue : num)
    (riskFactors : RiskFactors) (i : nat) : num :=
  let technicalFactor := risk_factor (random (3 * i)%nat) (technical riskFactors) in
  let marketFactor := risk_factor (random (3 * i + 1)%nat) (market riskFactors) in
  let organizationalFactor :=
    risk_factor (random (3 * i + 2)%nat) (organizational riskFactors) in
  nmul (nmul (nmul baseValue technicalFactor) marketFactor) organizationalFactor.

Definition simulate (random : nat -> Qc) (baseValue : num)
    (riskFactors : RiskFactors) (iterations : nat) : list num :=
  map (simulatedValue random baseValue riskFactors) (seq 0 iterations).

(** [results.sort((a, b) => a - b)]: a stable sort; a comparison that gives
    [NaN] counts as [0]. *)
Fixpoint insert_sorted (x : num) (l : list num) : list num :=
  match l with
  | [] => [x]
  | y :: l' => if nltb (Fin 0) (nsub x y) then y :: insert_sorted x l' else x :: l
  end.

Definition sort_ascending (l : list num) : list num := foldr insert_sorted [] l.

Definition monteCarloSimulation (random : nat -> Qc) (baseValue : num)
    (riskFactors : RiskFactors) (iterations : nat) : MonteCarloResult :=
  let results := sort_ascending (simulate random baseValue riskFactors iterations) in
  let mean := ndiv (nsum results) (of_nat (length results)) in
  let variance :=
    ndiv (foldl (fun sum val => nadd sum (npow (nsub val mean) (of_Z 2))) (Fin 0) results)
         (of_nat (length results)) in
  let standardDeviation := nsqrt variance in
  let p10Index := nfloor (nmul (of_nat iterations) (dec 1 10)) in
  let p50Index := nfloor (nmul (of_nat iterations) (dec 1 2)) in
  let p90Index := nfloor (nmul (of_nat iterations) (dec 9 10)) in
  mkMonteCarlo mean standardDeviation
    (mkPercentiles (n_index results p10Index) (n_index results p50Index)
                   (n_index results p90Index)).

(** *** calculateDelphiEstimation *)

(** The fields arrive as JSON numbers, which are finite. *)
Record ExpertEstimate : Type := mkEstimate {
  expertId : string;
  optimistic : Qc;
  mostLikely : Qc;
  pessimistic : Qc;
  confidence : Qc
}.

Record DelphiResult : Type := mkDelphi {
  finalEstimate : num;
  consensus : num;
  pert : num;
  confidenceWeightedAverage : num
}.

Definition pert_of (est : ExpertEstimate) : num :=
  ndiv (nadd (nadd (Fin (optimistic est)) (nmul (of_Z 4) (Fin (mostLikely est))))
             (Fin (pessimistic est)))
       (of_Z 6).

Definition calculateDelphiEstimation (estimates : list ExpertEstimate) : DelphiResult :=
  match estimates with
  | [] => mkDelphi (Fin 0) (Fin 0) (Fin 0) (Fin 0)
  | _ =>
    let pertEstimates := map pert_of estimates in
    let average := ndiv (nsum pertEstimates) (of_nat (length pertEstimates)) in
    let totalConfidence :=
      foldl (fun sum est => nadd sum (Fin (confidence est))) (Fin 0) estimates in
    (* [pertEstimates[idx]] is the PERT value of the estimate at [idx] *)
    let confidenceWeightedAverage :=
      ndiv (foldl (fun sum est => nadd sum (nmul (pert_of est) (Fin (confidence est))))
                  (Fin 0) estimates)
           totalConfidence in
    let stdDev :=
      nsqrt (ndiv (foldl (fun sum est => nadd sum (npow (nsub est average) (of_Z 2)))
                         (Fin 0) pertEstimates)
                  (of_nat (length pertEstimates))) in
    let consensus :=
      if nltb (Fin 0) average then nsub (Fin 1) (ndiv stdDev average) else Fin 0 in
    mkDelphi confidenceWeightedAverage
             (nmax (Fin 0) (nmin (Fin 1) consensus))
             average
             confidenceWeightedAverage
  end.

(** *** calculateCorrelation *)


(** *** calculateRegressionEstimation *)








End engine.

End Estimation.

(** ** The finance functions on binary64 numbers

    A JavaScript [number] is an IEEE 754 binary64 value, which is what a
    primitive [float] is: every [+], [-], [*], [/] and [Math.sqrt] below
    rounds to nearest (ties to even) as the source's does, zeros are signed,
    and a decimal constant stands for the nearest binary64 value. *)

Module Binary64.

Local Open Scope float_scope.

(** The integer [z] as a [number]. *)
Definition of_Z (z : Z) : float := SF2Prim (binary_normalize prec emax z 0 false).
Definition of_nat (n : nat) : float := of_Z (Z.of_nat n).

(** [Math.floor] *)
Definition floor (x : float) : float :=
  match Prim2SF x with
  | S754_finite s m e =>
    if decide (e < 0)%Z
    then of_Z ((if s then Z.neg m else Z.pos m) / 2 ^ (- e))
    else x
  | _ => x
  end.

(** [arr[i]] with a [number] index: [undefined] unless [i] is an integer
    inside the array. *)
Definition index {A} (arr : list A) (i : float) : option A :=
  match Prim2SF i with
  | S754_zero _ => arr !! O
  | S754_finite false m e =>
    if decide (0 <= e)%Z then arr !! Z.to_nat (Z.pos m * 2 ^ e)
    else if decide (Z.pos m mod 2 ^ (- e) = 0)%Z
         then arr !! Z.to_nat (Z.pos m / 2 ^ (- e))
         else None
  | _ => None
  end.

(** [Math.pow] away from the exponents 0, 1 and 2, where its value is left
    to the implementation. *)
Class MathLib : Type := { pow_approx : float -> float -> float }.

(** How the loop of [calculateIRR] ended. *)
Inductive irr_exit : Type := Converged | ZeroDerivative | Exhausted.

Record RiskFactors : Type := mkRisk {
  technical : float;
  market : float;
  organizational : float
}.

Record Percentiles : Type := mkPercentiles {
  p10 : option float;
  p50 : option float;
  p90 : option float
}.

Record MonteCarloResult : Type := mkMonteCarlo {
  mean : float;
  standardDeviation : float;
  percentiles : Percentiles
}.

Section engine.
Context {M : MathLib}.

(** [Math.pow(x, y)]: 1 for the exponent 0, [x] for 1 and [x * x] for 2. *)
Definition pow (x y : float) : float :=
  if y =? 0 then 1
  else if y =? 1 then x
  else if y =? 2 then x * x
  else pow_approx x y.

(** *** calculateNPV *)

Definition npv_step (discountRate : float) (acc : float * nat) (cashFlow : float)
  : float * nat :=
  (acc.1 + cashFlow / pow (1 + discountRate) (of_nat (acc.2 + 1)), S acc.2).

Definition calculateNPV (cashFlows : list float) (discountRate initialInvestment : float)
  : float :=
  (foldl (npv_step discountRate) (- initialInvestment, O) cashFlows).1.

(** *** calculateIRR *)

Definition irr_step (rate : float) (acc : float * float * nat) (cf : float)
  : float * float * nat :=
  let '(npv, derivative, period) := acc in
  (npv + cf / pow (1 + rate) (of_nat period),
   if decide (0 < period)%nat
   then derivative - of_nat period * cf / pow (1 + rate) (of_nat (period + 1))
   else derivative,
   S period).

Definition irr_pass (allCashFlows : list float) (rate : float) : float * float :=
  (foldl (irr_step rate) (0, 0, O) allCashFlows).1.

Fixpoint irr_loop (allCashFlows : list float) (iterations : nat) (rate : float)
  : float * irr_exit :=
  match iterations with
  | O => (rate, Exhausted)
  | S iterations' =>
    let '(npv, derivative) := irr_pass allCashFlows rate in
    if abs npv <? 0.01 then (rate, Converged)
    else if derivative =? 0 then (rate, ZeroDerivative)
    else irr_loop allCashFlows iterations' (rate - npv / derivative)
  end.

Definition irr_run (cashFlows : list float) (initialInvestment : float)
    (maxIterations : nat) : float * irr_exit :=
  irr_loop (- initialInvestment :: cashFlows) maxIterations 0.1.

Definition calculateIRR (cashFlows : list float) (initialInvestment : float)
    (maxIterations : nat) : float :=
  (irr_run cashFlows initialInvestment maxIterations).1 * 100.

(** *** monteCarloSimulation *)

(** [1 + (Math.random() - 0.5) * 2 * risk] for the draw [u] *)
Definition risk_factor (u risk : float) : float := 1 + (u - 0.5) * 2 * risk.

Definition simulatedValue (random : nat -> float) (baseValue : float)
    (riskFactors : RiskFactors) (i : nat) : float :=
  let technicalFactor := risk_factor (random (3 * i)%nat) (technical riskFactors) in
  let marketFactor := risk_factor (random (3 * i + 1)%nat) (market riskFactors) in
  let organizationalFactor :=
    risk_factor (random (3 * i + 2)%nat) (organizational riskFactors) in
  baseValue * technicalFactor * marketFactor * organizationalFactor.

Definition simulate (random : nat -> float) (baseValue : float)
    (riskFactors : RiskFactors) (iterations : nat) : list float :=
  map (simulatedValue random baseValue riskFactors) (seq 0 iterations).

(** [results.sort((a, b) => a - b)] *)
Fixpoint insert_sorted (x : float) (l : list float) : list float :=
  match l with
  | [] => [x]
  | y :: l' => if 0 <? x - y then y :: insert_sorted x l' else x :: l
  end.

Definition sort_ascending (l : list float) : list float := foldr insert_sorted [] l.

Definition monteCarloSimulation (random : nat -> float) (baseValue : float)
    (riskFactors : RiskFactors) (iterations : nat) : MonteCarloResult :=
  let results := sort_ascending (simulate random baseValue riskFactors iterations) in
  let mean := foldl PrimFloat.add 0 results / of_nat (length results) in
  let variance :=
    foldl (fun sum val => sum + pow (val - mean) 2) 0 results
    / of_nat (length results) in
  let standardDeviation := sqrt variance in
  let p10Index := floor (of_nat iterations * 0.1) in
  let p50Index := floor (of_nat iterations * 0.5) in
  let p90Index := floor (of_nat iterations * 0.9) in
  mkMonteCarlo mean standardDeviation
    (mkPercentiles (index results p10Index) (index results p50Index)
                   (index results p90Index)).

End engine.


End Binary64.

(** * Properties *)

(** ** Generic facts about fallible iteration *)

Lemma res_bind_Ok {A B} (m : res A) (k : A -> res B) (b : B) :
  res_bind m k = Ok b <-> exists a, m = Ok a /\ k a = Ok b.
Proof.
  split.
  - destruct m as [a| |]; simpl; intros H; try discriminate. exists a. auto.
  - intros (a & -> & H). exact H.
Qed.

(** An invariant kept by every step is kept by the loop, which then ends
    normally. *)
Lemma foldlM_invariant {A S} (f : S -> A -> res S) (P : S -> Prop) (l : list A) :
  (forall s a, a ∈ l -> P s -> exists s', f s a = Ok s' /\ P s') ->
  forall s, P s -> exists s', foldlM f l s = Ok s' /\ P s'.
Proof.
  induction l as [|a l IH]; intros Hstep s Hs; simpl.
  - eauto.
  - destruct (Hstep s a) as (s1 & -> & Hs1); [left | assumption |]. simpl.
    apply IH; [|assumption].
    intros s2 b Hb. apply Hstep. by right.
Qed.

Lemma foldl_invariant {A S} (f : S -> A -> S) (P : S -> Prop) (l : list A) :
  (forall s a, a ∈ l -> P s -> P (f s a)) ->
  forall s, P s -> P (foldl f s l).
Proof.
  induction l as [|a l IH]; intros Hstep s Hs; simpl; [assumption|].
  apply IH.
  - intros s2 b Hb. apply Hstep. by right.
  - apply Hstep; [left | assumption].
Qed.

(** ** Scheduler: the topological sort terminates *)

Module SchedulerFacts.
Import Scheduler.

Lemma find_task_Some tasks id task :
  find_task tasks id = Some task -> task ∈ tasks /\ t_id task = id.
Proof.
  unfold find_task. intros H. apply find_some in H as [Hin Hid].
  apply bool_decide_eq_true in Hid. split; [by apply list_elem_of_In | done].
Qed.

Lemma find_task_unique tasks task :
  NoDup (map t_id tasks) -> task ∈ tasks -> find_task tasks (t_id task) = Some task.
Proof.
  unfold find_task. induction tasks as [|t ts IH]; intros Hnd Hin.
  - by apply elem_of_nil in Hin.
  - simpl in *. apply NoDup_cons in Hnd as [Hnotin Hnd].
    apply elem_of_cons in Hin as [->|Hin].
    + by rewrite bool_decide_eq_true_2.
    + rewrite bool_decide_eq_false_2; [by apply IH|].
      intros Heq. apply Hnotin. rewrite Heq. apply list_elem_of_fmap. eauto.
Qed.

(** Tasks of the list whose id is not being visited: what bounds the depth
    of [visit]. *)
Definition pending (tasks : list Task) (st : sort_state) : nat :=
  length (filter (fun t => t_id t ∉ visiting st) tasks).

Lemma pending_le tasks st : (pending tasks st <= length tasks)%nat.
Proof. apply length_filter. Qed.

Lemma pending_enter tasks st id task :
  id ∉ visiting st -> task ∈ tasks -> t_id task = id ->
  (pending tasks (mkSortState (visited st) ({[id]} ∪ visiting st) (result st))
   < pending tasks st)%nat.
Proof.
  unfold pending. simpl. intros Hid Hin Htid.
  induction tasks as [|t ts IH]; [by apply elem_of_nil in Hin|].
  rewrite !filter_cons.
  assert (Hmono : forall l : list Task,
    (length (filter (fun t => t_id t ∉ {[id]} ∪ visiting st) l)
     <= length (filter (fun t => t_id t ∉ visiting st) l))%nat).
  { induction l as [|x l IHl]; [done|]. rewrite !filter_cons.
    repeat case_decide; simpl; try lia. set_solver. }
  apply elem_of_cons in Hin as [<-|Hin].
  - rewrite decide_False by set_solver. rewrite decide_True by set_solver.
    simpl. specialize (Hmono ts). lia.
  - specialize (IH Hin). repeat case_decide; simpl; try lia. set_solver.
Qed.

(** With fuel above the number of pending tasks, [visit] returns, and it
    leaves [visiting] as it found it. *)
Lemma visit_returns tasks fuel : forall st id,
  (pending tasks st < fuel)%nat ->
  exists st', visit fuel tasks st id = Ok st' /\ visiting st' = visiting st.
Proof.
  induction fuel as [|fuel IH]; intros st id Hfuel; [lia|].
  simpl. case_decide; [eauto|]. case_decide; [eauto|].
  destruct (find_task tasks id) as [task|] eqn:Hfind.
  - apply find_task_Some in Hfind as [Hin Htid].
    set (st1 := mkSortState (visited st) ({[id]} ∪ visiting st) (result st)).
    assert (Hlt : (pending tasks st1 < pending tasks st)%nat)
      by (by eapply pending_enter).
    destruct (foldlM_invariant (visit fuel tasks)
                (fun s => visiting s = visiting st1) (prerequisites task))
      with (s := st1) as (st2 & -> & Hv2); [|done|].
    + intros s a _ Hs. destruct (IH s a) as (s' & Hs' & Hv).
      * unfold pending. rewrite Hs. fold (pending tasks st1). lia.
      * exists s'. split; [done | congruence].
    + simpl. eexists; split; [done|]. simpl. rewrite Hv2. simpl. set_solver.
  - eexists; split; [done|]. simpl. set_solver.
Qed.

Lemma topologicalSort_returns tasks : exists sorted, topologicalSort tasks = Ok sorted.
Proof.
  unfold topologicalSort.
  destruct (foldlM_invariant (visit (sort_fuel tasks) tasks)
              (fun s => visiting s = ∅) (map t_id tasks))
    with (s := mkSortState ∅ ∅ []) as (st & -> & _); [|done|by eexists].
  intros s a _ Hs.
  destruct (visit_returns tasks (sort_fuel tasks) s a) as (s' & Hs' & Hv).
  - unfold sort_fuel. pose proof (pending_le tasks s). lia.
  - exists s'. split; [done | congruence].
Qed.

(** ** Scheduler: the placement loop never throws *)

Lemma find_resource_Some resources id r :
  find_resource resources id = Some r -> r ∈ resources /\ r_id r = id.
Proof.
  unfold find_resource. intros H. apply find_some in H as [Hin Hid].
  apply bool_decide_eq_true in Hid. split; [by apply list_elem_of_In | done].
Qed.

(** Every resource has its utilization array. *)
Definition arrays_ready (resources : list Resource) (ru : gmap string (list Qc)) : Prop :=
  forall r, r ∈ resources -> is_Some (ru !! r_id r).

(** No committed amount is negative. *)
Definition nonneg_utilization (ru : gmap string (list Qc)) : Prop :=
  map_Forall (fun _ utilization => Forall (fun u => 0 ≤ u)%Qc utilization) ru.

Lemma requirement_available_returns resources ru r start dur requested :
  arrays_ready resources ru -> r ∈ resources ->
  exists b, requirement_available r ru start dur requested = Ok b.
Proof.
  intros Hready Hr. unfold requirement_available.
  destruct (seqZ start dur); [eauto|].
  destruct (Hready r Hr) as [u ->]. eauto.
Qed.

Lemma check_requirements_returns resources ru start dur reqs :
  arrays_ready resources ru ->
  forall assigned, exists o,
    check_requirements resources ru start dur reqs assigned = Ok o.
Proof.
  intros Hready. induction reqs as [|req reqs IH]; intros assigned; simpl; [eauto|].
  destruct (find_resource resources (resourceId req)) as [r|] eqn:Hfind; [|eauto].
  apply find_resource_Some in Hfind as [Hin _].
  destruct (requirement_available_returns resources ru r start dur (amount req))
    as [b ->]; [done..|].
  simpl. destruct b; eauto.
Qed.

(** What [check_requirements] assigns are amounts of the requirements. *)
Lemma check_requirements_amounts resources ru start dur reqs :
  forall assigned assigned',
  check_requirements resources ru start dur reqs assigned = Ok (Some assigned') ->
  forall rid a, assigned' !! rid = Some a ->
    assigned !! rid = Some a \/
    exists req, req ∈ reqs /\ resourceId req = rid /\ amount req = a.
Proof.
  induction reqs as [|req reqs IH]; intros assigned assigned'; simpl.
  - intros [= ->]. auto.
  - destruct (find_resource resources (resourceId req)); [|discriminate].
    destruct (requirement_available _ _ _ _ _) as [[|]| |]; simpl; try discriminate.
    intros H rid a Hl. destruct (IH _ _ H rid a Hl) as [Hin|(r' & Hr & Hrid & Ha)].
    + apply lookup_insert_Some in Hin as [[<- <-]|[_ Hin]]; [|auto].
      right. exists req. split; [left | done].
    + right. exists r'. split; [by right | done].
Qed.

Lemma try_starts_spec task resources ru starts p :
  try_starts task resources ru starts = Ok p ->
  (p = mkPlacement (-1) ∅ [] /\
   forall s, s ∈ starts ->
     check_requirements resources ru s (duration task) (requiredResources task) ∅
     = Ok None) \/
  (exists s assigned, s ∈ starts /\
     check_requirements resources ru s (duration task) (requiredResources task) ∅
     = Ok (Some assigned) /\
     p = mkPlacement s assigned []).
Proof.
  induction starts as [|s starts IH]; simpl.
  - intros [= <-]. left. split; [done|]. intros s Hs. by apply elem_of_nil in Hs.
  - destruct (check_requirements _ _ s _ _ _) as [[assigned|]| |] eqn:Hc;
      simpl; try discriminate.
    + intros [= <-]. right. exists s, assigned. split; [left | done].
    + intros H. destruct (IH H) as [[-> Hall]|(s' & a & Hs' & Hc' & ->)].
      * left. split; [done|]. intros s' [->|Hs']%elem_of_cons; auto.
      * right. exists s', a. split; [by right | done].
Qed.

Lemma try_starts_returns task resources ru starts :
  arrays_ready resources ru -> exists p, try_starts task resources ru starts = Ok p.
Proof.
  intros Hready. induction starts as [|s starts IH]; simpl; [eauto|].
  destruct (check_requirements_returns resources ru s (duration task)
              (requiredResources task) Hready ∅) as [o ->].
  simpl. destruct o; eauto.
Qed.

(** Committing keeps the arrays in place. *)
Lemma commit_amount_ready resources period ru entry :
  arrays_ready resources ru -> arrays_ready resources (commit_amount period ru entry).
Proof.
  intros Hready. unfold commit_amount.
  destruct (ru !! entry.1) as [utilization|] eqn:Hru; [|done].
  case_decide; [|done].
  destruct (array_get utilization period) as [u|] eqn:Hu; [|done].
  intros r Hr. destruct (decide (entry.1 = r_id r)) as [->|Hne].
  - rewrite lookup_insert_eq. eauto.
  - rewrite lookup_insert_ne by done. auto.
Qed.

Lemma commit_task_ready resources assigned start dur ru :
  arrays_ready resources ru -> arrays_ready resources (commit_task assigned start dur ru).
Proof.
  intros Hready. unfold commit_task.
  apply (foldl_invariant _ (arrays_ready resources)); [|done].
  intros ru1 period _ H1. unfold commit_period.
  apply (foldl_invariant _ (arrays_ready resources)); [|done].
  intros ru2 entry _ H2. by apply commit_amount_ready.
Qed.

(** Committing amounts that are not negative keeps the utilization so. *)
Lemma commit_amount_nonneg period ru entry :
  (0 ≤ entry.2)%Qc -> nonneg_utilization ru ->
  nonneg_utilization (commit_amount period ru entry).
Proof.
  intros Hamount Hnonneg. unfold commit_amount.
  destruct (ru !! entry.1) as [utilization|] eqn:Hru; [|done].
  case_decide; [|done].
  destruct (array_get utilization period) as [u|] eqn:Hu; [|done].
  apply map_Forall_insert_2; [|done].
  pose proof (Hnonneg _ _ Hru) as Hall. simpl in Hall.
  apply Forall_insert; [done|].
  unfold array_get in Hu. case_decide; [|done].
  rewrite Forall_lookup in Hall. specialize (Hall _ _ Hu).
  by apply Qcplus_nonneg_nonneg.
Qed.

Lemma commit_task_nonneg assigned start dur ru :
  map_Forall (fun _ a => 0 ≤ a)%Qc assigned ->
  nonneg_utilization ru -> nonneg_utilization (commit_task assigned start dur ru).
Proof.
  intros Hassigned Hnonneg. unfold commit_task.
  apply (foldl_invariant _ nonneg_utilization); [|done].
  intros ru1 period _ H1. unfold commit_period.
  apply (foldl_invariant _ nonneg_utilization); [|done].
  intros ru2 [rid a] Hin H2. apply commit_amount_nonneg; [|done].
  apply elem_of_map_to_list in Hin. exact (Hassigned _ _ Hin).
Qed.

Lemma new_array_zero_Ok n :
  0 <= n < 2 ^ 32 -> new_array_zero n = Ok (replicate (Z.to_nat n) 0%Qc).
Proof. intros H. unfold new_array_zero. by rewrite decide_True. Qed.

(** With a horizon that is a valid array length, the arrays are created and
    hold zeros. *)
Lemma init_utilization_returns resources maxPeriods :
  0 <= maxPeriods < 2 ^ 32 ->
  exists ru, init_utilization resources maxPeriods = Ok ru /\
    arrays_ready resources ru /\ nonneg_utilization ru.
Proof.
  intros Hlen. unfold init_utilization.
  set (step := fun (ru : gmap string (list Qc)) (resource : Resource) =>
                 let* arr := new_array_zero maxPeriods in
                 Ok (<[r_id resource := arr]> ru)).
  assert (Hgen : forall rs ru0,
    nonneg_utilization ru0 ->
    exists ru, foldlM step rs ru0 = Ok ru /\
      (forall r, r ∈ rs \/ is_Some (ru0 !! r_id r) -> is_Some (ru !! r_id r)) /\
      nonneg_utilization ru).
  { induction rs as [|r rs IH]; intros ru0 Hnn; simpl.
    - exists ru0. split; [done|]. split; [|done].
      intros r [Hr|Hr]; [by apply elem_of_nil in Hr | done].
    - unfold step at 1. rewrite new_array_zero_Ok by done. simpl.
      destruct (IH (<[r_id r := replicate (Z.to_nat maxPeriods) 0%Qc]> ru0))
        as (ru & Hru & Hkeys & Hnn').
      + apply map_Forall_insert_2; [|done]. apply Forall_replicate. done.
      + exists ru. split; [exact Hru|]. split; [|done].
        intros r' [[->|Hr']%elem_of_cons|Hr'].
        * apply Hkeys. right. rewrite lookup_insert_eq. eauto.
        * apply Hkeys. by left.
        * apply Hkeys. right.
          destruct (decide (r_id r = r_id r')) as [->|Hne].
          -- rewrite lookup_insert_eq. eauto.
          -- by rewrite lookup_insert_ne. }
  destruct (Hgen resources ∅) as (ru & Hru & Hkeys & Hnn); [apply map_Forall_empty|].
  exists ru. split; [done|]. split; [|done]. intros r Hr. apply Hkeys. by left.
Qed.

Lemma scheduleTask_returns task resources ru earliestStart maxPeriods :
  arrays_ready resources ru ->
  exists p, scheduleTask task resources ru earliestStart maxPeriods = Ok p.
Proof. intros. by apply try_starts_returns. Qed.

Lemma schedule_step_returns resources maxPeriods st task :
  arrays_ready resources (l_utilization st) ->
  exists st', schedule_step resources maxPeriods st task = Ok st' /\
    arrays_ready resources (l_utilization st').
Proof.
  intros Hready. unfold schedule_step.
  destruct (scheduleTask_returns task resources (l_utilization st)
              (getEarliestStartTime task (l_schedule st)) maxPeriods Hready) as [p ->].
  simpl. case_decide.
  - eexists; split; [done|]. done.
  - eexists; split; [done|]. simpl. by apply commit_task_ready.
Qed.

(** The whole run returns a result whenever the horizon is a valid array
    length. *)
Lemma optimize_returns tasks resources projectDeadline :
  0 <= horizon projectDeadline < 2 ^ 32 ->
  exists r, optimizeResourceAllocation tasks resources projectDeadline = Ok r.
Proof.
  intros Hlen. unfold optimizeResourceAllocation.
  destruct (topologicalSort_returns tasks) as [sorted ->]. simpl.
  destruct (init_utilization_returns resources _ Hlen) as (ru & -> & Hready & _). simpl.
  destruct (foldlM_invariant (schedule_step resources (horizon projectDeadline))
              (fun st => arrays_ready resources (l_utilization st)) sorted)
    with (s := mkLoop [] ru []) as (st & -> & _); [|done|by eexists].
  intros s a _ Hs. by apply schedule_step_returns.
Qed.

(** The run, read off its three stages. *)
Lemma optimize_Ok tasks resources projectDeadline sorted ru0 st :
  topologicalSort tasks = Ok sorted ->
  init_utilization resources (horizon projectDeadline) = Ok ru0 ->
  foldlM (schedule_step resources (horizon projectDeadline)) sorted (mkLoop [] ru0 [])
  = Ok st ->
  optimizeResourceAllocation tasks resources projectDeadline
  = Ok (mkResult (l_schedule st) (l_utilization st)
                 (totals resources (l_schedule st)).1
                 (totals resources (l_schedule st)).2
                 (l_conflicts st)).
Proof.
  intros H1 H2 H3. unfold optimizeResourceAllocation.
  rewrite H1. simpl. rewrite H2. simpl. rewrite H3. reflexivity.
Qed.

(** More fuel does not change what [visit] returns. *)
Lemma foldlM_ext_Ok {A S} (f g : S -> A -> res S) (l : list A) :
  (forall s a s', f s a = Ok s' -> g s a = Ok s') ->
  forall s s', foldlM f l s = Ok s' -> foldlM g l s = Ok s'.
Proof.
  intros Hfg. induction l as [|a l IH]; intros s s'; simpl; [done|].
  intros (s1 & H1 & H2)%res_bind_Ok. rewrite (Hfg _ _ _ H1). simpl. by apply IH.
Qed.

Lemma visit_fuel_mono tasks fuel : forall st id st',
  visit fuel tasks st id = Ok st' ->
  forall fuel', (fuel <= fuel')%nat -> visit fuel' tasks st id = Ok st'.
Proof.
  induction fuel as [|fuel IH]; intros st id st' H fuel' Hle; [discriminate|].
  destruct fuel' as [|fuel']; [lia|]. simpl in *.
  case_decide; [done|]. case_decide; [done|].
  destruct (find_task tasks id) as [task|]; [|done].
  apply res_bind_Ok in H as (st2 & Hfold & Hst').
  rewrite (foldlM_ext_Ok (visit fuel tasks) (visit fuel' tasks) _) with (s' := st2);
    [done| |done].
  intros s a s' Hs. apply (IH _ _ _ Hs). lia.
Qed.

(** ** Scheduler: what the topological sort returns *)

Lemma foldlM_rel {A S} (f : S -> A -> res S) (R : S -> S -> Prop) (l : list A) :
  (forall s, R s s) -> (forall s1 s2 s3, R s1 s2 -> R s2 s3 -> R s1 s3) ->
  (forall s a s', a ∈ l -> f s a = Ok s' -> R s s') ->
  forall s s', foldlM f l s = Ok s' -> R s s'.
Proof.
  intros Hrefl Htrans. induction l as [|a l IH]; intros Hstep s s'; simpl.
  - intros [= <-]. apply Hrefl.
  - intros (s1 & H1 & H2)%res_bind_Ok. apply Htrans with s1.
    + apply (Hstep _ a); [left | done].
    + apply IH; [|done]. intros s2 b s3 Hb. apply Hstep. by right.
Qed.

(** Every task of the result is a task of the list, and every visited id is
    the id of a task of the result. *)
Definition sort_sound (tasks : list Task) (st : sort_state) : Prop :=
  (forall x, x ∈ result st -> x ∈ tasks) /\
  (forall id, id ∈ visited st ->
     exists task, find_task tasks id = Some task /\ task ∈ result st).

(** How a call of [visit] changes the state. *)
Definition sort_extends (tasks : list Task) (st st' : sort_state) : Prop :=
  visiting st' = visiting st /\
  visited st ⊆ visited st' /\
  (forall x, x ∈ result st -> x ∈ result st') /\
  (sort_sound tasks st -> sort_sound tasks st').

Lemma sort_extends_refl tasks st : sort_extends tasks st st.
Proof. split; [done|]. split; [done|]. split; done. Qed.

Lemma sort_extends_trans tasks s1 s2 s3 :
  sort_extends tasks s1 s2 -> sort_extends tasks s2 s3 -> sort_extends tasks s1 s3.
Proof.
  intros (Hv & Hd & Hr & Hs) (Hv' & Hd' & Hr' & Hs').
  split; [congruence|]. split; [set_solver|]. split; auto.
Qed.

Lemma visit_extends tasks fuel : forall st id st',
  visit fuel tasks st id = Ok st' -> sort_extends tasks st st'.
Proof.
  induction fuel as [|fuel IH]; intros st id st'; simpl; [discriminate|].
  case_decide; [intros [= <-]; apply sort_extends_refl|].
  case_decide; [intros [= <-]; apply sort_extends_refl|].
  destruct (find_task tasks id) as [task|] eqn:Hfind.
  - intros (st2 & Hfold & [= <-])%res_bind_Ok.
    apply find_task_Some in Hfind as Htask. destruct Htask as [Hin Htid].
    apply (foldlM_rel _ (sort_extends tasks)) in Hfold;
      [|apply sort_extends_refl|apply sort_extends_trans|by intros; eapply IH].
    destruct Hfold as (Hv & Hd & Hr & Hs). simpl in *.
    split; [|split; [|split]]; simpl.
    + rewrite Hv. set_solver.
    + set_solver.
    + intros x Hx. apply elem_of_app. left. auto.
    + intros [Hres Hvis]. destruct Hs as [Hres2 Hvis2]; [done|]. split; simpl.
      * intros x [Hx|Hx%list_elem_of_singleton]%elem_of_app; [auto | by subst].
      * intros id' [Hid'%elem_of_singleton|Hid']%elem_of_union.
        -- subst id'. exists task. split; [done|]. apply elem_of_app. right.
           by apply list_elem_of_singleton.
        -- destruct (Hvis2 id' Hid') as (t' & Ht' & Hin'). exists t'.
           split; [done|]. apply elem_of_app. by left.
  - intros [= <-]. split; [|split; [|split]]; simpl; [set_solver|done|done|done].
Qed.

(** A call from the top level marks the id it is given as visited. *)
Lemma visit_marks tasks fuel st id st' :
  visit fuel tasks st id = Ok st' ->
  id ∉ visiting st -> is_Some (find_task tasks id) -> id ∈ visited st'.
Proof.
  destruct fuel as [|fuel]; simpl; [discriminate|].
  intros H Hnot [task Htask].
  rewrite decide_False in H by done. case_decide; [by injection H as <-|].
  rewrite Htask in H. apply res_bind_Ok in H as (st2 & _ & [= <-]). simpl. set_solver.
Qed.

Lemma topologicalSort_sound tasks sorted :
  topologicalSort tasks = Ok sorted -> forall x, x ∈ sorted -> x ∈ tasks.
Proof.
  unfold topologicalSort. intros (st & Hfold & [= <-])%res_bind_Ok.
  apply (foldlM_rel _ (sort_extends tasks)) in Hfold;
    [|apply sort_extends_refl|apply sort_extends_trans|by intros; eapply visit_extends].
  destruct Hfold as (_ & _ & _ & Hs). destruct Hs as [Hres _]; [|done].
  split; simpl; intros ? H; [by apply elem_of_nil in H | set_solver].
Qed.

Lemma topologicalSort_complete tasks sorted :
  NoDup (map t_id tasks) -> topologicalSort tasks = Ok sorted ->
  forall t, t ∈ tasks -> t ∈ sorted.
Proof.
  unfold topologicalSort. intros Hnd (st & Hfold & [= <-])%res_bind_Ok t Ht.
  assert (Hmarks : forall fuel ids s s',
    foldlM (visit fuel tasks) ids s = Ok s' ->
    visiting s = ∅ ->
    forall id, id ∈ ids -> is_Some (find_task tasks id) -> id ∈ visited s').
  { intros fuel. induction ids as [|a ids IH]; intros s s'; simpl.
    - intros _ _ id Hid. by apply elem_of_nil in Hid.
    - intros (s1 & H1 & H2)%res_bind_Ok Hempty id Hid Hfind.
      pose proof (visit_extends _ _ _ _ _ H1) as (Hv1 & _).
      apply elem_of_cons in Hid as [->|Hid].
      + apply (foldlM_rel _ (sort_extends tasks)) in H2;
          [|apply sort_extends_refl|apply sort_extends_trans
           |by intros; eapply visit_extends].
        destruct H2 as (_ & Hd & _). apply Hd.
        eapply visit_marks; [done| |done]. rewrite Hempty. set_solver.
      + eapply IH; [done| |done..]. congruence. }
  pose proof (Hfold) as Hext.
  apply (foldlM_rel _ (sort_extends tasks)) in Hext;
    [|apply sort_extends_refl|apply sort_extends_trans|by intros; eapply visit_extends].
  destruct Hext as (_ & _ & _ & Hs). destruct Hs as [_ Hvis].
  { split; simpl; intros ? H; [by apply elem_of_nil in H | set_solver]. }
  destruct (Hvis (t_id t)) as (t' & Ht' & Hin').
  - eapply Hmarks; [done..| |].
    + apply list_elem_of_fmap. eauto.
    + rewrite find_task_unique by done. eauto.
  - rewrite find_task_unique in Ht' by done. by injection Ht' as <-.
Qed.

(** A property kept by every step that returns is kept by a loop that
    returns. *)
Lemma foldlM_preserves {A S} (f : S -> A -> res S) (P : S -> Prop) (l : list A) :
  (forall s a s', a ∈ l -> f s a = Ok s' -> P s -> P s') ->
  forall s s', foldlM f l s = Ok s' -> P s -> P s'.
Proof.
  induction l as [|a l IH]; intros Hstep s s'; simpl.
  - by intros [= <-].
  - intros (s1 & H1 & H2)%res_bind_Ok Hs. apply (IH (fun s2 b s3 Hb => Hstep s2 b s3
                                                   (list_elem_of_further _ _ _ Hb))
                                                   s1 s' H2).
    apply (Hstep s a s1); [left | done | done].
Qed.

(** ** Scheduler: committed amounts stay within the capacity that is checked *)

Lemma array_get_elem {A} (arr : list A) (i : Z) (x : A) :
  array_get arr i = Some x -> x ∈ arr.
Proof.
  unfold array_get. case_decide; [|done]. intros Hx. by eapply list_elem_of_lookup_2.
Qed.

Lemma js_or_undef_nonneg (v : option Qc) (d : Qc) :
  (forall u, v = Some u -> 0 ≤ u)%Qc -> (0 ≤ d)%Qc -> (0 ≤ js_or_undef v d)%Qc.
Proof.
  intros Hv Hd. destruct v as [u|]; simpl; [|done].
  unfold js_or. case_decide; auto.
Qed.

(** The committed amount of resource [rid] at index [i]. *)
Definition cell (ru : gmap string (list Qc)) (rid : string) (i : nat) : option Qc :=
  ru !! rid ≫= (.!! i).

Lemma commit_amount_cell period ru rid amt rid' i :
  cell (commit_amount period ru (rid, amt)) rid' i
  = if decide (rid' = rid /\ 0 <= period /\ Z.to_nat period = i)
    then (fun u => u + amt)%Qc <$> cell ru rid' i
    else cell ru rid' i.
Proof.
  unfold commit_amount, cell. cbn [fst snd].
  destruct (ru !! rid) as [utilization|] eqn:Hru.
  - destruct (decide (period < Z.of_nat (length utilization))) as [Hlt|Hge].
    + unfold array_get. destruct (decide (0 <= period)) as [Hpos|Hneg].
      * destruct (utilization !! Z.to_nat period) as [u|] eqn:Hu.
        -- destruct (decide (rid' = rid)) as [->|Hne].
           ++ rewrite lookup_insert_eq, Hru. cbn [mbind option_bind].
              destruct (decide (Z.to_nat period = i)) as [<-|Hi].
              ** rewrite decide_True by done.
                 rewrite list_lookup_insert_eq by (by eapply lookup_lt_Some).
                 by rewrite Hu.
              ** rewrite decide_False by tauto. by rewrite list_lookup_insert_ne.
           ++ rewrite lookup_insert_ne by done. rewrite decide_False by tauto. done.
        -- apply lookup_ge_None in Hu. lia.
      * rewrite decide_False by tauto. done.
    + case_decide as Hc; [|done]. destruct Hc as (-> & Hpos & <-).
      rewrite Hru. cbn [mbind option_bind].
      rewrite (proj2 (lookup_ge_None utilization (Z.to_nat period))) by lia. done.
  - case_decide as Hc; [|done]. destruct Hc as (-> & _). by rewrite Hru.
Qed.

Lemma commit_entries_other period (es : list (string * Qc)) rid' i : forall ru,
  rid' ∉ es.*1 ->
  cell (foldl (commit_amount period) ru es) rid' i = cell ru rid' i.
Proof.
  induction es as [|[rid amt] es IH]; intros ru Hnot; cbn [foldl]; [done|].
  rewrite fmap_cons in Hnot. apply not_elem_of_cons in Hnot as [Hne Hnot].
  rewrite IH by done. rewrite commit_amount_cell. by rewrite decide_False by tauto.
Qed.

Lemma commit_entries_hit period (es : list (string * Qc)) rid' amt i : forall ru,
  NoDup es.*1 -> (rid', amt) ∈ es ->
  cell (foldl (commit_amount period) ru es) rid' i
  = if decide (0 <= period /\ Z.to_nat period = i)
    then (fun u => u + amt)%Qc <$> cell ru rid' i
    else cell ru rid' i.
Proof.
  induction es as [|[rid a] es IH]; intros ru Hnd Hin; cbn [foldl].
  - by apply elem_of_nil in Hin.
  - rewrite fmap_cons in Hnd. apply NoDup_cons in Hnd as [Hhead Hnd].
    apply elem_of_cons in Hin as [[= <- <-]|Hin].
    + rewrite commit_entries_other by done. rewrite commit_amount_cell.
      repeat case_decide; try done; tauto.
    + assert (Hne : rid' <> rid).
      { intros ->. apply Hhead. apply list_elem_of_fmap. by exists (rid, amt). }
      rewrite IH by done. rewrite commit_amount_cell.
      by rewrite (decide_False (P := rid' = rid /\ _)) by tauto.
Qed.

Lemma commit_period_cell assigned ru period rid' i :
  cell (commit_period assigned ru period) rid' i
  = match assigned !! rid' with
    | Some amt =>
      if decide (0 <= period /\ Z.to_nat period = i)
      then (fun u => u + amt)%Qc <$> cell ru rid' i
      else cell ru rid' i
    | None => cell ru rid' i
    end.
Proof.
  unfold commit_period. destruct (assigned !! rid') as [amt|] eqn:Ha.
  - apply commit_entries_hit; [apply NoDup_fst_map_to_list|].
    by apply elem_of_map_to_list.
  - apply commit_entries_other. intros ([rid a] & Hrid & Hin)%list_elem_of_fmap.
    simpl in Hrid. subst rid. apply elem_of_map_to_list in Hin. congruence.
Qed.

(** Periods outside the task leave the cell alone. *)
Lemma commit_task_miss assigned (ps : list Z) rid' i : forall ru,
  (forall p, p ∈ ps -> ~ (0 <= p /\ Z.to_nat p = i)) ->
  cell (foldl (commit_period assigned) ru ps) rid' i = cell ru rid' i.
Proof.
  induction ps as [|p ps IH]; intros ru Hmiss; cbn [foldl]; [done|].
  rewrite IH by (intros q Hq; apply Hmiss; by right).
  rewrite commit_period_cell. destruct (assigned !! rid'); [|done].
  rewrite decide_False; [done|]. apply Hmiss. left.
Qed.

(** A period of the task adds the assigned amount to the cell, once. *)
Lemma commit_task_hit assigned (ps : list Z) rid' amt i p : forall ru,
  NoDup ps -> p ∈ ps -> 0 <= p -> Z.to_nat p = i -> assigned !! rid' = Some amt ->
  cell (foldl (commit_period assigned) ru ps) rid' i
  = (fun u => u + amt)%Qc <$> cell ru rid' i.
Proof.
  induction ps as [|q ps IH]; intros ru Hnd Hin Hpos Hi Ha; cbn [foldl].
  - by apply elem_of_nil in Hin.
  - apply NoDup_cons in Hnd as [Hq Hnd]. apply elem_of_cons in Hin as [<-|Hin].
    + rewrite commit_task_miss.
      * rewrite commit_period_cell, Ha. by rewrite decide_True.
      * intros q Hq' [Hq0 Hqi]. apply Hq. replace p with q by lia. done.
    + rewrite (IH _ Hnd Hin Hpos Hi Ha). rewrite commit_period_cell, Ha.
      rewrite decide_False; [done|]. intros [Hq0 Hqi]. apply Hq.
      replace q with p by lia. done.
Qed.

Lemma commit_task_unassigned assigned start dur ru rid' i :
  assigned !! rid' = None ->
  cell (commit_task assigned start dur ru) rid' i = cell ru rid' i.
Proof.
  intros Ha. unfold commit_task. generalize (seqZ start dur) as ps. intros ps. revert ru.
  induction ps as [|p ps IH]; intros ru; cbn [foldl]; [done|].
  rewrite IH, commit_period_cell, Ha. done.
Qed.

(** Every requirement of an accepted start passed its check. *)
Lemma check_requirements_all resources ru start dur reqs :
  forall assigned assigned',
  check_requirements resources ru start dur reqs assigned = Ok (Some assigned') ->
  Forall (fun req => exists r,
            find_resource resources (resourceId req) = Some r /\
            requirement_available r ru start dur (amount req) = Ok true) reqs.
Proof.
  induction reqs as [|req reqs IH]; intros assigned assigned'; simpl; [done|].
  destruct (find_resource resources (resourceId req)) as [r|] eqn:Hfind; [|discriminate].
  destruct (requirement_available _ _ _ _ _) as [[|]| |] eqn:Hav; simpl; try discriminate.
  intros H. apply Forall_cons. split; [eauto | by eapply IH].
Qed.

(** What is assigned to a resource passed the check for that resource. *)
Lemma check_requirements_checked resources ru start dur reqs :
  forall assigned assigned',
  check_requirements resources ru start dur reqs assigned = Ok (Some assigned') ->
  forall rid a, assigned' !! rid = Some a ->
    assigned !! rid = Some a \/
    exists r, find_resource resources rid = Some r /\
              requirement_available r ru start dur a = Ok true.
Proof.
  induction reqs as [|req reqs IH]; intros assigned assigned'; simpl.
  - intros [= ->]. auto.
  - destruct (find_resource resources (resourceId req)) as [r|] eqn:Hfind; [|discriminate].
    destruct (requirement_available _ _ _ _ _) as [[|]| |] eqn:Hav; simpl; try discriminate.
    intros H rid a Hl. destruct (IH _ _ H rid a Hl) as [Hin|Hchecked]; [|auto].
    apply lookup_insert_Some in Hin as [[<- <-]|[_ Hin]]; [|auto].
    right. eauto.
Qed.

(** A check that passed bounds the amount at each period of the task. *)
Lemma requirement_available_bound r ru start dur a utilization p u :
  requirement_available r ru start dur a = Ok true ->
  p ∈ seqZ start dur -> ru !! r_id r = Some utilization ->
  array_get utilization p = Some u ->
  (u + a ≤ availableCapacity r p)%Qc.
Proof.
  unfold requirement_available. intros Hav Hp Hru Hu.
  destruct (seqZ start dur) as [|q qs] eqn:Hseq; [by apply elem_of_nil in Hp|].
  rewrite Hru in Hav. injection Hav as Hall.
  change (forallb (period_ok r utilization a) (q :: qs) = true) in Hall.
  rewrite forallb_forall in Hall. specialize (Hall p).
  unfold period_ok in Hall. rewrite Hu in Hall. cbn [js_or_undef] in Hall.
  apply Qcnot_lt_le. intros Hlt.
  assert (Hsame : (js_or u 0 = u)%Qc)
    by (unfold js_or; destruct (decide (u = 0%Qc)); congruence).
  rewrite Hsame in Hall. rewrite bool_decide_eq_true_2 in Hall by done.
  specialize (Hall ltac:(by apply list_elem_of_In)). discriminate.
Qed.

(** The capacity that [scheduleTask] compares with is never exceeded. *)
Definition within_capacity (resources : list Resource) (ru : gmap string (list Qc)) : Prop :=
  forall rid r i u,
    find_resource resources rid = Some r -> cell ru rid i = Some u ->
    (u ≤ availableCapacity r (Z.of_nat i))%Qc.

Lemma commit_task_within resources ru start dur reqs assigned :
  check_requirements resources ru start dur reqs ∅ = Ok (Some assigned) ->
  within_capacity resources ru ->
  within_capacity resources (commit_task assigned start dur ru).
Proof.
  intros Hcheck Hinv rid r i u' Hfind Hcell.
  destruct (assigned !! rid) as [a|] eqn:Ha.
  - destruct (decide (Z.of_nat i ∈ seqZ start dur)) as [Hin|Hout].
    + unfold commit_task in Hcell.
      rewrite (commit_task_hit assigned _ rid a i (Z.of_nat i)) in Hcell;
        [|apply NoDup_seqZ|done|lia|lia|done].
      destruct (cell ru rid i) as [u|] eqn:Hu; [|discriminate].
      injection Hcell as <-.
      destruct (check_requirements_checked _ _ _ _ _ _ _ Hcheck rid a Ha)
        as [Hempty|(r' & Hfind' & Hav)]; [by rewrite lookup_empty in Hempty|].
      assert (r' = r) as -> by congruence.
      apply find_resource_Some in Hfind as [_ Hid].
      unfold cell in Hu. rewrite <- Hid in Hu.
      destruct (ru !! r_id r) as [utilization|] eqn:Hru; [|discriminate].
      cbn [mbind option_bind] in Hu.
      eapply requirement_available_bound; [done..|].
      unfold array_get. rewrite decide_True by lia. by rewrite Nat2Z.id.
    + unfold commit_task in Hcell. rewrite commit_task_miss in Hcell; [by eapply Hinv|].
      intros p Hp [Hp0 Hpi]. apply Hout. replace (Z.of_nat i) with p by lia. done.
  - rewrite commit_task_unassigned in Hcell by done. by eapply Hinv.
Qed.

Lemma Qcmult_nonneg (x y : Qc) : (0 ≤ x -> 0 ≤ y -> 0 ≤ x * y)%Qc.
Proof.
  intros Hx Hy. rewrite <- (Qcmult_0_l y). by apply Qcmult_le_compat_r.
Qed.

(** Capacities and multipliers that are not negative. *)
Definition resource_nonneg (r : Resource) : Prop :=
  (0 ≤ maxCapacity r)%Qc /\ Forall (fun m => 0 ≤ m)%Qc (availability r).

Lemma availableCapacity_nonneg r p :
  resource_nonneg r -> (0 ≤ availableCapacity r p)%Qc.
Proof.
  intros [Hcap Hav]. unfold availableCapacity. apply Qcmult_nonneg; [done|].
  apply js_or_undef_nonneg; [|done].
  intros m Hm. unfold availability_at in Hm. case_decide; [done|].
  apply array_get_elem in Hm. rewrite Forall_forall in Hav. auto.
Qed.

Lemma init_utilization_zero resources maxPeriods ru :
  init_utilization resources maxPeriods = Ok ru ->
  forall rid i u, cell ru rid i = Some u -> u = 0%Qc.
Proof.
  unfold init_utilization.
  set (step := fun (ru : gmap string (list Qc)) (resource : Resource) =>
                 let* arr := new_array_zero maxPeriods in
                 Ok (<[r_id resource := arr]> ru)).
  assert (Hgen : forall rs ru0 ru1,
    (forall rid i u, cell ru0 rid i = Some u -> u = 0%Qc) ->
    foldlM step rs ru0 = Ok ru1 ->
    forall rid i u, cell ru1 rid i = Some u -> u = 0%Qc).
  { induction rs as [|r rs IH]; intros ru0 ru1 Hzero; simpl.
    - intros [= <-]. done.
    - intros (ru' & Hstep & Hrest)%res_bind_Ok. apply (IH ru' ru1); [|done].
      unfold step in Hstep. apply res_bind_Ok in Hstep as (arr & Harr & [= <-]).
      unfold new_array_zero in Harr. case_decide; [|discriminate].
      injection Harr as <-. intros rid i u. unfold cell.
      destruct (decide (r_id r = rid)) as [->|Hne].
      + rewrite lookup_insert_eq. cbn [mbind option_bind].
        by intros [-> _]%lookup_replicate.
      + rewrite lookup_insert_ne by done. apply Hzero. }
  intros H. apply (Hgen resources ∅ ru); [|done].
  intros rid i u. unfold cell. by rewrite lookup_empty.
Qed.

Lemma schedule_step_within resources maxPeriods st task st' :
  schedule_step resources maxPeriods st task = Ok st' ->
  within_capacity resources (l_utilization st) ->
  within_capacity resources (l_utilization st').
Proof.
  unfold schedule_step. intros (p & Hp & Hst')%res_bind_Ok Hinv.
  case_decide.
  - by injection Hst' as <-.
  - injection Hst' as <-. simpl. unfold scheduleTask in Hp.
    apply try_starts_spec in Hp as [[-> _]|(s & assigned & _ & Hcheck & ->)]; [done|].
    simpl. by eapply commit_task_within.
Qed.

(** In the returned utilization no committed amount exceeds
    [maxCapacity × (availability[p mod length] || 1)]. *)
Lemma optimize_within_capacity tasks resources projectDeadline res :
  (forall r, r ∈ resources -> resource_nonneg r) ->
  optimizeResourceAllocation tasks resources projectDeadline = Ok res ->
  within_capacity resources (resourceUtilization res).
Proof.
  intros Hres. unfold optimizeResourceAllocation.
  intros (sorted & _ & H1)%res_bind_Ok.
  apply res_bind_Ok in H1 as (ru0 & Hinit & H2).
  apply res_bind_Ok in H2 as (st & Hloop & [= <-]). simpl.
  apply (foldlM_preserves _ (fun s => within_capacity resources (l_utilization s)))
    in Hloop; [exact Hloop| |].
  - intros s a s' _. apply schedule_step_within.
  - simpl. intros rid r i u Hfind Hcell.
    rewrite (init_utilization_zero _ _ _ Hinit _ _ _ Hcell).
    apply availableCapacity_nonneg, Hres.
    by apply find_resource_Some in Hfind as [? _].
Qed.

(** ** Scheduler: a task that needs a resource without capacity *)

Section zero_capacity.
Variables (tasks : list Task) (resources : list Resource) (maxPeriods : Z).
Variables (t : Task) (req : Requirement) (r : Resource).
Hypothesis unique_ids : NoDup (map t_id tasks).
Hypothesis amounts_nonneg :
  forall t' q', t' ∈ tasks -> q' ∈ requiredResources t' -> (0 ≤ amount q')%Qc.
Hypothesis t_in : t ∈ tasks.
Hypothesis t_lasts : 1 <= duration t.
Hypothesis req_in : req ∈ requiredResources t.
Hypothesis req_pos : (0 < amount req)%Qc.
Hypothesis req_resource : find_resource resources (resourceId req) = Some r.
Hypothesis no_capacity : maxCapacity r = 0%Qc.

(** The first period of any candidate start already fails for [req]. *)
Lemma period_blocked utilization start :
  Forall (fun u => 0 ≤ u)%Qc utilization ->
  period_ok r utilization (amount req) start = false.
Proof.
  intros Hnn. unfold period_ok, availableCapacity.
  rewrite no_capacity, Qcmult_0_l. rewrite bool_decide_eq_true_2; [done|].
  apply Qcplus_nonneg_pos; [|done].
  apply js_or_undef_nonneg; [|done].
  intros u Hu%array_get_elem. rewrite Forall_forall in Hnn. auto.
Qed.

Lemma check_blocked ru start :
  nonneg_utilization ru ->
  forall reqs assigned assigned', req ∈ reqs ->
  check_requirements resources ru start (duration t) reqs assigned <> Ok (Some assigned').
Proof.
  intros Hnn. induction reqs as [|x reqs IH]; intros assigned assigned' Hin.
  - by apply elem_of_nil in Hin.
  - simpl. apply elem_of_cons in Hin as [<-|Hin].
    + rewrite req_resource. unfold requirement_available.
      rewrite seqZ_cons by lia.
      destruct (ru !! r_id r) as [utilization|] eqn:Hru; simpl; [|done].
      rewrite period_blocked; [done|]. exact (Hnn _ _ Hru).
    + destruct (find_resource resources (resourceId x)); [|done].
      destruct (requirement_available _ _ _ _ _) as [[|]| |]; simpl; try done.
      by apply IH.
Qed.

(** The invariant of the loop of [optimizeResourceAllocation]. *)
Definition blocked_inv (st : loop_state) : Prop :=
  arrays_ready resources (l_utilization st) /\
  nonneg_utilization (l_utilization st) /\
  (forall e, e ∈ l_schedule st -> taskId e <> t_id t).

Lemma same_id_same_task task : task ∈ tasks -> t_id task = t_id t -> task = t.
Proof.
  intros Hin Hid. pose proof (find_task_unique tasks task unique_ids Hin) as H1.
  pose proof (find_task_unique tasks t unique_ids t_in) as H2.
  rewrite Hid in H1. congruence.
Qed.

Lemma step_blocked st task :
  task ∈ tasks -> blocked_inv st ->
  exists st', schedule_step resources maxPeriods st task = Ok st' /\
    blocked_inv st' /\
    (forall m, m ∈ l_conflicts st -> m ∈ l_conflicts st') /\
    (task = t -> cannot_schedule t ∈ l_conflicts st').
Proof.
  intros Hin (Hready & Hnn & Hsched). unfold schedule_step.
  destruct (scheduleTask_returns task resources (l_utilization st)
              (getEarliestStartTime task (l_schedule st)) maxPeriods Hready) as [p Hp].
  rewrite Hp. simpl. unfold scheduleTask in Hp.
  apply try_starts_spec in Hp as [[-> _]|(s & assigned & _ & Hcheck & ->)].
  - rewrite decide_True by done. eexists; split; [done|]. split; [done|]. simpl. split.
    + intros m Hm. apply elem_of_app. by left.
    + intros ->. apply elem_of_app. right. by apply list_elem_of_singleton.
  - assert (Hne : task <> t).
    { intros ->. by eapply check_blocked. }
    simpl. case_decide.
    + eexists; split; [done|]. split; [done|]. simpl. split; [|done].
      intros m Hm. apply elem_of_app. by left.
    + eexists; split; [done|]. simpl. split; [|split; [|done]].
      * split; [by apply commit_task_ready|]. split.
        -- apply commit_task_nonneg; [|done].
           intros rid a Ha.
           destruct (check_requirements_amounts _ _ _ _ _ _ _ Hcheck rid a Ha)
             as [Hempty|(q' & Hq' & _ & <-)]; [by rewrite lookup_empty in Hempty|].
           by eapply amounts_nonneg.
        -- intros e [He|He%list_elem_of_singleton]%elem_of_app; [auto|].
           subst e. simpl. intros Hid. apply Hne. by apply same_id_same_task.
      * intros m Hm. rewrite app_nil_r. done.
Qed.

Lemma loop_blocked l :
  (forall x, x ∈ l -> x ∈ tasks) ->
  forall st, blocked_inv st ->
  exists st', foldlM (schedule_step resources maxPeriods) l st = Ok st' /\
    blocked_inv st' /\
    (forall m, m ∈ l_conflicts st -> m ∈ l_conflicts st') /\
    (t ∈ l -> cannot_schedule t ∈ l_conflicts st').
Proof.
  induction l as [|x l IH]; intros Hl st Hinv; simpl.
  - exists st. split; [done|]. split; [done|]. split; [done|].
    intros H. by apply elem_of_nil in H.
  - destruct (step_blocked st x) as (st1 & -> & Hinv1 & Hmono1 & Hx); [|done|].
    { apply Hl. left. }
    simpl. destruct (IH (fun y Hy => Hl y (list_elem_of_further _ _ _ Hy)) st1 Hinv1)
      as (st' & -> & Hinv' & Hmono' & Ht).
    exists st'. split; [done|]. split; [done|]. split; [auto|].
    intros [->|Hin]%elem_of_cons; auto.
Qed.

End zero_capacity.

End SchedulerFacts.

(** * The claims about the scheduler *)

Module SchedulerClaims.
Import Scheduler SchedulerFacts.

Definition cyclic_tasks : list Task :=
  [mkTask "A" "Design" 2 [] ["B"; "ghost"] 1%Qc;
   mkTask "B" "Build" 3 [] ["A"] 2%Qc;
   mkTask "C" "Ship" 1 [] ["C"] (Qc_of_Z 3)].

(** C6. For every finite task list, cycles and unknown prerequisite ids
    included, the topological sort returns (it never runs out of the fuel
    that bounds its depth) a list of tasks of the input, and
    [optimizeResourceAllocation] returns a result, for every horizon that is a
    valid array length. *)
Theorem C6_scheduler_terminates tasks resources projectDeadline :
  0 <= horizon projectDeadline < 2 ^ 32 ->
  (exists sorted, topologicalSort tasks = Ok sorted /\
     forall x, x ∈ sorted -> x ∈ tasks) /\
  exists r, optimizeResourceAllocation tasks resources projectDeadline = Ok r.
Proof.
  intros Hlen. split.
  - destruct (topologicalSort_returns tasks) as [sorted Hs].
    exists sorted. split; [done|]. by apply topologicalSort_sound.
  - by apply optimize_returns.
Qed.

Lemma C6_scheduler_terminates_witness :
  0 <= horizon None < 2 ^ 32 /\
  ((exists sorted, topologicalSort cyclic_tasks = Ok sorted /\
      forall x, x ∈ sorted -> x ∈ cyclic_tasks) /\
   exists r, optimizeResourceAllocation cyclic_tasks [] None = Ok r).
Proof.
  assert (H : 0 <= horizon None < 2 ^ 32) by (simpl; lia).
  split; [exact H|]. exact (C6_scheduler_terminates cyclic_tasks [] None H).
Defined.

(** C4, as the spec states it, fails on a task of duration 0: its loop over
    periods is empty, so it is placed although the resource has no
    capacity. *)
Definition milestone : Task :=
  mkTask "M" "Milestone" 0 [mkRequirement "R" 1%Qc] [] 1%Qc.

Definition no_capacity_resource : Resource :=
  mkResource "R" "Reviewer" "QA" 0%Qc (Qc_of_Z 60) [1%Qc].

Definition review_task : Task :=
  mkTask "T" "Review" 2 [mkRequirement "R" 1%Qc] [] 1%Qc.

Lemma C4_counterexample_zero_duration :
  match optimizeResourceAllocation [milestone] [no_capacity_resource] None with
  | Ok r => map taskId (schedule r) = ["M"] /\ conflicts r = []
  | _ => False
  end.
Proof. vm_compute. split; reflexivity. Qed.

(** C4 (amended). With unique task ids and no negative amount, a task that
    lasts at least one period and requires a positive amount of a resource
    whose [maxCapacity] is 0 is left out of the returned schedule, a conflict
    entry names it, and the run returns its result. *)
Theorem C4_zero_capacity_task_is_reported
    tasks resources projectDeadline (t : Task) (req : Requirement) (r : Resource) :
  0 <= horizon projectDeadline < 2 ^ 32 ->
  NoDup (map t_id tasks) ->
  (forall t' q', t' ∈ tasks -> q' ∈ requiredResources t' -> (0 ≤ amount q')%Qc) ->
  t ∈ tasks ->
  1 <= duration t ->
  req ∈ requiredResources t ->
  (0 < amount req)%Qc ->
  find_resource resources (resourceId req) = Some r ->
  maxCapacity r = 0%Qc ->
  exists res,
    optimizeResourceAllocation tasks resources projectDeadline = Ok res /\
    (forall e, e ∈ schedule res -> taskId e <> t_id t) /\
    cannot_schedule t ∈ conflicts res.
Proof.
  intros Hlen Hnd Hamounts Ht Hdur Hreq Hpos Hfind Hcap.
  unfold optimizeResourceAllocation.
  destruct (topologicalSort_returns tasks) as [sorted Hsorted]. rewrite Hsorted. simpl.
  destruct (init_utilization_returns resources _ Hlen) as (ru & -> & Hready & Hnn). simpl.
  destruct (loop_blocked tasks resources (horizon projectDeadline) t req r
              Hnd Hamounts Ht Hdur Hreq Hpos Hfind Hcap sorted
              (topologicalSort_sound tasks sorted Hsorted) (mkLoop [] ru []))
    as (st & -> & (_ & _ & Hsched) & _ & Hconflict).
  { split; [done|]. split; [done|]. intros e He. by apply elem_of_nil in He. }
  simpl. eexists. split; [done|]. simpl. split; [done|].
  apply Hconflict. by eapply topologicalSort_complete.
Qed.

Lemma C4_zero_capacity_task_is_reported_witness :
  exists res,
    optimizeResourceAllocation [review_task] [no_capacity_resource] None = Ok res /\
    (forall e, e ∈ schedule res -> taskId e <> "T") /\
    "Cannot schedule task Review - insufficient resources" ∈ conflicts res.
Proof.
  apply (C4_zero_capacity_task_is_reported [review_task] [no_capacity_resource] None
           review_task (mkRequirement "R" 1%Qc) no_capacity_resource).
  - simpl. lia.
  - simpl. apply NoDup_singleton.
  - intros t' q' Ht' Hq'. apply list_elem_of_singleton in Ht'. subst t'.
    simpl in Hq'. apply list_elem_of_singleton in Hq'. subst q'. simpl. done.
  - apply list_elem_of_singleton. reflexivity.
  - simpl. lia.
  - simpl. apply list_elem_of_singleton. reflexivity.
  - simpl. done.
  - reflexivity.
  - reflexivity.
Defined.

(** C5. The scenario [{resourceMultiplier: 1.0}] with no time constraint
    returns one outcome, whose [result] equals, component for component, what
    [optimizeResourceAllocation] returns for the same tasks and resources with
    no deadline. *)
Theorem C5_identity_scenario tasks resources budget quality :
  exists r o,
    optimizeResourceAllocation tasks resources None = Ok r /\
    performScenarioAnalysis tasks resources [mkScenario 1%Qc budget None quality]
    = Ok [o] /\
    schedule (so_result o) = schedule r /\
    resourceUtilization (so_result o) = resourceUtilization r /\
    totalCost (so_result o) = totalCost r /\
    projectDuration (so_result o) = projectDuration r /\
    conflicts (so_result o) = conflicts r.
Proof.
  assert (Hsame : map (adjust_resource (mkScenario 1%Qc budget None quality)) resources
                  = resources).
  { induction resources as [|x xs IH]; simpl; [done|]. f_equal; [|exact IH].
    destruct x. unfold adjust_resource. simpl. by rewrite Qcmult_1_r. }
  destruct (optimize_returns tasks resources None) as [r Hr]; [simpl; lia|].
  exists r. eexists. split; [done|]. simpl. unfold run_scenario. simpl.
  rewrite Hsame, Hr. simpl. split; [reflexivity|]. simpl. done.
Qed.

(** The instance of C3: task B waits for task A, one resource of capacity 1
    that is always available, amount 1 and duration 2 for both tasks. *)
Definition task_A : Task := mkTask "A" "Task A" 2 [mkRequirement "R" 1%Qc] [] 1%Qc.
Definition task_B : Task := mkTask "B" "Task B" 2 [mkRequirement "R" 1%Qc] ["A"] 2%Qc.
Definition single_resource (rate : Qc) : Resource :=
  mkResource "R" "Developer" "Developer" 1%Qc rate [1%Qc].

Definition two_task_outcome (tasks : list Task) (rate : Qc) : Prop :=
  exists r a b,
    optimizeResourceAllocation tasks [single_resource rate] None = Ok r /\
    schedule r = [a; b] /\
    taskId a = "A" /\ taskId b = "B" /\
    startPeriod a = 0 /\ endPeriod a = 2 /\
    startPeriod b = endPeriod a /\ endPeriod b = 4 /\
    totalCost r = (1 * rate * Qc_of_Z 2 + 1 * rate * Qc_of_Z 2)%Qc /\
    projectDuration r = 4 /\
    conflicts r = [].

Definition entry_A : ScheduleEntry := mkEntry "A" 0 2 {["R" := 1%Qc]}.
Definition entry_B : ScheduleEntry := mkEntry "B" 2 4 {["R" := 1%Qc]}.

Lemma two_task_sorted :
  topologicalSort [task_A; task_B] = Ok [task_A; task_B] /\
  topologicalSort [task_B; task_A] = Ok [task_A; task_B].
Proof. split; vm_compute; reflexivity. Qed.

(** The loop does not look at the hourly rate. *)
Lemma two_task_loop (rate : Qc) :
  exists ru,
    (let* ru0 := init_utilization [single_resource rate] 100 in
     foldlM (schedule_step [single_resource rate] 100) [task_A; task_B]
            (mkLoop [] ru0 []))
    = Ok (mkLoop [entry_A; entry_B] ru []).
Proof. eexists. vm_compute. reflexivity. Qed.

Lemma two_task_totals (rate : Qc) :
  totals [single_resource rate] [entry_A; entry_B]
  = ((1 * rate * Qc_of_Z 2 + 1 * rate * Qc_of_Z 2)%Qc, 4).
Proof.
  unfold totals, entry_cost, entry_A, entry_B. simpl.
  rewrite !map_to_list_singleton. simpl. by rewrite Qcplus_0_l.
Qed.

Lemma two_task_result (tasks : list Task) (rate : Qc) :
  topologicalSort tasks = Ok [task_A; task_B] -> two_task_outcome tasks rate.
Proof.
  intros Hsorted. destruct (two_task_loop rate) as [ru Hloop].
  apply res_bind_Ok in Hloop as (ru0 & Hinit & Hloop).
  pose proof (optimize_Ok tasks [single_resource rate] None _ _ _ Hsorted Hinit Hloop)
    as Hrun.
  cbn [l_schedule l_utilization l_conflicts] in Hrun.
  rewrite two_task_totals in Hrun.
  exists (mkResult [entry_A; entry_B] ru
            (1 * rate * Qc_of_Z 2 + 1 * rate * Qc_of_Z 2)%Qc 4 []), entry_A, entry_B.
  split; [exact Hrun|]. cbn. repeat (split; [reflexivity|]). reflexivity.
Qed.

(** C3. On the two-task instance, in either order of the task list and for
    every hourly rate, B starts exactly when A ends, the total cost is the sum
    of amount × hourlyRate × duration over both tasks, and there is no
    conflict. *)
Theorem C3_dependent_task_starts_at_end (rate : Qc) :
  two_task_outcome [task_A; task_B] rate /\ two_task_outcome [task_B; task_A] rate.
Proof. split; apply two_task_result; apply two_task_sorted. Qed.

(** The sample QA team of the resource form: not available on the last two
    periods of each week. *)
Definition qa_team : Resource :=
  mkResource "qa1" "QA Team" "QA" (Qc_of_Z 3) (Qc_of_Z 60)
             [1%Qc; 1%Qc; 1%Qc; 1%Qc; 1%Qc; 0%Qc; 0%Qc].

Definition weekday_task : Task :=
  mkTask "task1" "Test" 5 [mkRequirement "qa1" (Qc_of_Z 3)] [] 1%Qc.

Definition weekend_task : Task :=
  mkTask "task2" "Retest" 2 [mkRequirement "qa1" (Qc_of_Z 3)] ["task1"] 2%Qc.

(** C2 does not hold of the code: [availability[...] || 1] turns a
    multiplier of 0 into 1.  The second task is placed on periods 5 and 6,
    where the QA team has availability 0, and the committed amount 3 exceeds
    [maxCapacity × 0]. *)
Theorem C2_zero_availability_is_read_as_full :
  availability_at qa_team 5 = Some 0%Qc /\
  availableCapacity qa_team 5 = Qc_of_Z 3 /\
  match optimizeResourceAllocation [weekday_task; weekend_task] [qa_team] None with
  | Ok r =>
    map (fun e => (taskId e, startPeriod e, endPeriod e)) (schedule r)
    = [("task1", 0, 5); ("task2", 5, 7)] /\
    conflicts r = [] /\
    exists u, resourceUtilization r !! "qa1" ≫= (fun a => array_get a 5) = Some u /\
              (maxCapacity qa_team * 0 < u)%Qc
  | _ => False
  end.
Proof.
  split; [reflexivity|]. split; [apply Qc_is_canon; reflexivity|].
  vm_compute. split; [reflexivity|]. split; [reflexivity|].
  eexists. split; reflexivity.
Qed.

End SchedulerClaims.

(** * The claim about the decision tree *)

Module DecisionTreeClaims.
Import DecisionTree.

Local Open Scope Qc_scope.

(** A decision with a single option. *)
Definition single_option_tree : DecisionNode :=
  mkNode "root" "Build or buy" decision None None None
    [mkNode "buy" "Buy" outcome (Some 1) (Some (Qc_of_Z 100)) (Some (Qc_of_Z 250)) []].

(** Every decision node of the tree has no child or at least two. *)
Fixpoint decisions_branch (node : DecisionNode) : bool :=
  match node with
  | mkNode _ _ ty _ _ _ cs =>
    (match ty, cs with
     | decision, [_] => false
     | _, _ => true
     end && forallb decisions_branch cs)%bool
  end.

Lemma DecisionNode_induction (P : DecisionNode -> Prop) :
  (forall id nm ty p c v cs, Forall P cs -> P (mkNode id nm ty p c v cs)) ->
  forall node, P node.
Proof.
  intros H. fix IH 1. intros [id nm ty p c v cs]. apply H.
  induction cs as [|x xs IHxs]; constructor; [apply IH | apply IHxs].
Qed.

Lemma insert_by_value_length x l : length (insert_by_value x l) = S (length l).
Proof.
  induction l as [|y l IH]; simpl; [done|]. case_decide; simpl; [by rewrite IH | done].
Qed.

Lemma sort_by_value_length l : length (sort_by_value l) = length l.
Proof.
  unfold sort_by_value. induction l as [|x l IH]; simpl; [done|].
  by rewrite insert_by_value_length, IH.
Qed.

Lemma choose_option_returns sorted :
  (2 <= length sorted)%nat -> exists r, choose_option sorted = Ok r.
Proof.
  destruct sorted as [|topOption [|secondOption rest]]; cbn [length]; try lia.
  intros _. unfold choose_option.
  match goal with
  | |- context [let '(_, _) := ?X in _] => destruct X as [best reasons]
  end.
  eauto.
Qed.

(** Away from decisions with a single option the analysis returns. *)
Lemma findBestPath_returns node :
  decisions_branch node = true ->
  forall currentPath, exists r, findBestPathWithRiskAnalysis node currentPath = Ok r.
Proof.
  induction node as [id nm ty p c v cs IH] using DecisionNode_induction.
  intros Hwf currentPath. simpl in Hwf.
  apply andb_true_iff in Hwf as [Hshape Hcs].
  assert (Hall : Forall (fun child => forall path,
            exists r, findBestPathWithRiskAnalysis child path = Ok r) cs).
  { rewrite Forall_forall in IH. apply Forall_forall. intros child Hchild.
    apply IH; [done|]. rewrite forallb_forall in Hcs. apply Hcs.
    by apply list_elem_of_In. }
  clear IH Hcs. simpl. destruct ty.
  - destruct cs as [|c1 cs']; [eauto|].
    destruct cs' as [|c2 cs'']; [discriminate|]. clear Hshape.
    set (analyse := fix analyse (l : list DecisionNode) : res (list ChildAnalysis) :=
           match l with
           | [] => Ok []
           | child :: l' =>
             let* p := findBestPathWithRiskAnalysis child (currentPath ++ [nm]) in
             let* rest := analyse l' in
             Ok (mkChild (n_name child) (calculateExpectedValue child)
                         (calculateRiskMetrics child) p :: rest)
           end).
    assert (Han : forall l,
      Forall (fun child => forall path,
                exists r, findBestPathWithRiskAnalysis child path = Ok r) l ->
      exists al, analyse l = Ok al /\ length al = length l).
    { induction l as [|x l IHl]; intros Hl; simpl; [eauto|].
      apply Forall_cons in Hl as [Hx Hl].
      destruct (Hx (currentPath ++ [nm])) as [px ->]. simpl.
      destruct (IHl Hl) as (al & -> & Hlen). simpl.
      eexists; split; [done|]. simpl. by rewrite Hlen. }
    destruct (Han _ Hall) as (al & Hal & Hlen).
    change (exists r, (let* childAnalysis := analyse (c1 :: c2 :: cs'') in
                       choose_option (sort_by_value childAnalysis)) = Ok r).
    rewrite Hal. simpl. apply choose_option_returns.
    rewrite sort_by_value_length, Hlen. simpl. lia.
  - destruct cs as [|c1 cs']; [eauto|]. clear Hshape.
    apply Forall_cons in Hall as [H1 Hrest].
    generalize (H1 (currentPath ++ [nm])).
    generalize (findBestPathWithRiskAnalysis c1 (currentPath ++ [nm])) as k.
    generalize c1 as best. clear H1.
    induction cs' as [|x xs IHxs]; intros best k Hk; [exact Hk|].
    apply Forall_cons in Hrest as [Hx Hxs].
    case_decide; apply IHxs; auto.
  - eauto.
Qed.

(** C1 does not hold of the code.  A decision node with exactly one child
    never makes [analyzeDecisionTree] return: [childAnalysis[1]] is
    [undefined] and reading its [expectedValue] throws a [TypeError], as on
    [single_option_tree].  On every tree without such a node the analysis
    returns a result. *)
Theorem C1_single_option_decision_throws :
  analyzeDecisionTree single_option_tree = Throw TypeError /\
  (forall id nm p c v child r,
     analyzeDecisionTree (mkNode id nm decision p c v [child]) <> Ok r) /\
  (forall node, decisions_branch node = true ->
     exists r, analyzeDecisionTree node = Ok r).
Proof.
  split; [reflexivity|]. split.
  - intros id nm p c v child r. unfold analyzeDecisionTree.
    cbn [findBestPathWithRiskAnalysis].
    destruct (findBestPathWithRiskAnalysis child ([] ++ [nm])); discriminate.
  - intros node Hwf. unfold analyzeDecisionTree.
    destruct (findBestPath_returns node Hwf []) as [r ->]. simpl. eauto.
Qed.

End DecisionTreeClaims.

(** * The claims about the financial math and the estimators *)

Module NumFacts.
Import JsNum.

Local Open Scope Qc_scope.



Lemma Qc_of_Z_100_ne_0 : Qc_of_Z 100 <> 0.
Proof. done. Qed.

Lemma Qc_of_Z_pos (z : Z) : (0 < z)%Z -> 0 < Qc_of_Z z.
Proof. intros H. rewrite <- Z2Qc_inj_0. exact (proj1 (Z2Qc_inj_lt 0 z) H). Qed.

Lemma Qc_of_Z_ne_0 (z : Z) : (0 < z)%Z -> Qc_of_Z z <> 0.
Proof. intros H Heq. apply Qc_of_Z_pos in H. rewrite Heq in H. by apply Qclt_not_eq in H. Qed.

Lemma Qfloor_Qc_of_Z (z : Z) : Qfloor (Qc_of_Z z) = z.
Proof. exact (Qfloor_Z z). Qed.

Section with_math.
Context {M : MathLib}.

Lemma npow_of_nat b (n : nat) : npow b (of_nat n) = npow_nat b n.
Proof.
  unfold npow, of_nat, of_Z.
  rewrite Qfloor_Qc_of_Z. rewrite decide_True by done.
  unfold npow_int. rewrite decide_True by lia. by rewrite Nat2Z.id.
Qed.


Lemma npow_2 b : npow b (of_Z 2) = nmul b (nmul b (Fin 1)).
Proof. change (of_Z 2) with (of_nat 2). by rewrite npow_of_nat. Qed.

End with_math.

End NumFacts.

Module FinanceClaims.
Import JsNum Estimation NumFacts.

Section with_math.
Context {M : MathLib}.





End with_math.




(** ** Monte Carlo simulation without risk *)







Section with_math.
Context {M : MathLib}.


End with_math.

Lemma floor_of_fraction (n : nat) (c : Qc) :
  (1 <= n)%nat -> (0 ≤ c)%Qc -> (c < 1)%Qc ->
  (0 <= Qfloor (Qc_of_Z (Z.of_nat n) * c)%Qc < Z.of_nat n)%Z.
Proof.
  intros Hn H0 H1.
  assert (HN : (0 < Qc_of_Z (Z.of_nat n))%Qc) by (apply Qc_of_Z_pos; lia).
  split.
  - change 0%Z with (Qfloor 0). apply Qfloor_resp_le.
    change (0 ≤ Qc_of_Z (Z.of_nat n) * c)%Qc.
    rewrite <- (Qcmult_0_l c). apply Qcmult_le_compat_r; [by apply Qclt_le_weak | done].
  - rewrite Zlt_Qlt. eapply Qle_lt_trans; [apply Qfloor_le|].
    change (Qc_of_Z (Z.of_nat n) * c < Qc_of_Z (Z.of_nat n))%Qc.
    rewrite <- (Qcmult_1_l (Qc_of_Z (Z.of_nat n))) at 2.
    rewrite (Qcmult_comm (Qc_of_Z (Z.of_nat n)) c).
    by apply Qcmult_lt_compat_r.
Qed.


Section with_math.
Context {M : MathLib}.



End with_math.



End FinanceClaims.

Module EstimationClaims.
Import JsNum Estimation NumFacts.

Local Open Scope Qc_scope.

(** ** Delphi estimation when nobody is confident *)

(** The sum of the confidence values, in exact arithmetic. *)
Definition total_confidence (estimates : list ExpertEstimate) : Qc :=
  foldl (fun sum est => sum + confidence est) 0 estimates.

Lemma Qc_square_nonneg (d : Qc) : 0 ≤ d * d.
Proof.
  change (0 <= Qred (d * d))%Q. rewrite Qred_correct.
  unfold Qle, Qmult. simpl. nia.
Qed.

Lemma Qc_div_nonneg (x y : Qc) : 0 ≤ x -> 0 < y -> 0 ≤ x / y.
Proof.
  intros Hx Hy. unfold Qcdiv. rewrite <- (Qcmult_0_l (/ y)).
  apply Qcmult_le_compat_r; [done|].
  change (0 <= Qred (/ y))%Q. rewrite Qred_correct.
  apply Qinv_le_0_compat. by apply Qlt_le_weak.
Qed.

Lemma Qc_sum_zero (a c : Qc) : 0 ≤ a -> 0 ≤ c -> a + c = 0 -> a = 0 /\ c = 0.
Proof.
  intros Ha Hc Hsum.
  assert (Ha0 : a = 0).
  { apply Qcle_antisym; [|done]. rewrite <- Hsum.
    rewrite <- (Qcplus_0_r a) at 1. by apply Qcplus_le_mono_l. }
  split; [done|]. rewrite Ha0, Qcplus_0_l in Hsum. done.
Qed.

(** Confidence values that are not negative and sum to 0 are all 0. *)
Lemma zero_sum_all_zero (l : list ExpertEstimate) : forall a,
  0 ≤ a -> Forall (fun e => 0 ≤ confidence e) l ->
  foldl (fun sum est => sum + confidence est) a l = 0 ->
  a = 0 /\ Forall (fun e => confidence e = 0) l.
Proof.
  induction l as [|e l IH]; intros a Ha Hl; cbn [foldl].
  - auto.
  - apply Forall_cons in Hl as [He Hl]. intros Hsum.
    destruct (IH (a + confidence e)) as [Hae Hall]; [|done..|].
    { by apply Qcplus_nonneg_nonneg. }
    destruct (Qc_sum_zero _ _ Ha He Hae) as [-> Hc]. split; [done|].
    by apply Forall_cons.
Qed.

Lemma totalConfidence_is_sum (l : list ExpertEstimate) : forall a,
  foldl (fun sum est => nadd sum (Fin (confidence est))) (Fin a) l
  = Fin (foldl (fun sum est => sum + confidence est) a l).
Proof. induction l as [|e l IH]; intros a; cbn [foldl]; [done|]. apply IH. Qed.

Lemma nsum_finite (l : list num) : forall a,
  Forall (fun x => is_finite x = true) l -> exists s, foldl nadd (Fin a) l = Fin s.
Proof.
  induction l as [|x l IH]; intros a Hl; cbn [foldl]; [eauto|].
  apply Forall_cons in Hl as [Hx Hl]. destruct x; try discriminate. apply IH, Hl.
Qed.

Lemma nmin_finite a b : is_finite a = true -> is_finite b = true -> is_finite (nmin a b) = true.
Proof. destruct a, b; try discriminate. intros _ _. unfold nmin. by destruct (nltb _ _). Qed.

Lemma nmax_finite a b : is_finite a = true -> is_finite b = true -> is_finite (nmax a b) = true.
Proof. destruct a, b; try discriminate. intros _ _. unfold nmax. by destruct (nltb _ _). Qed.

Section with_math.
Context {M : MathLib}.

Lemma pert_of_finite est : exists p, pert_of est = Fin p.
Proof.
  unfold pert_of, of_Z, nmul, nadd, ndiv.
  rewrite decide_False by (by apply Qc_of_Z_ne_0). eauto.
Qed.

Lemma weighted_sum_zero (l : list ExpertEstimate) :
  Forall (fun e => confidence e = 0) l ->
  foldl (fun sum est => nadd sum (nmul (pert_of est) (Fin (confidence est)))) (Fin 0) l
  = Fin 0.
Proof.
  induction l as [|e l IH]; intros Hl; cbn [foldl]; [done|].
  apply Forall_cons in Hl as [He Hl]. destruct (pert_of_finite e) as [p ->].
  rewrite He. unfold nmul, nadd. rewrite Qcmult_0_r, Qcplus_0_l. by apply IH.
Qed.

Lemma squares_nonneg (average : Qc) (l : list num) : forall a,
  0 ≤ a -> Forall (fun x => is_finite x = true) l ->
  exists s, 0 ≤ s /\
    foldl (fun sum est => nadd sum (npow (nsub est (Fin average)) (of_Z 2))) (Fin a) l
    = Fin s.
Proof.
  induction l as [|x l IH]; intros a Ha Hl; cbn [foldl]; [eauto|].
  apply Forall_cons in Hl as [Hx Hl]. destruct x as [p| | |]; try discriminate.
  rewrite npow_2. unfold nsub, nneg, nadd, nmul. apply IH; [|done].
  apply Qcplus_nonneg_nonneg; [done|]. rewrite Qcmult_1_r. apply Qc_square_nonneg.
Qed.

Lemma nsqrt_finite (x : Qc) : 0 ≤ x -> is_finite (nsqrt (Fin x)) = true.
Proof.
  intros Hx. unfold nsqrt. rewrite decide_False; [done|]. by apply Qcle_not_lt.
Qed.

(** C10. For every non-empty list of expert estimates whose confidence
    values are not negative and sum to 0, [finalEstimate] and
    [confidenceWeightedAverage] are [NaN] (0 divided by 0), while [pert] and
    [consensus] are finite numbers; the function returns. *)
Theorem C10_zero_confidence_gives_NaN (estimates : list ExpertEstimate) :
  estimates <> [] ->
  Forall (fun e => 0 ≤ confidence e) estimates ->
  total_confidence estimates = 0 ->
  let r := calculateDelphiEstimation estimates in
  finalEstimate r = NaN /\
  confidenceWeightedAverage r = NaN /\
  is_finite (pert r) = true /\
  is_finite (consensus r) = true.
Proof.
  intros Hne Hnonneg Hsum r. subst r.
  destruct (zero_sum_all_zero estimates 0) as [_ Hzero]; [done..|].
  destruct estimates as [|e l]; [done|]. clear Hne.
  set (estimates := e :: l) in *.
  unfold calculateDelphiEstimation. cbn [finalEstimate confidenceWeightedAverage pert consensus].
  fold estimates.
  assert (Hcwa :
    ndiv (foldl (fun sum est => nadd sum (nmul (pert_of est) (Fin (confidence est))))
                (Fin 0) estimates)
         (foldl (fun sum est => nadd sum (Fin (confidence est))) (Fin 0) estimates)
    = NaN).
  { rewrite weighted_sum_zero by done. rewrite totalConfidence_is_sum.
    unfold total_confidence in Hsum. rewrite Hsum. reflexivity. }
  assert (Hperts : Forall (fun x => is_finite x = true) (map pert_of estimates)).
  { apply Forall_fmap, Forall_forall. intros x _.
    change (is_finite (pert_of x) = true).
    by destruct (pert_of_finite x) as [p ->]. }
  assert (Hlen : (0 < Qc_of_Z (Z.of_nat (length (map pert_of estimates))))).
  { apply Qc_of_Z_pos. unfold estimates. simpl. lia. }
  destruct (nsum_finite _ 0 Hperts) as [s Hs].
  assert (Havg : ndiv (nsum (map pert_of estimates))
                      (of_nat (length (map pert_of estimates)))
                 = Fin (s / Qc_of_Z (Z.of_nat (length (map pert_of estimates))))).
  { unfold nsum. rewrite Hs. unfold of_nat, of_Z, ndiv.
    rewrite decide_False; [done|]. intros Heq. rewrite Heq in Hlen.
    by apply Qclt_not_eq in Hlen. }
  split; [exact Hcwa|]. split; [exact Hcwa|]. rewrite Havg. split; [done|].
  apply nmax_finite; [done|]. apply nmin_finite; [done|].
  destruct (nltb (Fin 0) _) eqn:Hpos; [|done].
  destruct (squares_nonneg
              (s / Qc_of_Z (Z.of_nat (length (map pert_of estimates))))
              (map pert_of estimates) 0) as (sq & Hsq & ->); [done..|].
  unfold of_nat, of_Z. unfold ndiv at 2.
  rewrite decide_False
    by (intros Heq; rewrite Heq in Hlen; by apply Qclt_not_eq in Hlen).
  pose proof (nsqrt_finite _ (Qc_div_nonneg _ _ Hsq Hlen)) as Hsqrt.
  destruct (nsqrt _) as [sd| | |]; try discriminate.
  unfold nltb in Hpos. apply bool_decide_eq_true in Hpos.
  unfold ndiv. rewrite decide_False; [done|].
  intros Heq. rewrite Heq in Hpos. by apply Qclt_not_eq in Hpos.
Qed.

End with_math.

Definition unsure_experts : list ExpertEstimate :=
  [mkEstimate "Expert 1" (Qc_of_Z 80) (Qc_of_Z 100) (Qc_of_Z 140) 0;
   mkEstimate "Expert 2" (Qc_of_Z 90) (Qc_of_Z 120) (Qc_of_Z 200) 0].

Lemma C10_zero_confidence_gives_NaN_witness :
  let r := @calculateDelphiEstimation floor_math unsure_experts in
  finalEstimate r = NaN /\
  confidenceWeightedAverage r = NaN /\
  is_finite (pert r) = true /\
  is_finite (consensus r) = true.
Proof.
  apply (@C10_zero_confidence_gives_NaN floor_math unsure_experts).
  - discriminate.
  - repeat constructor; discriminate.
  - apply Qc_is_canon. reflexivity.
Defined.

(** ** Regression on a single historical project *)










Section with_math.
Context {M : MathLib}.







End with_math.




End EstimationClaims.

(** * Further properties of the scheduler *)

Module SchedulerExtras.
Import Scheduler SchedulerFacts SchedulerClaims.

(** Capacity invariant.  With capacities and multipliers that are not
    negative, no committed amount of the returned [resourceUtilization]
    exceeds the capacity that [scheduleTask] compares with,
    [maxCapacity × (availability[p mod length] || 1)]; where the multiplier of
    the period is not 0 this is [maxCapacity × availability[p mod length]]. *)
Theorem utilization_within_checked_capacity
    tasks resources projectDeadline res rid r utilization (i : nat) u :
  (forall x, x ∈ resources -> resource_nonneg x) ->
  optimizeResourceAllocation tasks resources projectDeadline = Ok res ->
  find_resource resources rid = Some r ->
  resourceUtilization res !! rid = Some utilization ->
  utilization !! i = Some u ->
  (u ≤ maxCapacity r * js_or_undef (availability_at r (Z.of_nat i)) 1)%Qc /\
  (forall m, availability_at r (Z.of_nat i) = Some m -> m <> 0%Qc ->
     (u ≤ maxCapacity r * m)%Qc).
Proof.
  intros Hres Hrun Hfind Hru Hu.
  pose proof (optimize_within_capacity tasks resources projectDeadline res Hres Hrun
                rid r i u Hfind) as Hbound.
  unfold cell in Hbound. rewrite Hru in Hbound. specialize (Hbound Hu).
  split; [exact Hbound|].
  intros m Hm Hne. unfold availableCapacity in Hbound. rewrite Hm in Hbound.
  cbn [js_or_undef] in Hbound. unfold js_or in Hbound.
  by rewrite decide_False in Hbound.
Qed.

Lemma qa_team_nonneg : forall x, x ∈ [qa_team] -> resource_nonneg x.
Proof.
  intros x Hx. apply list_elem_of_singleton in Hx. subst x. split; [done|].
  repeat constructor; done.
Qed.

Lemma utilization_within_checked_capacity_witness :
  exists res utilization u,
    optimizeResourceAllocation [weekday_task; weekend_task] [qa_team] None = Ok res /\
    resourceUtilization res !! "qa1" = Some utilization /\
    utilization !! 2%nat = Some u /\
    (u ≤ maxCapacity qa_team * js_or_undef (availability_at qa_team 2) 1)%Qc /\
    (forall m, availability_at qa_team 2 = Some m -> m <> 0%Qc ->
       (u ≤ maxCapacity qa_team * m)%Qc).
Proof.
  assert (H : exists res utilization u,
    optimizeResourceAllocation [weekday_task; weekend_task] [qa_team] None = Ok res /\
    resourceUtilization res !! "qa1" = Some utilization /\
    utilization !! 2%nat = Some u).
  { eexists _, _, _. split; [vm_compute; reflexivity|].
    split; vm_compute; reflexivity. }
  destruct H as (res & utilization & u & Hrun & Hru & Hu).
  exists res, utilization, u. split; [exact Hrun|]. split; [exact Hru|].
  split; [exact Hu|].
  exact (utilization_within_checked_capacity
           [weekday_task; weekend_task] [qa_team] None res "qa1" qa_team utilization
           2%nat u qa_team_nonneg Hrun eq_refl Hru Hu).
Defined.

(** ** The topological sort neither drops nor repeats a task *)

(** The ids of the result are distinct and all marked as visited. *)
Definition sort_distinct (st : sort_state) : Prop :=
  NoDup (map t_id (result st)) /\
  (forall x, x ∈ result st -> t_id x ∈ visited st).

(** A call of [visit] marks no id that is being visited. *)
Definition sort_fresh (st st' : sort_state) : Prop :=
  visiting st' = visiting st /\
  (forall x, x ∈ visiting st -> x ∈ visited st' -> x ∈ visited st) /\
  (sort_distinct st -> sort_distinct st').

Lemma sort_fresh_refl st : sort_fresh st st.
Proof. split; [done|]. split; done. Qed.

Lemma sort_fresh_trans s1 s2 s3 : sort_fresh s1 s2 -> sort_fresh s2 s3 -> sort_fresh s1 s3.
Proof.
  intros (Hv & Hf & Hd) (Hv' & Hf' & Hd').
  split; [congruence|]. split; [|auto].
  intros x Hx Hx3. apply Hf; [done|]. apply Hf'; [|done]. by rewrite Hv.
Qed.

Lemma visit_fresh tasks fuel : forall st id st',
  visit fuel tasks st id = Ok st' -> sort_fresh st st'.
Proof.
  induction fuel as [|fuel IH]; intros st id st'; simpl; [discriminate|].
  case_decide as Hvisiting; [intros [= <-]; apply sort_fresh_refl|].
  case_decide as Hvisited; [intros [= <-]; apply sort_fresh_refl|].
  destruct (find_task tasks id) as [task|] eqn:Hfind.
  - intros (st2 & Hfold & [= <-])%res_bind_Ok.
    apply find_task_Some in Hfind as [Hin Htid].
    apply (foldlM_rel _ sort_fresh) in Hfold;
      [|apply sort_fresh_refl|apply sort_fresh_trans|by intros; eapply IH].
    destruct Hfold as (Hv & Hf & Hd). simpl in *.
    assert (Hnew : id ∉ visited st2).
    { intros Hin2. apply Hvisited. apply Hf; [set_solver | done]. }
    split; [|split]; simpl.
    + rewrite Hv. set_solver.
    + intros x Hx [Hxid%elem_of_singleton|Hx2]%elem_of_union; [by subst|].
      apply Hf; [set_solver | done].
    + intros Hdist. destruct (Hd Hdist) as [Hnd Hids]. split; simpl.
      * rewrite map_app. simpl. apply NoDup_app. split; [done|]. split.
        -- intros y Hy [->|[]%elem_of_nil]%elem_of_cons. apply Hnew.
           apply list_elem_of_fmap in Hy as (t' & Ht' & Hin').
           rewrite <- Htid, Ht'. by apply Hids.
        -- apply NoDup_singleton.
      * intros x [Hx|Hx%list_elem_of_singleton]%elem_of_app.
        -- apply elem_of_union. right. by apply Hids.
        -- subst x. rewrite Htid. set_solver.
  - intros [= <-]. split; [|split]; simpl; [set_solver|done|done].
Qed.

Lemma topologicalSort_NoDup tasks sorted :
  topologicalSort tasks = Ok sorted -> NoDup (map t_id sorted).
Proof.
  unfold topologicalSort. intros (st & Hfold & [= <-])%res_bind_Ok.
  apply (foldlM_rel _ sort_fresh) in Hfold;
    [|apply sort_fresh_refl|apply sort_fresh_trans|by intros; eapply visit_fresh].
  destruct Hfold as (_ & _ & Hd). apply Hd. split; simpl.
  - apply NoDup_nil_2.
  - intros x Hx. by apply elem_of_nil in Hx.
Qed.

Lemma sorted_Permutation tasks sorted :
  NoDup (map t_id tasks) -> topologicalSort tasks = Ok sorted -> sorted ≡ₚ tasks.
Proof.
  intros Hnd Hsorted. apply NoDup_Permutation.
  - eapply NoDup_fmap_1, topologicalSort_NoDup. exact Hsorted.
  - by eapply NoDup_fmap_1.
  - intros x. split.
    + by apply topologicalSort_sound.
    + by apply topologicalSort_complete.
Qed.

(** Permutation.  When the task ids are unique, [topologicalSort] returns a
    permutation of the task list, whatever the prerequisites are (cycles and
    unknown ids included): no task is dropped or repeated. *)
Theorem topologicalSort_permutation tasks :
  NoDup (map t_id tasks) ->
  exists sorted, topologicalSort tasks = Ok sorted /\ sorted ≡ₚ tasks.
Proof.
  intros Hnd. destruct (topologicalSort_returns tasks) as [sorted Hsorted].
  exists sorted. split; [done|]. by apply sorted_Permutation.
Qed.

Lemma topologicalSort_permutation_witness :
  exists sorted, topologicalSort cyclic_tasks = Ok sorted /\ sorted ≡ₚ cyclic_tasks.
Proof.
  apply (topologicalSort_permutation cyclic_tasks).
  simpl. repeat (apply NoDup_cons; split; [set_solver|]). apply NoDup_nil_2.
Defined.

(** ** On an acyclic graph prerequisites come first *)

(** Every prerequisite of a task of [l] that is the id of a task of the
    input stands before it in [l]. *)
Definition prerequisites_first (tasks l : list Task) : Prop :=
  forall l1 t l2, l = l1 ++ t :: l2 ->
  forall p, p ∈ prerequisites t -> is_Some (find_task tasks p) -> p ∈ map t_id l1.

(** [rank] decreases along every prerequisite edge between tasks of the
    list: the graph has no cycle. *)
Definition ranked (tasks : list Task) (rank : string -> nat) : Prop :=
  forall id t p, find_task tasks id = Some t -> p ∈ prerequisites t ->
                 is_Some (find_task tasks p) -> (rank p < rank id)%nat.

Lemma prerequisites_first_snoc tasks l task :
  prerequisites_first tasks l ->
  (forall p, p ∈ prerequisites task -> is_Some (find_task tasks p) -> p ∈ map t_id l) ->
  prerequisites_first tasks (l ++ [task]).
Proof.
  intros Hl Htask l1 t l2 Heq p Hp Hfind.
  destruct l2 as [|x l2 _] using rev_ind.
  - apply app_inj_tail in Heq as [-> ->]. by apply Htask.
  - rewrite app_comm_cons, app_assoc in Heq. apply app_inj_tail in Heq as [-> ->].
    by eapply Hl.
Qed.

Section acyclic.
Variables (tasks : list Task) (rank : string -> nat).
Hypothesis acyclic : ranked tasks rank.

Definition order_inv (st : sort_state) : Prop :=
  sort_sound tasks st /\ prerequisites_first tasks (result st).

(** Everything being visited ranks above [id]. *)
Definition below_visiting (st : sort_state) (id : string) : Prop :=
  is_Some (find_task tasks id) -> forall x, x ∈ visiting st -> (rank id < rank x)%nat.

Lemma visit_ordered fuel : forall st id st',
  visit fuel tasks st id = Ok st' ->
  below_visiting st id -> order_inv st -> order_inv st'.
Proof.
  induction fuel as [|fuel IH]; intros st id st' Hvisit Hbelow Hinv;
    [discriminate|].
  pose proof (visit_extends _ _ _ _ _ Hvisit) as (_ & _ & _ & Hsound).
  simpl in Hvisit.
  case_decide as Hvisiting; [by injection Hvisit as <-|].
  case_decide as Hvisited; [by injection Hvisit as <-|].
  destruct (find_task tasks id) as [task|] eqn:Hfind.
  - apply res_bind_Ok in Hvisit as (st2 & Hfold & [= <-]).
    split; [apply Hsound, Hinv|]. simpl.
    set (st1 := mkSortState (visited st) ({[id]} ∪ visiting st) (result st)) in *.
    assert (Hgen : forall l s s',
      foldlM (visit fuel tasks) l s = Ok s' ->
      visiting s = visiting st1 ->
      (forall p, p ∈ l -> p ∈ prerequisites task) ->
      order_inv s ->
      order_inv s' /\
      (forall p, p ∈ l -> is_Some (find_task tasks p) -> p ∈ visited s')).
    { induction l as [|a l IHl]; intros s s'; simpl.
      - intros [= <-] _ _ Hs. split; [done|]. intros p Hp. by apply elem_of_nil in Hp.
      - intros (s1 & H1 & H2)%res_bind_Ok Hvis Hsub Hs.
        assert (Ha : below_visiting s a).
        { intros Hfa x Hx. rewrite Hvis in Hx. simpl in Hx.
          assert (Hpa : (rank a < rank id)%nat).
          { eapply acyclic; [exact Hfind| |done]. apply Hsub. left. }
          apply elem_of_union in Hx as [->%elem_of_singleton|Hx]; [done|].
          specialize (Hbelow ltac:(eauto) x Hx). lia. }
        pose proof (visit_extends _ _ _ _ _ H1) as (Hv1 & _).
        destruct (IHl s1 s' H2) as [Hinv' Hmarked].
        + rewrite Hv1, Hvis. reflexivity.
        + intros p Hp. apply Hsub. by right.
        + by eapply IH.
        + split; [done|]. intros p [->|Hp]%elem_of_cons Hfp; [|auto].
          apply (foldlM_rel _ (sort_extends tasks)) in H2;
            [|apply sort_extends_refl|apply sort_extends_trans
             |by intros; eapply visit_extends].
          destruct H2 as (_ & Hmono & _). apply Hmono.
          eapply visit_marks; [done| |done].
          intros Hin. specialize (Ha Hfp a Hin). lia. }
    destruct (Hgen (prerequisites task) st1 st2 Hfold) as [[Hsound2 Hfirst2] Hmarked];
      [done|done|exact Hinv|].
    apply prerequisites_first_snoc; [done|].
    intros p Hp Hfp. destruct Hsound2 as [_ Hvis2].
    destruct (Hvis2 p (Hmarked p Hp Hfp)) as (tp & Htp & Hin).
    apply list_elem_of_fmap. exists tp. split; [|done].
    by apply find_task_Some in Htp as [_ ->].
  - injection Hvisit as <-. split; [apply Hsound, Hinv|]. apply Hinv.
Qed.

End acyclic.

(** Order.  When the prerequisites between tasks of the list have no cycle
    (some rank decreases along each of them), [topologicalSort] places every
    task after all of its prerequisites that are tasks of the list. *)
Theorem topologicalSort_prerequisites_first tasks rank sorted :
  ranked tasks rank ->
  topologicalSort tasks = Ok sorted ->
  prerequisites_first tasks sorted.
Proof.
  intros Hrank. unfold topologicalSort. intros (st & Hfold & [= <-])%res_bind_Ok.
  assert (Hgen : forall l s s',
    foldlM (visit (sort_fuel tasks) tasks) l s = Ok s' ->
    visiting s = ∅ -> order_inv tasks s -> order_inv tasks s').
  { generalize (sort_fuel tasks) as fuel. intros fuel.
    induction l as [|a l IHl]; intros s s'; simpl.
    - by intros [= <-].
    - intros (s1 & H1 & H2)%res_bind_Ok Hempty Hs.
      pose proof (visit_extends _ _ _ _ _ H1) as (Hv1 & _).
      apply (IHl s1 s' H2); [congruence|].
      eapply visit_ordered; [done..| |done].
      intros _ x Hx. rewrite Hempty in Hx. set_solver. }
  apply (Hgen _ _ _ Hfold); [done|]. split.
  - split; simpl; intros ? H; [by apply elem_of_nil in H | set_solver].
  - intros l1 t l2 Heq. by destruct l1.
Qed.

Definition chain_tasks : list Task :=
  [mkTask "deploy" "Deploy" 1 [] ["test"; "docs"] 1%Qc;
   mkTask "test" "Test" 2 [] ["build"] 1%Qc;
   mkTask "build" "Build" 3 [] [] 1%Qc].

Definition chain_rank (id : string) : nat :=
  if decide (id = "deploy") then 2%nat
  else if decide (id = "test") then 1%nat else 0%nat.

Lemma chain_ranked : ranked chain_tasks chain_rank.
Proof.
  intros id t p Hfind Hp Hsome. unfold find_task, chain_tasks in *. simpl in Hfind.
  repeat case_bool_decide; simplify_eq; simpl in Hp.
  - apply elem_of_cons in Hp as [->|Hp]; [vm_compute; lia|].
    apply list_elem_of_singleton in Hp. subst p. destruct Hsome as [? Hs]. discriminate.
  - apply list_elem_of_singleton in Hp. subst p. vm_compute. lia.
  - by apply elem_of_nil in Hp.
Qed.

Lemma topologicalSort_prerequisites_first_witness :
  exists sorted,
    topologicalSort chain_tasks = Ok sorted /\
    map t_id sorted = ["build"; "test"; "deploy"] /\
    prerequisites_first chain_tasks sorted.
Proof.
  assert (H : exists sorted, topologicalSort chain_tasks = Ok sorted /\
                             map t_id sorted = ["build"; "test"; "deploy"]).
  { eexists. split; vm_compute; reflexivity. }
  destruct H as (sorted & Hsorted & Hids). exists sorted.
  split; [exact Hsorted|]. split; [exact Hids|].
  exact (topologicalSort_prerequisites_first chain_tasks chain_rank sorted
           chain_ranked Hsorted).
Defined.

(** ** What one turn of the scheduling loop does *)

Lemma schedule_step_shape resources maxPeriods st task st' :
  schedule_step resources maxPeriods st task = Ok st' ->
  (l_schedule st' = l_schedule st /\
   l_utilization st' = l_utilization st /\
   l_conflicts st' = l_conflicts st ++ [cannot_schedule task]) \/
  (exists start assigned,
     l_schedule st'
     = l_schedule st ++ [mkEntry (t_id task) start (start + duration task) assigned] /\
     l_utilization st'
     = commit_task assigned start (duration task) (l_utilization st) /\
     l_conflicts st' = l_conflicts st /\
     getEarliestStartTime task (l_schedule st) <= start <= maxPeriods - duration task /\
     check_requirements resources (l_utilization st) start (duration task)
       (requiredResources task) ∅ = Ok (Some assigned)).
Proof.
  unfold schedule_step. intros (p & Hp & Hst')%res_bind_Ok.
  case_decide as Hstart.
  - injection Hst' as <-. left. done.
  - injection Hst' as <-. right. unfold scheduleTask in Hp.
    apply try_starts_spec in Hp as [[-> _]|(s & assigned & Hs & Hcheck & ->)]; [done|].
    exists s, assigned. simpl. rewrite app_nil_r.
    split; [done|]. split; [done|]. split; [done|]. split; [|done].
    apply elem_of_seqZ in Hs. clear Hstart Hcheck.
    generalize dependent (getEarliestStartTime task (l_schedule st)).
    intros z Hz. lia.
Qed.

Lemma getEarliestStartTime_nonneg task sched : 0 <= getEarliestStartTime task sched.
Proof.
  unfold getEarliestStartTime. destruct (prerequisites task) as [|p ps]; [done|].
  generalize (p :: ps) as l. intros l.
  apply (foldl_invariant _ (fun z => 0 <= z)); [|done].
  intros z q _ Hz. destruct (List.find _ sched); lia.
Qed.

(** The earliest start is at or after the end of every prerequisite that has
    an entry (the first entry with that id is the one read). *)
Lemma getEarliestStartTime_ge task sched p e :
  p ∈ prerequisites task ->
  List.find (fun s => bool_decide (taskId s = p)) sched = Some e ->
  endPeriod e <= getEarliestStartTime task sched.
Proof.
  unfold getEarliestStartTime. intros Hp He.
  destruct (prerequisites task) as [|q qs] eqn:Hq; [by apply elem_of_nil in Hp|].
  revert Hp. generalize (q :: qs) as l. intros l.
  set (step := fun (earliestStart : Z) (prereqId : string) =>
         match List.find (fun s => bool_decide (taskId s = prereqId)) sched with
         | Some prereqSchedule => Z.max earliestStart (endPeriod prereqSchedule)
         | None => earliestStart
         end).
  assert (Hmono : forall l a, a <= foldl step a l).
  { induction l0 as [|x l0 IH]; intros a; simpl; [lia|].
    etrans; [|apply IH]. unfold step.
    destruct (List.find (fun s => bool_decide (taskId s = x)) sched); lia. }
  generalize 0 as a. induction l as [|x l IH]; intros a Hin; simpl.
  - by apply elem_of_nil in Hin.
  - apply elem_of_cons in Hin as [<-|Hin]; [|by apply IH].
    etrans; [|apply Hmono]. unfold step. rewrite He. lia.
Qed.

(** ** Every task is placed or reported *)

Lemma loop_partition resources maxPeriods l : forall st st',
  foldlM (schedule_step resources maxPeriods) l st = Ok st' ->
  (length (l_schedule st') + length (l_conflicts st')
   = length (l_schedule st) + length (l_conflicts st) + length l)%nat /\
  map taskId (l_schedule st') ⊆ map taskId (l_schedule st) ++ map t_id l /\
  (forall e, e ∈ l_schedule st -> e ∈ l_schedule st') /\
  (forall m, m ∈ l_conflicts st -> m ∈ l_conflicts st') /\
  (forall t, t ∈ l ->
     t_id t ∈ map taskId (l_schedule st') \/ cannot_schedule t ∈ l_conflicts st').
Proof.
  induction l as [|x l IH]; intros st st'; simpl.
  - intros [= <-]. split; [lia|]. split; [by rewrite app_nil_r|].
    split; [done|]. split; [done|]. intros t Ht. by apply elem_of_nil in Ht.
  - intros (st1 & H1 & H2)%res_bind_Ok.
    destruct (IH _ _ H2) as (Hlen & Hids & Hsched & Hconf & Hall).
    apply schedule_step_shape in H1
      as [(Hs & _ & Hc)|(start & assigned & Hs & _ & Hc & _)];
      rewrite Hs, Hc in *.
    + split; [rewrite Hlen, length_app; simpl; lia|].
      split; [set_solver|]. split; [done|].
      split; [intros m Hm; apply Hconf, elem_of_app; by left|].
      intros t [->|Ht]%elem_of_cons; [|auto].
      right. apply Hconf, elem_of_app. right. by apply list_elem_of_singleton.
    + split; [rewrite Hlen, length_app; simpl; lia|].
      split.
      { rewrite map_app in Hids. simpl in Hids. intros y Hy.
        specialize (Hids y Hy). set_solver. }
      split; [intros e He; apply Hsched, elem_of_app; by left|].
      split; [done|].
      intros t [->|Ht]%elem_of_cons; [|auto].
      left. apply list_elem_of_fmap.
      eexists. split; [|apply Hsched, elem_of_app; right; by apply list_elem_of_singleton].
      done.
Qed.

(** Partition.  When the task ids are unique and the run returns, every task
    has an entry in the schedule or its conflict message, the scheduled ids are
    ids of tasks, and entries and conflicts together number the tasks. *)
Theorem every_task_placed_or_reported tasks resources projectDeadline res :
  NoDup (map t_id tasks) ->
  optimizeResourceAllocation tasks resources projectDeadline = Ok res ->
  (length (schedule res) + length (conflicts res) = length tasks)%nat /\
  (forall t, t ∈ tasks ->
     t_id t ∈ map taskId (schedule res) \/ cannot_schedule t ∈ conflicts res) /\
  (forall e, e ∈ schedule res -> taskId e ∈ map t_id tasks).
Proof.
  intros Hnd. unfold optimizeResourceAllocation.
  intros (sorted & Hsorted & H1)%res_bind_Ok.
  apply res_bind_Ok in H1 as (ru0 & _ & H2).
  apply res_bind_Ok in H2 as (st & Hloop & [= <-]). simpl.
  pose proof (sorted_Permutation tasks sorted Hnd Hsorted) as Hperm.
  destruct (loop_partition _ _ _ _ _ Hloop) as (Hlen & Hids & _ & _ & Hall).
  simpl in *. split; [by rewrite Hlen, Hperm|]. split.
  - intros t Ht. apply Hall. by rewrite Hperm.
  - intros e He. assert (Hin : taskId e ∈ map t_id sorted).
    { apply Hids. apply list_elem_of_fmap. eauto. }
    by rewrite Hperm in Hin.
Qed.

Lemma every_task_placed_or_reported_witness :
  exists res,
    optimizeResourceAllocation [review_task; weekday_task]
      [no_capacity_resource; qa_team] None = Ok res /\
    (length (schedule res) + length (conflicts res) = 2)%nat /\
    (forall t, t ∈ [review_task; weekday_task] ->
       t_id t ∈ map taskId (schedule res) \/ cannot_schedule t ∈ conflicts res) /\
    (forall e, e ∈ schedule res -> taskId e ∈ ["T"; "task1"]).
Proof.
  destruct (optimize_returns [review_task; weekday_task]
              [no_capacity_resource; qa_team] None) as [res Hres]; [simpl; lia|].
  exists res. split; [exact Hres|].
  apply (every_task_placed_or_reported [review_task; weekday_task]
           [no_capacity_resource; qa_team] None res); [|exact Hres].
  simpl. repeat (apply NoDup_cons; split; [set_solver|]). apply NoDup_nil_2.
Defined.

(** ** Entries lie within the horizon and respect the prerequisites *)

(** The entry [e], placed when [before] was the schedule, is the placement of
    a task of [tasks]. *)
Definition entry_placed (maxPeriods : Z) (tasks : list Task)
    (before : list ScheduleEntry) (e : ScheduleEntry) : Prop :=
  exists t, t ∈ tasks /\ t_id t = taskId e /\
    endPeriod e = startPeriod e + duration t /\
    getEarliestStartTime t before <= startPeriod e /\
    endPeriod e <= maxPeriods.

Definition schedule_placed (maxPeriods : Z) (tasks : list Task)
    (sched : list ScheduleEntry) : Prop :=
  forall before e after, sched = before ++ e :: after ->
                         entry_placed maxPeriods tasks before e.

Lemma schedule_placed_snoc maxPeriods tasks sched e :
  schedule_placed maxPeriods tasks sched ->
  entry_placed maxPeriods tasks sched e ->
  schedule_placed maxPeriods tasks (sched ++ [e]).
Proof.
  intros Hsched He before e' after Heq.
  destruct after as [|x after _] using rev_ind.
  - apply app_inj_tail in Heq as [-> ->]. done.
  - rewrite app_comm_cons, app_assoc in Heq. apply app_inj_tail in Heq as [-> ->].
    by eapply Hsched.
Qed.

Lemma loop_placed resources maxPeriods tasks l : forall st st',
  (forall x, x ∈ l -> x ∈ tasks) ->
  foldlM (schedule_step resources maxPeriods) l st = Ok st' ->
  schedule_placed maxPeriods tasks (l_schedule st) ->
  schedule_placed maxPeriods tasks (l_schedule st').
Proof.
  induction l as [|x l IH]; intros st st' Hl; simpl.
  - by intros [= <-].
  - intros (st1 & H1 & H2)%res_bind_Ok Hst.
    apply (IH st1 st' (fun y Hy => Hl y (list_elem_of_further _ _ _ Hy)) H2).
    apply schedule_step_shape in H1
      as [(Hs & _ & _)|(start & assigned & Hs & _ & _ & Hbounds & _)]; rewrite Hs.
    + done.
    + apply schedule_placed_snoc; [done|]. exists x. simpl.
      split; [apply Hl; left|]. split; [done|]. split; [done|]. lia.
Qed.

Lemma optimize_placed tasks resources projectDeadline res :
  optimizeResourceAllocation tasks resources projectDeadline = Ok res ->
  schedule_placed (horizon projectDeadline) tasks (schedule res).
Proof.
  unfold optimizeResourceAllocation. intros (sorted & Hsorted & H1)%res_bind_Ok.
  apply res_bind_Ok in H1 as (ru0 & _ & H2).
  apply res_bind_Ok in H2 as (st & Hloop & [= <-]). simpl.
  eapply loop_placed; [|exact Hloop|].
  - by apply topologicalSort_sound.
  - intros before e after Heq. by destruct before.
Qed.

Lemma totals_duration resources sched :
  (forall e, e ∈ sched -> endPeriod e <= (totals resources sched).2) /\
  (forall bound, 0 <= bound -> (forall e, e ∈ sched -> endPeriod e <= bound) ->
                 (totals resources sched).2 <= bound) /\
  0 <= (totals resources sched).2.
Proof.
  unfold totals.
  set (step := fun (acc : Qc * Z) (item : ScheduleEntry) =>
                 (entry_cost resources item acc.1, Z.max acc.2 (endPeriod item))).
  assert (Hgen : forall l acc,
    acc.2 <= (foldl step acc l).2 /\
    (forall e, e ∈ l -> endPeriod e <= (foldl step acc l).2) /\
    (forall bound, acc.2 <= bound -> (forall e, e ∈ l -> endPeriod e <= bound) ->
                   (foldl step acc l).2 <= bound)).
  { induction l as [|x l IH]; intros acc; simpl.
    - split; [lia|]. split; [|auto]. intros e He. by apply elem_of_nil in He.
    - destruct (IH (step acc x)) as (Hmono & Hall & Hbound). simpl in Hmono.
      split; [lia|]. split.
      + intros e [->|He]%elem_of_cons; [lia | auto].
      + intros bound Hacc Hle. apply Hbound.
        * simpl. specialize (Hle x ltac:(left)). lia.
        * intros e He. apply Hle. by right. }
  destruct (Hgen sched (0%Qc, 0)) as (Hmono & Hall & Hbound).
  split; [done|]. split; [|done]. intros bound Hb. by apply Hbound.
Qed.

(** Horizon.  Every entry of the returned schedule is the placement of a
    task of the input: it starts at period 0 or later, ends after the
    duration of that task, and ends within the horizon.  [projectDuration] is
    the largest end period, at most the horizon. *)
Theorem schedule_within_horizon tasks resources projectDeadline res :
  optimizeResourceAllocation tasks resources projectDeadline = Ok res ->
  (forall e, e ∈ schedule res ->
     0 <= startPeriod e /\ endPeriod e <= horizon projectDeadline /\
     exists t, t ∈ tasks /\ t_id t = taskId e /\
               endPeriod e = startPeriod e + duration t) /\
  (forall e, e ∈ schedule res -> endPeriod e <= projectDuration res) /\
  0 <= projectDuration res <= Z.max 0 (horizon projectDeadline).
Proof.
  intros Hrun. pose proof (optimize_placed _ _ _ _ Hrun) as Hplaced.
  assert (Hentries : forall e, e ∈ schedule res ->
     0 <= startPeriod e /\ endPeriod e <= horizon projectDeadline /\
     exists t, t ∈ tasks /\ t_id t = taskId e /\
               endPeriod e = startPeriod e + duration t).
  { intros e (before & after & Heq)%list_elem_of_split.
    destruct (Hplaced _ _ _ Heq) as (t & Ht & Hid & Hend & Hstart & Hmax).
    pose proof (getEarliestStartTime_nonneg t before).
    split; [lia|]. split; [done|]. eauto. }
  split; [done|].
  unfold optimizeResourceAllocation in Hrun.
  apply res_bind_Ok in Hrun as (sorted & _ & H1).
  apply res_bind_Ok in H1 as (ru0 & _ & H2).
  apply res_bind_Ok in H2 as (st & _ & [= <-]). simpl in *.
  destruct (totals_duration resources (l_schedule st)) as (Hall & Hbound & Hpos).
  split; [done|]. split; [done|]. apply Hbound; [lia|].
  intros e He. destruct (Hentries e He) as (_ & Hle & _). lia.
Qed.

(** Precedence.  Every entry of the returned schedule starts at or after
    the end of each prerequisite of its task that was already scheduled when
    the task was placed. *)
Theorem scheduled_after_prerequisites
    tasks resources projectDeadline res before e after :
  optimizeResourceAllocation tasks resources projectDeadline = Ok res ->
  schedule res = before ++ e :: after ->
  exists t, t ∈ tasks /\ t_id t = taskId e /\
    forall p e', p ∈ prerequisites t ->
      List.find (fun s => bool_decide (taskId s = p)) before = Some e' ->
      endPeriod e' <= startPeriod e.
Proof.
  intros Hrun Heq.
  destruct (optimize_placed _ _ _ _ Hrun _ _ _ Heq) as (t & Ht & Hid & _ & Hstart & _).
  exists t. split; [done|]. split; [done|].
  intros p e' Hp He'. pose proof (getEarliestStartTime_ge t before p e' Hp He'). lia.
Qed.

Lemma two_task_run :
  exists res,
    optimizeResourceAllocation [task_B; task_A] [single_resource (Qc_of_Z 75)] None
    = Ok res /\
    schedule res = [entry_A] ++ entry_B :: [].
Proof. eexists. split; vm_compute; reflexivity. Qed.

Lemma schedule_within_horizon_witness :
  exists res,
    optimizeResourceAllocation [task_B; task_A] [single_resource (Qc_of_Z 75)] None
    = Ok res /\
    (forall e, e ∈ schedule res ->
       0 <= startPeriod e /\ endPeriod e <= 100 /\
       exists t, t ∈ [task_B; task_A] /\ t_id t = taskId e /\
                 endPeriod e = startPeriod e + duration t) /\
    (forall e, e ∈ schedule res -> endPeriod e <= projectDuration res) /\
    0 <= projectDuration res <= 100.
Proof.
  destruct two_task_run as (res & Hrun & _). exists res. split; [exact Hrun|].
  exact (schedule_within_horizon [task_B; task_A] [single_resource (Qc_of_Z 75)]
           None res Hrun).
Defined.

Lemma scheduled_after_prerequisites_witness :
  exists t, t ∈ [task_B; task_A] /\ t_id t = "B" /\
    forall p e', p ∈ prerequisites t ->
      List.find (fun s => bool_decide (taskId s = p)) [entry_A] = Some e' ->
      endPeriod e' <= 2.
Proof.
  destruct two_task_run as (res & Hrun & Hsched).
  exact (scheduled_after_prerequisites [task_B; task_A] [single_resource (Qc_of_Z 75)]
           None res [entry_A] entry_B [] Hrun Hsched).
Defined.

(** ** Array creation: the only source of an exception *)

Definition valid_horizon (projectDeadline : option Z) : Prop :=
  0 <= horizon projectDeadline < 2 ^ 32.

(** Range error.  With a deadline that is negative or not below 2^32 the
    run throws a [RangeError] as soon as there is a resource: the utilization
    array of the first resource cannot be created. *)
Theorem invalid_horizon_throws tasks resource resources projectDeadline :
  ~ valid_horizon projectDeadline ->
  optimizeResourceAllocation tasks (resource :: resources) projectDeadline
  = Throw RangeError.
Proof.
  intros Hinvalid. unfold optimizeResourceAllocation.
  destruct (topologicalSort_returns tasks) as [sorted ->]. cbn [res_bind].
  unfold init_utilization. cbn [foldlM]. unfold new_array_zero.
  rewrite decide_False by done. reflexivity.
Qed.

Lemma invalid_horizon_throws_witness :
  optimizeResourceAllocation [review_task] [qa_team] (Some (-5)) = Throw RangeError.
Proof.
  apply (invalid_horizon_throws [review_task] qa_team [] (Some (-5))).
  unfold valid_horizon. simpl. lia.
Defined.

(** ** Tasks that can never be placed *)

Section unplaced.
Variables (tasks : list Task) (resources : list Resource) (maxPeriods : Z) (t : Task).
Hypothesis unique_ids : NoDup (map t_id tasks).
Hypothesis t_in : t ∈ tasks.
Hypothesis never_placed :
  forall ru sched p,
    scheduleTask t resources ru (getEarliestStartTime t sched) maxPeriods = Ok p ->
    p_startPeriod p = -1.

Definition unplaced_inv (st : loop_state) : Prop :=
  arrays_ready resources (l_utilization st) /\
  (forall e, e ∈ l_schedule st -> taskId e <> t_id t).

Lemma step_unplaced st task :
  task ∈ tasks -> unplaced_inv st ->
  exists st', schedule_step resources maxPeriods st task = Ok st' /\
    unplaced_inv st' /\
    (forall m, m ∈ l_conflicts st -> m ∈ l_conflicts st') /\
    (task = t -> cannot_schedule t ∈ l_conflicts st').
Proof.
  intros Hin [Hready Hsched]. unfold schedule_step.
  destruct (scheduleTask_returns task resources (l_utilization st)
              (getEarliestStartTime task (l_schedule st)) maxPeriods Hready) as [p Hp].
  rewrite Hp. cbn [res_bind]. case_decide as Hstart.
  - eexists; split; [done|]. split; [done|]. simpl. split.
    + intros m Hm. apply elem_of_app. by left.
    + intros ->. apply elem_of_app. right. by apply list_elem_of_singleton.
  - assert (Hne : task <> t) by (intros ->; by apply never_placed in Hp).
    eexists; split; [done|]. simpl. split; [|split; [|done]].
    + split; [by apply commit_task_ready|].
      intros e [He|He%list_elem_of_singleton]%elem_of_app; [auto|].
      subst e. simpl. intros Hid. apply Hne.
      by apply (same_id_same_task tasks t unique_ids t_in).
    + intros m Hm. apply elem_of_app. by left.
Qed.

Lemma loop_unplaced l :
  (forall x, x ∈ l -> x ∈ tasks) ->
  forall st, unplaced_inv st ->
  exists st', foldlM (schedule_step resources maxPeriods) l st = Ok st' /\
    unplaced_inv st' /\
    (forall m, m ∈ l_conflicts st -> m ∈ l_conflicts st') /\
    (t ∈ l -> cannot_schedule t ∈ l_conflicts st').
Proof.
  induction l as [|x l IH]; intros Hl st Hinv; simpl.
  - exists st. split; [done|]. split; [done|]. split; [done|].
    intros H. by apply elem_of_nil in H.
  - destruct (step_unplaced st x) as (st1 & -> & Hinv1 & Hmono1 & Hx); [|done|].
    { apply Hl. left. }
    simpl. destruct (IH (fun y Hy => Hl y (list_elem_of_further _ _ _ Hy)) st1 Hinv1)
      as (st' & -> & Hinv' & Hmono' & Ht).
    exists st'. split; [done|]. split; [done|]. split; [auto|].
    intros [->|Hin]%elem_of_cons; auto.
Qed.

End unplaced.

Lemma optimize_unplaced tasks resources projectDeadline t :
  valid_horizon projectDeadline ->
  NoDup (map t_id tasks) -> t ∈ tasks ->
  (forall ru sched p,
     scheduleTask t resources ru (getEarliestStartTime t sched)
       (horizon projectDeadline) = Ok p ->
     p_startPeriod p = -1) ->
  exists res,
    optimizeResourceAllocation tasks resources projectDeadline = Ok res /\
    (forall e, e ∈ schedule res -> taskId e <> t_id t) /\
    cannot_schedule t ∈ conflicts res.
Proof.
  intros Hlen Hnd Ht Hnever. unfold optimizeResourceAllocation.
  destruct (topologicalSort_returns tasks) as [sorted Hsorted]. rewrite Hsorted.
  cbn [res_bind].
  destruct (init_utilization_returns resources _ Hlen) as (ru & -> & Hready & _).
  cbn [res_bind].
  destruct (loop_unplaced tasks resources (horizon projectDeadline) t Hnd Ht Hnever
              sorted (topologicalSort_sound tasks sorted Hsorted) (mkLoop [] ru []))
    as (st & -> & (_ & Hsched) & _ & Hconflict).
  { split; [done|]. intros e He. by apply elem_of_nil in He. }
  cbn [res_bind]. eexists. split; [done|]. simpl. split; [done|].
  apply Hconflict. by eapply topologicalSort_complete.
Qed.

Lemma check_unknown_resource resources ru start dur req reqs :
  req ∈ reqs -> find_resource resources (resourceId req) = None ->
  forall assigned assigned',
    check_requirements resources ru start dur reqs assigned <> Ok (Some assigned').
Proof.
  intros Hin Hnone. induction reqs as [|x reqs IH]; intros assigned assigned'.
  - by apply elem_of_nil in Hin.
  - simpl. apply elem_of_cons in Hin as [<-|Hin].
    + by rewrite Hnone.
    + destruct (find_resource resources (resourceId x)); [|done].
      destruct (requirement_available _ _ _ _ _) as [[|]| |]; simpl; try done.
      by apply IH.
Qed.

(** Unknown resource.  A task that requires a resource id that no resource
    has is left out of the schedule and gets its conflict entry, whatever its
    duration; the run returns (ids unique, horizon valid). *)
Theorem unknown_resource_is_reported tasks resources projectDeadline t req :
  valid_horizon projectDeadline ->
  NoDup (map t_id tasks) -> t ∈ tasks ->
  req ∈ requiredResources t ->
  find_resource resources (resourceId req) = None ->
  exists res,
    optimizeResourceAllocation tasks resources projectDeadline = Ok res /\
    (forall e, e ∈ schedule res -> taskId e <> t_id t) /\
    cannot_schedule t ∈ conflicts res.
Proof.
  intros Hlen Hnd Ht Hreq Hnone. apply optimize_unplaced; [done..|].
  intros ru sched p Hp. unfold scheduleTask in Hp.
  apply try_starts_spec in Hp as [[-> _]|(s & assigned & _ & Hcheck & _)]; [done|].
  by eapply check_unknown_resource in Hcheck.
Qed.

Definition outsourced_task : Task :=
  mkTask "audit" "Audit" 0 [mkRequirement "auditor" 1%Qc] [] 1%Qc.

Lemma unknown_resource_is_reported_witness :
  exists res,
    optimizeResourceAllocation [outsourced_task; weekday_task] [qa_team] None = Ok res /\
    (forall e, e ∈ schedule res -> taskId e <> "audit") /\
    "Cannot schedule task Audit - insufficient resources" ∈ conflicts res.
Proof.
  apply (unknown_resource_is_reported [outsourced_task; weekday_task] [qa_team] None
           outsourced_task (mkRequirement "auditor" 1%Qc)).
  - unfold valid_horizon. simpl. lia.
  - simpl. repeat (apply NoDup_cons; split; [set_solver|]). apply NoDup_nil_2.
  - left.
  - left.
  - reflexivity.
Defined.

(** Too long.  A task whose duration exceeds the horizon is left out of the
    schedule and gets its conflict entry; the run returns (ids unique, horizon
    valid). *)
Theorem overlong_task_is_reported tasks resources projectDeadline t :
  valid_horizon projectDeadline ->
  NoDup (map t_id tasks) -> t ∈ tasks ->
  horizon projectDeadline < duration t ->
  exists res,
    optimizeResourceAllocation tasks resources projectDeadline = Ok res /\
    (forall e, e ∈ schedule res -> taskId e <> t_id t) /\
    cannot_schedule t ∈ conflicts res.
Proof.
  intros Hlen Hnd Ht Hlong. apply optimize_unplaced; [done..|].
  intros ru sched p Hp. unfold scheduleTask in Hp.
  pose proof (getEarliestStartTime_nonneg t sched) as Hpos.
  rewrite seqZ_nil in Hp.
  - simpl in Hp. by injection Hp as <-.
  - generalize dependent (getEarliestStartTime t sched). intros z _ Hz. lia.
Qed.

Definition long_task : Task := mkTask "big" "Rewrite" 12 [] [] 1%Qc.

Lemma overlong_task_is_reported_witness :
  exists res,
    optimizeResourceAllocation [long_task; weekday_task] [qa_team] (Some 10) = Ok res /\
    (forall e, e ∈ schedule res -> taskId e <> "big") /\
    "Cannot schedule task Rewrite - insufficient resources" ∈ conflicts res.
Proof.
  apply (overlong_task_is_reported [long_task; weekday_task] [qa_team] (Some 10)
           long_task).
  - unfold valid_horizon. simpl. lia.
  - simpl. repeat (apply NoDup_cons; split; [set_solver|]). apply NoDup_nil_2.
  - left.
  - simpl. lia.
Defined.

(** ** Cost *)

Lemma optimize_counts tasks resources projectDeadline res :
  NoDup (map t_id tasks) ->
  optimizeResourceAllocation tasks resources projectDeadline = Ok res ->
  (length (schedule res) + length (conflicts res) = length tasks)%nat.
Proof.
  intros Hnd. unfold optimizeResourceAllocation.
  intros (sorted & Hsorted & H1)%res_bind_Ok.
  apply res_bind_Ok in H1 as (ru0 & _ & H2).
  apply res_bind_Ok in H2 as (st & Hloop & [= <-]). simpl.
  destruct (loop_partition _ _ _ _ _ Hloop) as (Hlen & _). simpl in Hlen.
  by rewrite Hlen, (sorted_Permutation tasks sorted Hnd Hsorted).
Qed.

(** The entries of a schedule charge amounts that are not negative over
    spans that are not negative. *)
Definition entry_charges_nonneg (e : ScheduleEntry) : Prop :=
  startPeriod e <= endPeriod e /\
  (forall rid a, assignedResources e !! rid = Some a -> (0 ≤ a)%Qc).

Lemma entry_cost_nonneg resources e total :
  (forall r, r ∈ resources -> (0 ≤ hourlyRate r)%Qc) ->
  entry_charges_nonneg e -> (0 ≤ total)%Qc ->
  (0 ≤ entry_cost resources e total)%Qc.
Proof.
  intros Hrate [Hspan Hamt] Htotal. unfold entry_cost.
  apply (foldl_invariant _ (fun acc => 0 ≤ acc)%Qc); [|done].
  intros acc [rid a] Hin Hacc. simpl.
  apply elem_of_map_to_list in Hin.
  destruct (find_resource resources rid) as [r|] eqn:Hfind; [|done].
  apply find_resource_Some in Hfind as [Hr _].
  rewrite <- (Qcplus_0_l 0). apply Qcplus_le_compat; [done|].
  apply Qcmult_nonneg; [apply Qcmult_nonneg; eauto|].
  apply (proj1 (Z2Qc_inj_le 0 (endPeriod e - startPeriod e))). lia.
Qed.

Lemma totals_cost_nonneg resources sched :
  (forall r, r ∈ resources -> (0 ≤ hourlyRate r)%Qc) ->
  (forall e, e ∈ sched -> entry_charges_nonneg e) ->
  (0 ≤ (totals resources sched).1)%Qc.
Proof.
  intros Hrate Hsched. unfold totals.
  apply (foldl_invariant _ (fun acc : Qc * Z => 0 ≤ acc.1)%Qc); [|done].
  intros acc e Hin Hacc. simpl. apply entry_cost_nonneg; auto.
Qed.

Definition task_charges_nonneg (t : Task) : Prop :=
  0 <= duration t /\ (forall q, q ∈ requiredResources t -> (0 ≤ amount q)%Qc).

Lemma loop_charges_nonneg resources maxPeriods l st st' :
  (forall t, t ∈ l -> task_charges_nonneg t) ->
  foldlM (schedule_step resources maxPeriods) l st = Ok st' ->
  (forall e, e ∈ l_schedule st -> entry_charges_nonneg e) ->
  (forall e, e ∈ l_schedule st' -> entry_charges_nonneg e).
Proof.
  intros Hl Hloop.
  apply (foldlM_preserves (schedule_step resources maxPeriods)
           (fun s => forall e, e ∈ l_schedule s -> entry_charges_nonneg e) l);
    [|done].
  intros s t s' Ht Hstep Hs.
  apply schedule_step_shape in Hstep
    as [(Hsched & _ & _)|(start & assigned & Hsched & _ & _ & _ & Hcheck)];
    rewrite Hsched; [done|].
  destruct (Hl t Ht) as [Hdur Hamt].
  intros e [He|He%list_elem_of_singleton]%elem_of_app; [auto|]. subst e.
  split; simpl; [lia|]. intros rid a Ha.
  destruct (check_requirements_amounts _ _ _ _ _ _ _ Hcheck rid a Ha)
    as [Hempty|(q & Hq & _ & <-)]; [|auto].
  by rewrite lookup_empty in Hempty.
Qed.

(** Cost.  When hourly rates, required amounts and durations are not
    negative, the total cost of a returned schedule is not negative. *)
Theorem totalCost_nonneg tasks resources projectDeadline res :
  (forall r, r ∈ resources -> (0 ≤ hourlyRate r)%Qc) ->
  (forall t, t ∈ tasks -> task_charges_nonneg t) ->
  optimizeResourceAllocation tasks resources projectDeadline = Ok res ->
  (0 ≤ totalCost res)%Qc.
Proof.
  intros Hrate Htasks. unfold optimizeResourceAllocation.
  intros (sorted & Hsorted & H1)%res_bind_Ok.
  apply res_bind_Ok in H1 as (ru0 & _ & H2).
  apply res_bind_Ok in H2 as (st & Hloop & [= <-]). simpl.
  apply totals_cost_nonneg; [done|].
  eapply loop_charges_nonneg; [|exact Hloop|].
  - intros t Ht. apply Htasks. by eapply topologicalSort_sound.
  - simpl. intros e He. by apply elem_of_nil in He.
Qed.

Lemma totalCost_nonneg_witness :
  exists res,
    optimizeResourceAllocation [task_B; task_A] [single_resource (Qc_of_Z 75)] None
    = Ok res /\
    (0 ≤ totalCost res)%Qc.
Proof.
  destruct two_task_run as (res & Hrun & _). exists res. split; [exact Hrun|].
  apply (totalCost_nonneg [task_B; task_A] [single_resource (Qc_of_Z 75)] None res);
    [| |exact Hrun].
  - intros r ->%list_elem_of_singleton. by vm_compute.
  - intros t [->|[->|[]%elem_of_nil]%elem_of_cons]%elem_of_cons;
      (split; [simpl; lia|]);
      intros q ->%list_elem_of_singleton; by vm_compute.
Defined.

(** ** Scenario analysis *)

Lemma optimize_range_error tasks resource resources projectDeadline :
  ~ valid_horizon projectDeadline ->
  optimizeResourceAllocation tasks (resource :: resources) projectDeadline
  = Throw RangeError.
Proof.
  intros Hinvalid. unfold optimizeResourceAllocation.
  destruct (topologicalSort_returns tasks) as [sorted ->]. cbn [res_bind].
  unfold init_utilization. cbn [foldlM]. unfold new_array_zero.
  rewrite decide_False by done. reflexivity.
Qed.

Lemma Qc_ratio_le_1 (x y : Qc) : (0 ≤ x -> x ≤ y -> 0 < y -> x / y ≤ 1)%Qc.
Proof.
  intros Hx Hxy Hy. unfold Qcdiv.
  rewrite <- (Qcmult_inv_r y) by (intros ->; by apply Qclt_not_eq in Hy).
  apply Qcmult_le_compat_r; [done|].
  change (0 <= Qred (/ y))%Q. rewrite Qred_correct.
  apply Qinv_le_0_compat. by apply Qlt_le_weak.
Qed.

Lemma run_scenario_metrics baseTasks baseResources scenario :
  NoDup (map t_id baseTasks) -> valid_horizon (timeConstraint scenario) ->
  exists o, run_scenario baseTasks baseResources scenario = Ok o /\
    so_scenario o = scenario /\
    (0 ≤ so_efficiency o)%Qc /\ (0 ≤ so_riskLevel o)%Qc /\ (so_riskLevel o ≤ 1)%Qc.
Proof.
  intros Hnd Hvalid. unfold run_scenario.
  destruct (optimize_returns baseTasks (map (adjust_resource scenario) baseResources)
              (timeConstraint scenario) Hvalid) as [r Hr].
  rewrite Hr. cbn [res_bind]. eexists. split; [done|]. cbn [so_scenario so_efficiency so_riskLevel].
  split; [done|].
  pose proof (optimize_counts _ _ _ _ Hnd Hr) as Hcount.
  assert (Hdur : 0 <= projectDuration r).
  { generalize Hr. unfold optimizeResourceAllocation.
    intros (sorted & _ & H1)%res_bind_Ok.
    apply res_bind_Ok in H1 as (ru0 & _ & H2).
    apply res_bind_Ok in H2 as (st & _ & [= <-]). simpl.
    apply totals_duration. }
  assert (Hmax : 0 < Z.max 1 (Z.of_nat (length baseTasks))) by lia.
  split; [|split].
  - case_decide as Hcost; [|done].
    apply Qcmult_nonneg.
    + apply EstimationClaims.Qc_div_nonneg; [|done].
      apply (proj1 (Z2Qc_inj_le 0 (projectDuration r))). lia.
    + by apply (proj1 (Z2Qc_inj_le 0 1000)).
  - apply EstimationClaims.Qc_div_nonneg.
    + apply (proj1 (Z2Qc_inj_le 0 _)). lia.
    + by apply NumFacts.Qc_of_Z_pos.
  - apply Qc_ratio_le_1.
    + apply (proj1 (Z2Qc_inj_le 0 _)). lia.
    + apply (proj1 (Z2Qc_inj_le _ _)). lia.
    + by apply NumFacts.Qc_of_Z_pos.
Qed.

(** Scenario analysis.  With unique task ids and every time constraint a
    valid horizon, the analysis returns one outcome per scenario, in the order
    of the scenarios; every efficiency is at least 0 and every risk level lies
    between 0 and 1. *)
Theorem scenario_outcomes_in_order baseTasks baseResources scenarios :
  NoDup (map t_id baseTasks) ->
  (forall sc, sc ∈ scenarios -> valid_horizon (timeConstraint sc)) ->
  exists outcomes,
    performScenarioAnalysis baseTasks baseResources scenarios = Ok outcomes /\
    map so_scenario outcomes = scenarios /\
    (forall o, o ∈ outcomes ->
       (0 ≤ so_efficiency o)%Qc /\ (0 ≤ so_riskLevel o)%Qc /\ (so_riskLevel o ≤ 1)%Qc).
Proof.
  intros Hnd. induction scenarios as [|sc rest IH]; intros Hvalid.
  - exists []. split; [done|]. split; [done|]. intros o Ho. by apply elem_of_nil in Ho.
  - cbn [performScenarioAnalysis].
    destruct (run_scenario_metrics baseTasks baseResources sc Hnd)
      as (o & -> & Hsc & Ho); [apply Hvalid; left|].
    destruct IH as (os & -> & Hmap & Hos).
    { intros sc' Hsc'. apply Hvalid. by right. }
    cbn [res_bind]. exists (o :: os). split; [done|]. split.
    + cbn [map]. by rewrite Hsc, Hmap.
    + intros o' [->|Hin]%elem_of_cons; auto.
Qed.

Definition half_capacity : ScenarioParameters := mkScenario (Q2Qc (1 # 2)) None (Some 10) None.
Definition double_capacity : ScenarioParameters := mkScenario 2%Qc None None None.
Definition negative_deadline : ScenarioParameters := mkScenario 1%Qc None (Some (-1)) None.

Lemma scenario_outcomes_in_order_witness :
  exists outcomes,
    performScenarioAnalysis [review_task; weekday_task] [qa_team]
      [half_capacity; double_capacity] = Ok outcomes /\
    map so_scenario outcomes = [half_capacity; double_capacity] /\
    (forall o, o ∈ outcomes ->
       (0 ≤ so_efficiency o)%Qc /\ (0 ≤ so_riskLevel o)%Qc /\ (so_riskLevel o ≤ 1)%Qc).
Proof.
  apply (scenario_outcomes_in_order [review_task; weekday_task] [qa_team]
           [half_capacity; double_capacity]).
  - simpl. repeat (apply NoDup_cons; split; [set_solver|]). apply NoDup_nil_2.
  - intros sc [->|[->|[]%elem_of_nil]%elem_of_cons]%elem_of_cons;
      unfold valid_horizon; simpl; lia.
Defined.

(** Scenario analysis aborts.  With at least one resource, one scenario whose
    time constraint is not a valid horizon makes the whole analysis throw a
    [RangeError], whatever the other scenarios are: no outcome is returned. *)
Theorem scenario_invalid_constraint_aborts baseTasks resource baseResources scenarios sc :
  sc ∈ scenarios -> ~ valid_horizon (timeConstraint sc) ->
  performScenarioAnalysis baseTasks (resource :: baseResources) scenarios
  = Throw RangeError.
Proof.
  intros Hin Hinvalid. induction scenarios as [|sc' rest IH].
  - by apply elem_of_nil in Hin.
  - cbn [performScenarioAnalysis]. unfold run_scenario at 1.
    destruct (decide (valid_horizon (timeConstraint sc'))) as [Hvalid|Hinv'].
    + destruct (optimize_returns baseTasks
                  (map (adjust_resource sc') (resource :: baseResources))
                  (timeConstraint sc') Hvalid) as [r ->].
      cbn [res_bind]. rewrite IH; [done|].
      apply elem_of_cons in Hin as [->|Hin]; done.
    + cbn [map]. by rewrite optimize_range_error.
Qed.

Lemma scenario_invalid_constraint_aborts_witness :
  performScenarioAnalysis [review_task; weekday_task] [qa_team]
    [half_capacity; negative_deadline; double_capacity] = Throw RangeError.
Proof.
  apply (scenario_invalid_constraint_aborts [review_task; weekday_task] qa_team []
           [half_capacity; negative_deadline; double_capacity] negative_deadline).
  - right. left.
  - unfold valid_horizon. simpl. lia.
Defined.

End SchedulerExtras.

(** * Resource leveling *)

Module Leveling.
Import Scheduler SchedulerFacts.

Section leveling.

(** The conversion of a number to a string done by the template literal. *)
Variable show : Qc -> string.

(** Body of [utilization.forEach((usage, period) => ...)]. *)
Definition over_allocated (resource : Resource) (period : nat) (usage : Qc)
  : list string :=
  let maxCapacity := availableCapacity resource (Z.of_nat period) in
  if decide (maxCapacity < usage)%Qc
  then ["Resource " +:+ r_name resource +:+ " over-allocated in period "
        +:+ show (Qc_of_Z (Z.of_nat period)) +:+ ": "
        +:+ show usage +:+ "/" +:+ show maxCapacity]
  else [].

(** Body of [Object.entries(schedule.resourceUtilization).forEach(...)]. *)
Definition resource_conflicts (resources : list Resource)
    (entry : string * list Qc) : list string :=
  match find_resource resources entry.1 with
  | None => []
  | Some resource => concat (imap (over_allocated resource) entry.2)
  end.

(** The entries are visited in the key order of the object, which the map
    does not record; the order of the new messages is that of
    [map_to_list]. *)
Definition performResourceLeveling (sched : ScheduleResult)
    (resources : list Resource) : ScheduleResult :=
  let found :=
    concat (map (resource_conflicts resources)
                (map_to_list (resourceUtilization sched))) in
  mkResult (schedule sched) (resourceUtilization sched) (totalCost sched)
           (projectDuration sched) (conflicts sched ++ found).

Lemma concat_all_nil {A} (ls : list (list A)) :
  Forall (fun l => l = []) ls -> concat ls = [].
Proof. induction 1 as [|l ls -> _ IH]; [done|]. simpl. exact IH. Qed.

Lemma resource_conflicts_within resources ru rid utilization :
  within_capacity resources ru -> ru !! rid = Some utilization ->
  resource_conflicts resources (rid, utilization) = [].
Proof.
  intros Hwithin Hru. unfold resource_conflicts. simpl.
  destruct (find_resource resources rid) as [r|] eqn:Hfind; [|done].
  apply concat_all_nil, Forall_lookup. intros i l.
  rewrite list_lookup_imap. destruct (utilization !! i) as [u|] eqn:Hu; [|done].
  simpl. intros [= <-]. unfold over_allocated.
  rewrite decide_False; [done|]. apply Qcle_not_lt.
  apply (Hwithin rid r i u Hfind). unfold cell. by rewrite Hru.
Qed.

(** Leveling after scheduling.  When capacities and availability multipliers
    are not negative, leveling a result of [optimizeResourceAllocation] against
    the same resources finds no over-allocation: it returns the result
    unchanged. *)
Theorem leveling_keeps_optimized_schedule tasks resources projectDeadline res :
  (forall r, r ∈ resources -> resource_nonneg r) ->
  optimizeResourceAllocation tasks resources projectDeadline = Ok res ->
  performResourceLeveling res resources = res.
Proof.
  intros Hres Hrun.
  pose proof (optimize_within_capacity _ _ _ _ Hres Hrun) as Hwithin.
  unfold performResourceLeveling.
  replace (concat _) with (@nil string).
  - rewrite app_nil_r. by destruct res.
  - symmetry. apply concat_all_nil, Forall_fmap, Forall_forall.
    intros [rid utilization] Hin%elem_of_map_to_list. simpl.
    by eapply resource_conflicts_within.
Qed.

End leveling.

Lemma leveling_keeps_optimized_schedule_witness :
  exists res,
    optimizeResourceAllocation
      [SchedulerClaims.review_task; SchedulerClaims.weekday_task]
      [SchedulerClaims.qa_team] None = Ok res /\
    performResourceLeveling (fun _ => "n") res [SchedulerClaims.qa_team] = res.
Proof.
  destruct (optimize_returns
              [SchedulerClaims.review_task; SchedulerClaims.weekday_task]
              [SchedulerClaims.qa_team] None) as [res Hrun].
  { simpl. lia. }
  exists res. split; [exact Hrun|].
  apply (leveling_keeps_optimized_schedule (fun _ => "n")
           [SchedulerClaims.review_task; SchedulerClaims.weekday_task]
           [SchedulerClaims.qa_team] None res); [|exact Hrun].
  exact SchedulerExtras.qa_team_nonneg.
Defined.

End Leveling.

(** * Decision tree: values and paths *)

Module DecisionTreeExtras.
Import DecisionTree DecisionTreeClaims.

Local Open Scope Qc_scope.

(** ** Expected values *)

Lemma Qc_max_ge_l x y : x ≤ Qc_max x y.
Proof. unfold Qc_max. case_decide; [by apply Qclt_le_weak | apply Qcle_refl]. Qed.

Lemma Qc_max_ge_r x y : y ≤ Qc_max x y.
Proof. unfold Qc_max. case_decide; [apply Qcle_refl | by apply Qcnot_lt_le]. Qed.

Lemma Qc_max_cases x y : Qc_max x y = x \/ Qc_max x y = y.
Proof. unfold Qc_max. case_decide; auto. Qed.

Lemma max_list_spec xs : forall x,
  (forall y, y ∈ x :: xs -> y ≤ max_list x xs) /\ max_list x xs ∈ x :: xs.
Proof.
  unfold max_list. induction xs as [|z xs IH]; intros x; simpl.
  - split; [|left]. intros y ->%list_elem_of_singleton. apply Qcle_refl.
  - destruct (IH (Qc_max x z)) as [Hge Hin]. split.
    + intros y [->|[->|Hy]%elem_of_cons]%elem_of_cons.
      * eapply Qcle_trans; [apply Qc_max_ge_l|]. apply Hge. left.
      * eapply Qcle_trans; [apply Qc_max_ge_r|]. apply Hge. left.
      * apply Hge. by right.
    + apply elem_of_cons in Hin as [->|Hin].
      * destruct (Qc_max_cases x z) as [->| ->]; [left | right; left].
      * by do 2 right.
Qed.

(** Decision value.  A decision node with at least one child is worth its
    best child: its expected value is at least that of every child and is the
    expected value of one of them; its own cost, value and probability play
    no part. *)
Theorem decision_value_is_best_child id nm p c v child cs :
  let node := mkNode id nm decision p c v (child :: cs) in
  (forall ch, ch ∈ child :: cs ->
     calculateExpectedValue ch ≤ calculateExpectedValue node) /\
  (exists ch, ch ∈ child :: cs /\
     calculateExpectedValue node = calculateExpectedValue ch).
Proof.
  intros node.
  assert (Hnode : calculateExpectedValue node
                  = max_list (calculateExpectedValue child)
                             (map calculateExpectedValue cs)) by reflexivity.
  rewrite Hnode.
  destruct (max_list_spec (map calculateExpectedValue cs)
              (calculateExpectedValue child)) as [Hge Hin].
  split.
  - intros ch Hch. apply Hge.
    change (calculateExpectedValue ch ∈ map calculateExpectedValue (child :: cs)).
    apply list_elem_of_fmap. eauto.
  - change (max_list (calculateExpectedValue child) (map calculateExpectedValue cs)
            ∈ map calculateExpectedValue (child :: cs)) in Hin.
    apply list_elem_of_fmap in Hin as (ch & Heq & Hch). eauto.
Qed.

Definition launch : DecisionNode :=
  mkNode "launch" "Launch" chance None (Some (Qc_of_Z 500)) None
    [mkNode "s" "Success" outcome (Some (q 7 10)) (Some (Qc_of_Z 100)) (Some (Qc_of_Z 400)) [];
     mkNode "f" "Failure" outcome (Some (q 3 10)) (Some (Qc_of_Z 100)) (Some (Qc_of_Z 50)) []].

(** ** The recommended path *)

(** [names] are the names along a path from [node] down to a leaf of the
    analysis: an outcome, or a node without children. *)
Inductive tree_path : DecisionNode -> list string -> Prop :=
| path_leaf node :
    n_type node = outcome \/ children node = [] ->
    tree_path node [n_name node]
| path_step node child names :
    n_type node <> outcome -> child ∈ children node ->
    tree_path child names ->
    tree_path node (n_name node :: names).

Lemma insert_by_value_elem x y l : y ∈ insert_by_value x l -> y = x \/ y ∈ l.
Proof.
  induction l as [|z l IH]; simpl.
  - intros ->%list_elem_of_singleton. by left.
  - case_decide.
    + intros [->|Hy%IH]%elem_of_cons; [right; left|].
      destruct Hy; [by left | by do 2 right].
    + intros [->|Hy]%elem_of_cons; auto.
Qed.

Lemma sort_by_value_elem y l : y ∈ sort_by_value l -> y ∈ l.
Proof.
  unfold sort_by_value. induction l as [|x l IH]; simpl; [done|].
  intros [->|Hy]%insert_by_value_elem; [left | right; auto].
Qed.

Lemma choose_option_best sorted r :
  choose_option sorted = Ok r ->
  exists best ra, best ∈ sorted /\ path r = path (ca_path best) /\
    pr_riskAnalysis r = Some ra /\ bestOption ra = ca_name best /\
    ra_riskLevel ra = level_or_unknown (ca_riskMetrics best).
Proof.
  destruct sorted as [|topOption [|secondOption rest]]; try discriminate.
  unfold choose_option.
  assert (Htop : topOption ∈ topOption :: secondOption :: rest) by left.
  assert (Hsecond : secondOption ∈ topOption :: secondOption :: rest)
    by (right; left).
  destruct (ca_riskMetrics topOption) as [mt|] eqn:Hmt,
           (ca_riskMetrics secondOption) as [ms|] eqn:Hms;
    repeat case_decide; intros [= <-];
    first [ exists topOption; eexists; split; [exact Htop|];
            rewrite Hmt; repeat split; reflexivity
          | exists secondOption; eexists; split; [exact Hsecond|];
            rewrite Hms; repeat split; reflexivity ].
Qed.

(** What a decision node with children returns: the path found below one of
    its children, with the name and the risk level of that child. *)
Lemma decision_node_result id nm p c v child cs currentPath r :
  findBestPathWithRiskAnalysis (mkNode id nm decision p c v (child :: cs)) currentPath
  = Ok r ->
  exists chosen pr ra,
    chosen ∈ child :: cs /\
    findBestPathWithRiskAnalysis chosen (currentPath ++ [nm]) = Ok pr /\
    path r = path pr /\
    pr_riskAnalysis r = Some ra /\ bestOption ra = n_name chosen /\
    ra_riskLevel ra = level_or_unknown (calculateRiskMetrics chosen).
Proof.
  cbn [findBestPathWithRiskAnalysis].
  set (analyse := fix analyse (l : list DecisionNode) : res (list ChildAnalysis) :=
         match l with
         | [] => Ok []
         | child :: l' =>
           let* p := findBestPathWithRiskAnalysis child (currentPath ++ [nm]) in
           let* rest := analyse l' in
           Ok (mkChild (n_name child) (calculateExpectedValue child)
                       (calculateRiskMetrics child) p :: rest)
         end).
  assert (Han : forall l al, analyse l = Ok al ->
            forall a, a ∈ al ->
            exists chosen, chosen ∈ l /\
              findBestPathWithRiskAnalysis chosen (currentPath ++ [nm])
              = Ok (ca_path a) /\
              ca_name a = n_name chosen /\
              ca_riskMetrics a = calculateRiskMetrics chosen).
  { induction l as [|x l IHl]; intros al; cbn [analyse].
    - intros [= <-] a Ha. by apply elem_of_nil in Ha.
    - intros (px & Hpx & H1)%res_bind_Ok.
      apply res_bind_Ok in H1 as (rest & Hrest & [= <-]).
      intros a [->|Ha]%elem_of_cons.
      + exists x. split; [left | done].
      + destruct (IHl rest Hrest a Ha) as (chosen & Hchosen & Hca).
        exists chosen. split; [by right | done]. }
  intros (al & Hal & Hchoose)%res_bind_Ok.
  apply choose_option_best in Hchoose
    as (best & ra & Hbest%sort_by_value_elem & Hpath & Hra & Hname & Hlevel).
  destruct (Han (child :: cs) al Hal best Hbest) as (chosen & Hchosen & Hca & Hn & Hm).
  exists chosen, (ca_path best), ra. rewrite <- Hn, <- Hm. done.
Qed.

Lemma findBestPath_is_tree_path node :
  forall currentPath r,
    findBestPathWithRiskAnalysis node currentPath = Ok r ->
    exists names, path r = currentPath ++ names /\ tree_path node names.
Proof.
  induction node as [id nm ty p c v cs IH] using DecisionNode_induction.
  intros currentPath r. rewrite Forall_forall in IH.
  assert (Hleaf : forall ty', ty' = outcome \/ cs = [] ->
            tree_path (mkNode id nm ty' p c v cs) [nm])
    by (intros ty' H; by apply (path_leaf (mkNode id nm ty' p c v cs))).
  assert (Hdown : forall ty' child pr, ty' <> outcome -> child ∈ cs ->
            findBestPathWithRiskAnalysis child (currentPath ++ [nm]) = Ok pr ->
            exists names, path pr = currentPath ++ names /\
                          tree_path (mkNode id nm ty' p c v cs) names).
  { intros ty' child pr Hty Hchild Hpr.
    destruct (IH child Hchild _ _ Hpr) as (names & Hnames & Hpath).
    exists (nm :: names). split.
    - rewrite Hnames, <- app_assoc. done.
    - by apply (path_step (mkNode id nm ty' p c v cs) child). }
  destruct ty.
  - destruct cs as [|c1 cs'].
    { cbn [findBestPathWithRiskAnalysis].
      intros [= <-]. exists [nm]. split; [done|]. apply Hleaf. by right. }
    intros (chosen & pr & ra & Hchosen & Hpr & -> & _)%decision_node_result.
    by apply (Hdown decision chosen).
  - cbn [findBestPathWithRiskAnalysis]. destruct cs as [|c1 cs'].
    { intros [= <-]. exists [nm]. split; [done|]. apply Hleaf. by right. }
    assert (Hfollow : forall l best k,
              (forall x, x ∈ l -> x ∈ c1 :: cs') ->
              (exists child, child ∈ c1 :: cs' /\
                 k = findBestPathWithRiskAnalysis child (currentPath ++ [nm])) ->
              (fix follow (best : DecisionNode) (k : res PathResult)
                   (l : list DecisionNode) {struct l} : res PathResult :=
                 match l with
                 | [] => k
                 | current :: l' =>
                   if decide (prob best < prob current)
                   then follow current
                          (findBestPathWithRiskAnalysis current (currentPath ++ [nm])) l'
                   else follow best k l'
                 end) best k l = Ok r ->
              exists child, child ∈ c1 :: cs' /\
                findBestPathWithRiskAnalysis child (currentPath ++ [nm]) = Ok r).
    { induction l as [|x l IHl]; intros best k Hl Hk.
      - destruct Hk as (child & Hchild & ->). eauto.
      - case_decide; apply IHl.
        + intros y Hy. apply Hl. by right.
        + exists x. split; [apply Hl; left | done].
        + intros y Hy. apply Hl. by right.
        + done. }
    intros Hr. apply Hfollow in Hr as (child & Hchild & Hpr).
    + by apply (Hdown chance child).
    + intros x Hx. by right.
    + exists c1. split; [left | done].
  - cbn [findBestPathWithRiskAnalysis].
    intros [= <-]. exists [nm]. split; [done|]. apply Hleaf. by left.
Qed.

Lemma tree_path_head node names :
  tree_path node names -> exists rest, names = n_name node :: rest.
Proof. destruct 1; eauto. Qed.

(** Recommended path.  When the analysis returns, [bestPath] starts with the
    name of the root and follows children down to a leaf: an outcome, or a
    node without children. *)
Theorem bestPath_is_root_to_leaf rootNode r :
  analyzeDecisionTree rootNode = Ok r ->
  tree_path rootNode (bestPath r).
Proof.
  unfold analyzeDecisionTree. intros (analysis & Hpath & [= <-])%res_bind_Ok.
  apply findBestPath_is_tree_path in Hpath as (names & Hnames & Hpath).
  cbn [bestPath]. by rewrite Hnames.
Qed.

Lemma bestPath_is_root_to_leaf_witness :
  tree_path launch ["Launch"; "Success"].
Proof.
  exact (bestPath_is_root_to_leaf launch
           (mkAnalysis (calculateExpectedValue launch) ["Launch"; "Success"] None)
           eq_refl).
Defined.

(** Recommended option.  When the analysis of a decision node with children
    returns, it carries a risk analysis whose [bestOption] is the name of one
    of the children, whose risk level is that of this child ([Unknown] when it
    has no risk metrics), and [bestPath] goes from the root to this child. *)
Theorem bestOption_is_on_bestPath id nm p c v child cs r :
  analyzeDecisionTree (mkNode id nm decision p c v (child :: cs)) = Ok r ->
  exists chosen ra rest,
    chosen ∈ child :: cs /\
    riskAnalysis r = Some ra /\
    bestOption ra = n_name chosen /\
    ra_riskLevel ra = level_or_unknown (calculateRiskMetrics chosen) /\
    bestPath r = nm :: bestOption ra :: rest.
Proof.
  unfold analyzeDecisionTree. intros (analysis & Hrun & [= <-])%res_bind_Ok.
  apply decision_node_result in Hrun
    as (chosen & pr & ra & Hchosen & Hpr & Hpath & Hra & Hname & Hlevel).
  apply findBestPath_is_tree_path in Hpr as (names & Hnames & Htree).
  apply tree_path_head in Htree as [rest ->].
  exists chosen, ra, rest. cbn [riskAnalysis bestPath].
  rewrite Hpath, Hnames, Hname. done.
Qed.

Definition build_or_buy : DecisionNode :=
  mkNode "root" "Build or buy" decision None None None
    [mkNode "buy" "Buy" outcome None (Some (Qc_of_Z 100)) (Some (Qc_of_Z 250)) [];
     launch].

Lemma bestOption_is_on_bestPath_witness :
  exists r chosen ra rest,
    analyzeDecisionTree build_or_buy = Ok r /\
    chosen ∈ children build_or_buy /\
    riskAnalysis r = Some ra /\
    bestOption ra = n_name chosen /\
    ra_riskLevel ra = level_or_unknown (calculateRiskMetrics chosen) /\
    bestPath r = "Build or buy" :: bestOption ra :: rest.
Proof.
  destruct (findBestPath_returns build_or_buy eq_refl []) as [pr Hpr].
  assert (Hrun : analyzeDecisionTree build_or_buy
                 = Ok (mkAnalysis (calculateExpectedValue build_or_buy) (path pr)
                                  (pr_riskAnalysis pr)))
    by (unfold analyzeDecisionTree; rewrite Hpr; reflexivity).
  destruct (bestOption_is_on_bestPath "root" "Build or buy" None None None
              (mkNode "buy" "Buy" outcome None (Some (Qc_of_Z 100))
                 (Some (Qc_of_Z 250)) [])
              [launch] _ Hrun) as (chosen & ra & rest & H).
  eexists; exists chosen, ra, rest. split; [exact Hrun | exact H].
Defined.

End DecisionTreeExtras.

(** * Financial indicators *)

Module Finance.
Import JsNum.

Local Open Scope Qc_scope.

(** [a >= b] *)
Definition ngeb (a b : num) : bool :=
  match a, b with
  | NaN, _ | _, NaN => false
  | _, _ => negb (nltb a b)
  end.

(** *** calculateROI *)

Definition calculateROI (gain cost : num) : num :=
  if neqb cost (Fin 0) then Fin 0
  else nmul (ndiv (nsub gain cost) cost) (of_Z 100).

(** *** calculatePaybackPeriod *)

(** The [for] loop from index [period] on; [None] when it runs to the end
    of [cashFlows] without returning. *)
Fixpoint payback_loop (cashFlows : list num) (period : nat)
    (cumulativeCashFlow : num) : option num :=
  match cashFlows with
  | [] => None
  | cashFlow :: rest =>
    let cumulativeCashFlow := nadd cumulativeCashFlow cashFlow in
    if ngeb cumulativeCashFlow (Fin 0) then
      let previousCumulative := nsub cumulativeCashFlow cashFlow in
      let fraction := ndiv (nneg previousCumulative) cashFlow in
      Some (nadd (of_nat period) fraction)
    else payback_loop rest (S period) cumulativeCashFlow
  end.

Definition calculatePaybackPeriod (cashFlows : list num) (initialInvestment : num) : num :=
  match payback_loop cashFlows 0 (nneg initialInvestment) with
  | Some payback => payback
  | None => of_nat (length cashFlows)
  end.

(** *** calculateCOCOMO *)

Inductive project_type : Type := organic | semidetached | embedded.

Record Coefficients : Type := mkCoefficients {
  co_a : num;
  co_b : num;
  co_c : num;
  co_d : num
}.

Definition coefficients (projectType : project_type) : Coefficients :=
  match projectType with
  | organic => mkCoefficients (dec 24 10) (dec 105 100) (dec 25 10) (dec 38 100)
  | semidetached => mkCoefficients (dec 30 10) (dec 112 100) (dec 25 10) (dec 35 100)
  | embedded => mkCoefficients (dec 36 10) (dec 120 100) (dec 25 10) (dec 32 100)
  end.

Record CocomoResult : Type := mkCocomo {
  effort : num;
  duration : num;
  cost : num
}.

Section math.
Context {M : MathLib}.

Definition calculateCOCOMO (linesOfCode : num) (projectType : project_type)
  : CocomoResult :=
  let kloc := ndiv linesOfCode (of_Z 1000) in
  let k := coefficients projectType in
  let effort := nmul (co_a k) (npow kloc (co_b k)) in
  let duration := nmul (co_c k) (npow effort (co_d k)) in
  let cost := nmul (nmul effort (of_Z 160)) (of_Z 75) in
  mkCocomo effort duration cost.

End math.

(** *** sensitivityAnalysis *)

Record Sensitivity : Type := mkSensitivity {
  increase : num;
  decrease : num;
  sensitivity : num
}.

(** [calculateFunction] is taken to be a function of the parameters alone,
    one that returns. *)
Definition sensitivityAnalysis (baseParameters : gmap string num)
    (calculateFunction : gmap string num -> num) (variationPercent : num)
  : gmap string Sensitivity :=
  let baseResult := calculateFunction baseParameters in
  map_imap (fun param originalValue =>
    let increasedParams :=
      <[param := nmul originalValue (nadd (Fin 1) variationPercent)]> baseParameters in
    let increasedResult := calculateFunction increasedParams in
    let decreasedParams :=
      <[param := nmul originalValue (nsub (Fin 1) variationPercent)]> baseParameters in
    let decreasedResult := calculateFunction decreasedParams in
    let outputChangePercent :=
      nmul (ndiv (nsub increasedResult baseResult) baseResult) (of_Z 100) in
    let inputChangePercent := nmul variationPercent (of_Z 100) in
    let sensitivity := nabs (ndiv outputChangePercent inputChangePercent) in
    Some (mkSensitivity increasedResult decreasedResult sensitivity))
    baseParameters.

End Finance.

Module FinanceExtras.
Import JsNum Estimation Finance NumFacts.

Local Open Scope Qc_scope.

Definition q_dec (n : Z) (d : positive) : Qc := Q2Qc (n # d).

(** ** Return on investment *)

Lemma Qc_mult_zero (x y : Qc) : x * y = 0 -> x = 0 \/ y = 0.
Proof.
  intros H. destruct (decide (x = 0)) as [|Hx]; [by left|]. right.
  by apply (Qcmult_integral_l x y).
Qed.

Lemma Qc_inv_pos (y : Qc) : 0 < y -> 0 < / y.
Proof.
  intros Hy. change (0 < Qred (/ y))%Q. rewrite Qred_correct.
  by apply Qinv_lt_0_compat.
Qed.

(** Return on investment.  On finite inputs [calculateROI] returns a finite
    number; it is 0 exactly when the cost is 0 or the gain equals the cost;
    and for a positive cost it is positive exactly when the gain exceeds the
    cost. *)
Theorem calculateROI_break_even (gain cost : Qc) :
  exists roi,
    calculateROI (Fin gain) (Fin cost) = Fin roi /\
    (roi = 0 <-> cost = 0 \/ gain = cost) /\
    (0 < cost -> (0 < roi <-> cost < gain)).
Proof.
  unfold calculateROI, neqb. case_bool_decide as Hcost.
  - exists 0. split; [done|]. split; [split; auto|].
    intros Hpos. rewrite Hcost in Hpos. done.
  - unfold nsub, nneg, nadd, ndiv. rewrite decide_False by done.
    unfold of_Z, nmul. eexists. split; [reflexivity|].
    pose proof Qc_of_Z_100_ne_0 as H100. split.
    + split.
      * intros [H| H]%Qc_mult_zero; [|done]. right.
        unfold Qcdiv in H. apply Qc_mult_zero in H as [H|H].
        -- rewrite <- (Qcplus_0_r cost), <- H. ring.
        -- pose proof (Qcmult_inv_r cost Hcost) as Hinv.
           rewrite H, Qcmult_0_r in Hinv. done.
      * intros [H| ->]; [done|]. field. done.
    + intros Hpos. unfold Qcdiv. rewrite <- Qcmult_assoc.
      assert (Hk : 0 < / cost * Qc_of_Z 100).
      { apply Qcmult_pos_pos; [by apply Qc_inv_pos | by apply Qc_of_Z_pos]. }
      rewrite (Qclt_minus_iff cost gain).
      rewrite (Qcmult_lt_mono_pos_r 0 (gain + - cost) _ Hk).
      by rewrite Qcmult_0_l.
Qed.

(** ** Net present value *)

(** The sum that [calculateNPV] adds to minus the investment: the cash flow
    of period [t] (counted from 0, after the first [k] periods) divided by
    [(1 + rate) ^ (k + t + 1)]. *)
Fixpoint discounted (rate : Qc) (k : nat) (cashFlows : list Qc) : Qc :=
  match cashFlows with
  | [] => 0
  | cashFlow :: rest =>
    cashFlow / (1 + rate) ^ (k + 1) + discounted rate (S k) rest
  end.

Lemma Qcpower_ne_0 (x : Qc) n : x <> 0 -> x ^ n <> 0.
Proof.
  intros Hx. induction n as [|n IH]; [done|].
  simpl. intros [H|H]%Qc_mult_zero; done.
Qed.

Lemma Qcpower_ge_1 (x : Qc) n : 1 ≤ x -> 1 ≤ x ^ n.
Proof.
  intros Hx. induction n as [|n IH]; [apply Qcle_refl|].
  simpl. eapply Qcle_trans; [exact IH|].
  rewrite <- (Qcmult_1_l (x ^ n)) at 1.
  apply Qcmult_le_compat_r; [done|].
  eapply Qcle_trans; [|exact IH]. done.
Qed.

Section with_math.
Context {M : MathLib}.

Lemma npow_nat_Fin (x : Qc) n : npow_nat (Fin x) n = Fin (x ^ n).
Proof.
  unfold npow_nat. induction n as [|n IH]; [done|].
  change (nmul (Fin x) (Nat.iter n (nmul (Fin x)) (Fin 1)) = Fin (x ^ S n)).
  by rewrite IH.
Qed.

Lemma npv_fold (rate : Qc) (cashFlows : list Qc) : forall (acc : Qc) (k : nat),
  1 + rate <> 0 ->
  (foldl (npv_step (Fin rate)) (Fin acc, k) (map Fin cashFlows)).1
  = Fin (acc + discounted rate k cashFlows).
Proof.
  induction cashFlows as [|cf rest IH]; intros acc k Hrate.
  - simpl. f_equal. ring.
  - cbn [map foldl]. unfold npv_step at 2. cbn [fst snd].
    rewrite npow_of_nat. cbn [nadd]. rewrite npow_nat_Fin.
    unfold ndiv. rewrite decide_False by by apply Qcpower_ne_0.
    cbn [nadd]. rewrite IH by done. cbn [discounted]. f_equal. ring.
Qed.

Lemma discounted_nonneg (rate : Qc) (cashFlows : list Qc) : forall k,
  0 ≤ rate -> Forall (fun cf => 0 ≤ cf) cashFlows ->
  0 ≤ discounted rate k cashFlows.
Proof.
  intros k Hrate Hcf. revert k.
  assert (Hbase : 1 ≤ 1 + rate).
  { rewrite <- (Qcplus_0_r 1) at 1. apply Qcplus_le_compat; [apply Qcle_refl | done]. }
  induction Hcf as [|cf rest Hcf _ IH]; intros k; simpl.
  - apply Qcle_refl.
  - pose proof (Qcpower_ge_1 (1 + rate) (k + 1) Hbase) as Hpow.
    rewrite <- (Qcplus_0_r 0). apply Qcplus_le_compat; [|apply IH].
    apply EstimationClaims.Qc_div_nonneg; [done|].
    eapply Qclt_le_trans; [|exact Hpow]. done.
Qed.

(** Floor of the net present value.  With a discount rate that is not
    negative and cash flows that are not negative, the net present value is a
    finite number and is at least minus the investment: future income never
    makes a project worth less than what it costs. *)
Theorem calculateNPV_at_least_minus_investment (cashFlows : list Qc)
    (discountRate initialInvestment : Qc) :
  0 ≤ discountRate -> Forall (fun cf => 0 ≤ cf) cashFlows ->
  exists npv,
    calculateNPV (map Fin cashFlows) (Fin discountRate) (Fin initialInvestment)
    = Fin npv /\
    - initialInvestment ≤ npv.
Proof.
  intros Hrate Hcf. unfold calculateNPV. cbn [nneg]. rewrite npv_fold.
  - eexists. split; [reflexivity|].
    rewrite <- (Qcplus_0_r (- initialInvestment)) at 1.
    apply Qcplus_le_compat; [apply Qcle_refl | by apply discounted_nonneg].
  - intros H.
    assert (H1 : 1 ≤ 1 + discountRate).
    { rewrite <- (Qcplus_0_r 1) at 1. apply Qcplus_le_compat; [apply Qcle_refl|done]. }
    rewrite H in H1. done.
Qed.

End with_math.

Definition steady_flows : list Qc := [Qc_of_Z 400; Qc_of_Z 400; Qc_of_Z 400].

Lemma calculateNPV_at_least_minus_investment_witness :
  exists npv,
    calculateNPV (M := floor_math) (map Fin steady_flows) (Fin (q_dec 1 10))
      (Fin (Qc_of_Z 1000)) = Fin npv /\
    - Qc_of_Z 1000 ≤ npv.
Proof.
  apply (calculateNPV_at_least_minus_investment (M := floor_math) steady_flows
           (q_dec 1 10) (Qc_of_Z 1000)).
  - by vm_compute.
  - repeat constructor; by vm_compute.
Defined.

(** ** Internal rate of return *)

Section with_math.
Context {M : MathLib}.

Lemma ten_percent : nmul (dec 1 10) (of_Z 100) = Fin (Qc_of_Z 10).
Proof. unfold dec, of_Z, nmul. f_equal. apply Qc_is_canon. reflexivity. Qed.

(** Initial guess.  Without iterations, or without cash flows, the
    Newton-Raphson loop never moves the rate: [calculateIRR] returns the
    initial guess 10 (percent), whatever the investment is. *)
Theorem calculateIRR_initial_guess :
  (forall cashFlows initialInvestment,
     calculateIRR cashFlows initialInvestment 0 = Fin (Qc_of_Z 10)) /\
  (forall initialInvestment maxIterations,
     calculateIRR [] initialInvestment maxIterations = Fin (Qc_of_Z 10)).
Proof.
  split.
  - intros cashFlows initialInvestment. unfold calculateIRR, irr_run.
    cbn [irr_loop fst]. apply ten_percent.
  - intros initialInvestment [|n]; unfold calculateIRR, irr_run.
    + cbn [irr_loop fst]. apply ten_percent.
    + cbn [irr_loop]. unfold irr_pass. cbn [foldl]. unfold irr_step.
      rewrite decide_False by lia. cbn [fst snd].
      destruct (nltb _ _); cbn [neqb fst]; [apply ten_percent|].
      rewrite bool_decide_eq_true_2 by done. cbn [fst]. apply ten_percent.
Qed.

(** ** COCOMO *)

Lemma npow_zero_fraction (n : Z) (d : positive) :
  Qc_of_Z (Qfloor (Q2Qc (n # d))) <> Q2Qc (n # d) -> 0 < Q2Qc (n # d) ->
  npow (Fin 0) (dec n d) = Fin 0.
Proof.
  intros Hfrac Hpos. unfold npow, dec. rewrite decide_False by done.
  rewrite decide_False by done. rewrite decide_True by done.
  by rewrite decide_True.
Qed.

Lemma npow_negative_fraction (x : Qc) (n : Z) (d : positive) :
  Qc_of_Z (Qfloor (Q2Qc (n # d))) <> Q2Qc (n # d) -> x < 0 ->
  npow (Fin x) (dec n d) = NaN.
Proof.
  intros Hfrac Hneg. unfold npow, dec. rewrite decide_False by done.
  by rewrite decide_True.
Qed.

(** COCOMO at the edges.  For every project type, 0 lines of code give an
    effort, a duration and a cost of 0, and a negative number of lines gives
    [NaN] for all three (nothing is thrown). *)
Theorem calculateCOCOMO_edges (projectType : project_type) :
  calculateCOCOMO (Fin 0) projectType = mkCocomo (Fin 0) (Fin 0) (Fin 0) /\
  (forall linesOfCode, linesOfCode < 0 ->
     calculateCOCOMO (Fin linesOfCode) projectType = mkCocomo NaN NaN NaN).
Proof.
  split.
  - unfold calculateCOCOMO.
    assert (Hkloc : ndiv (Fin 0) (of_Z 1000) = Fin 0)
      by (unfold ndiv, of_Z; rewrite decide_False by done; f_equal;
          apply Qc_is_canon; reflexivity).
    rewrite Hkloc.
    destruct projectType; cbn [coefficients co_a co_b co_c co_d];
      rewrite npow_zero_fraction by (by vm_compute);
      (assert (Heff : forall a, nmul (dec a 10) (Fin 0) = Fin 0)
         by (intros a; unfold dec, nmul; f_equal; apply Qcmult_0_r));
      rewrite !Heff; f_equal; unfold of_Z, nmul; f_equal;
      apply Qc_is_canon; reflexivity.
  - intros linesOfCode Hneg. unfold calculateCOCOMO.
    assert (Hkloc : exists kloc, ndiv (Fin linesOfCode) (of_Z 1000) = Fin kloc /\ kloc < 0).
    { unfold ndiv, of_Z. rewrite decide_False by done. eexists. split; [done|].
      unfold Qcdiv. rewrite <- (Qcmult_0_l (/ Qc_of_Z 1000)).
      apply Qcmult_lt_compat_r; [by vm_compute | done]. }
    destruct Hkloc as (kloc & -> & Hkloc).
    destruct projectType; cbn [coefficients co_a co_b co_c co_d];
      rewrite npow_negative_fraction by (done || by vm_compute); reflexivity.
Qed.

End with_math.

Lemma calculateCOCOMO_edges_witness :
  calculateCOCOMO (M := floor_math) (Fin (Qc_of_Z (-5000))) semidetached
  = mkCocomo NaN NaN NaN.
Proof.
  apply (proj2 (calculateCOCOMO_edges (M := floor_math) semidetached)).
  by vm_compute.
Defined.

(** ** Payback period *)

Lemma ngeb_Fin (x : Qc) : ngeb (Fin x) (Fin 0) = bool_decide (0 ≤ x).
Proof.
  unfold ngeb, nltb. case_bool_decide as H1; case_bool_decide as H2; try done.
  - by apply Qcle_not_lt in H2.
  - by apply Qcnot_lt_le in H1.
Qed.

Lemma Qc_opp_pos (x : Qc) : x < 0 -> 0 < - x.
Proof. intros H. apply Qclt_minus_iff in H. by rewrite Qcplus_0_l in H. Qed.

Lemma Qc_opp_neg (x : Qc) : 0 < x -> - x < 0.
Proof.
  intros H. apply Qclt_minus_iff. by rewrite Qcplus_0_l, Qcopp_involutive.
Qed.

Lemma Qc_of_nat_le (m n : nat) : (m <= n)%nat -> Qc_of_Z (Z.of_nat m) ≤ Qc_of_Z (Z.of_nat n).
Proof. intros H. apply (proj1 (Z2Qc_inj_le _ _)). lia. Qed.

Lemma Qc_of_nat_S (n : nat) : Qc_of_Z (Z.of_nat (S n)) = Qc_of_Z (Z.of_nat n) + 1.
Proof. by rewrite Nat2Z.inj_succ, <- Z.add_1_r, Z2Qc_inj_add, Z2Qc_inj_1. Qed.

(** The interpolation in the period that recovers the investment: the
    cumulative cash flow was negative before it and is not after it. *)
Lemma payback_fraction (cumulative cashFlow : Qc) :
  cumulative < 0 -> 0 ≤ cumulative + cashFlow ->
  exists fraction,
    ndiv (nneg (nsub (Fin (cumulative + cashFlow)) (Fin cashFlow))) (Fin cashFlow)
    = Fin fraction /\
    0 ≤ fraction /\ fraction ≤ 1.
Proof.
  intros Hneg Hafter.
  assert (Hprev : cumulative + cashFlow + - cashFlow = cumulative) by ring.
  unfold nsub. cbn [nneg nadd]. rewrite Hprev.
  assert (Hcf : 0 < cashFlow).
  { apply Qcnot_le_lt. intros Hcf.
    pose proof (Qcplus_neg_nonpos _ _ Hneg Hcf) as H0.
    by apply Qclt_not_le in H0. }
  assert (Hne : cashFlow <> 0) by (intros ->; by apply Qclt_not_eq in Hcf).
  unfold ndiv. rewrite decide_False by done.
  eexists. split; [reflexivity|]. split.
  - apply EstimationClaims.Qc_div_nonneg; [|done]. by apply Qclt_le_weak, Qc_opp_pos.
  - unfold Qcdiv. rewrite <- (Qcmult_inv_r cashFlow) by done.
    apply Qcmult_le_compat_r; [|by apply Qclt_le_weak, Qc_inv_pos].
    rewrite <- (Qcplus_0_l (- cumulative)).
    replace cashFlow with (cumulative + cashFlow + - cumulative) by ring.
    apply Qcplus_le_compat; [done | apply Qcle_refl].
Qed.

(** When the loop returns, it returns a finite number between the period it
    started in and the period after the last. *)
Lemma payback_loop_bounds (cashFlows : list Qc) : forall period (cumulative : Qc),
  cumulative < 0 ->
  match payback_loop (map Fin cashFlows) period (Fin cumulative) with
  | Some payback =>
    exists p, payback = Fin p /\
      Qc_of_Z (Z.of_nat period) ≤ p /\
      p ≤ Qc_of_Z (Z.of_nat (period + length cashFlows))
  | None => True
  end.
Proof.
  induction cashFlows as [|cf rest IH]; intros period cumulative Hneg; [done|].
  cbn [map payback_loop nadd]. rewrite ngeb_Fin. case_bool_decide as Hafter.
  - destruct (payback_fraction cumulative cf Hneg Hafter) as (fraction & -> & Hlo & Hhi).
    cbn [of_nat of_Z nadd]. eexists. split; [reflexivity|]. split.
    + rewrite <- (Qcplus_0_r (Qc_of_Z (Z.of_nat period))) at 1.
      apply Qcplus_le_compat; [apply Qcle_refl | done].
    + eapply Qcle_trans; [apply Qcplus_le_compat; [apply Qcle_refl | exact Hhi]|].
      rewrite <- Qc_of_nat_S. apply Qc_of_nat_le. simpl. lia.
  - apply Qcnot_le_lt in Hafter. specialize (IH (S period) (cumulative + cf) Hafter).
    destruct (payback_loop _ _ _) as [payback|]; [|done].
    destruct IH as (p & -> & Hlo & Hhi). exists p. split; [done|]. split.
    + eapply Qcle_trans; [|exact Hlo]. apply Qc_of_nat_le. lia.
    + eapply Qcle_trans; [exact Hhi|]. apply Qc_of_nat_le. simpl. lia.
Qed.

(** Payback period.  For a positive investment and finite cash flows of any
    sign, the payback period is a finite number between 0 and the number of
    periods: never [NaN], an infinity or a negative number. *)
Theorem payback_within_project_periods (cashFlows : list Qc) (initialInvestment : Qc) :
  0 < initialInvestment ->
  exists payback,
    calculatePaybackPeriod (map Fin cashFlows) (Fin initialInvestment) = Fin payback /\
    0 ≤ payback /\ payback ≤ Qc_of_Z (Z.of_nat (length cashFlows)).
Proof.
  intros Hinv. unfold calculatePaybackPeriod. cbn [nneg].
  pose proof (payback_loop_bounds cashFlows O (- initialInvestment)
                (Qc_opp_neg _ Hinv)) as Hloop.
  destruct (payback_loop _ _ _) as [payback|].
  - destruct Hloop as (p & -> & Hlo & Hhi). exists p. done.
  - rewrite length_map. eexists. split; [reflexivity|]. split; [|apply Qcle_refl].
    apply (proj1 (Z2Qc_inj_le 0 _)). lia.
Qed.

Lemma payback_within_project_periods_witness :
  exists payback,
    calculatePaybackPeriod (map Fin steady_flows) (Fin (Qc_of_Z 1000)) = Fin payback /\
    0 ≤ payback /\ payback ≤ Qc_of_Z (Z.of_nat (length steady_flows)).
Proof.
  apply (payback_within_project_periods steady_flows (Qc_of_Z 1000)).
  by vm_compute.
Defined.

(** Free project.  With a first cash flow of 0 the payback period of an
    investment of 0 is [NaN], and that of a negative investment is an
    infinity: the interpolation divides by the zero cash flow. *)
Theorem payback_zero_first_flow (rest : list num) (initialInvestment : Qc) :
  (initialInvestment = 0 ->
   calculatePaybackPeriod (Fin 0 :: rest) (Fin initialInvestment) = NaN) /\
  (initialInvestment < 0 ->
   calculatePaybackPeriod (Fin 0 :: rest) (Fin initialInvestment) = PInf \/
   calculatePaybackPeriod (Fin 0 :: rest) (Fin initialInvestment) = NInf).
Proof.
  unfold calculatePaybackPeriod. cbn [nneg payback_loop nadd].
  rewrite ngeb_Fin. unfold nsub. cbn [nneg nadd].
  assert (Hprev : - (- initialInvestment + 0 + - 0) = initialInvestment) by ring.
  rewrite Hprev. split.
  - intros ->. reflexivity.
  - intros Hneg. right. rewrite bool_decide_eq_true_2.
    + unfold ndiv. rewrite decide_True by done. unfold signed_inf.
      rewrite decide_False by by apply Qclt_not_eq.
      rewrite bool_decide_eq_false_2; [done|].
      apply Qcle_not_lt. by apply Qclt_le_weak.
    + rewrite Qcplus_0_r. by apply Qclt_le_weak, Qc_opp_pos.
Qed.

Lemma payback_zero_first_flow_witness :
  calculatePaybackPeriod [Fin 0; Fin (Qc_of_Z 50)] (Fin 0) = NaN /\
  (calculatePaybackPeriod [Fin 0; Fin (Qc_of_Z 50)] (Fin (Qc_of_Z (-5))) = PInf \/
   calculatePaybackPeriod [Fin 0; Fin (Qc_of_Z 50)] (Fin (Qc_of_Z (-5))) = NInf).
Proof.
  split.
  - apply (proj1 (payback_zero_first_flow [Fin (Qc_of_Z 50)] 0)). reflexivity.
  - apply (proj2 (payback_zero_first_flow [Fin (Qc_of_Z 50)] (Qc_of_Z (-5)))).
    by vm_compute.
Defined.

(** ** Monte Carlo simulation *)

(** The sort of the source on finite values. *)
Fixpoint insert_Qc (x : Qc) (l : list Qc) : list Qc :=
  match l with
  | [] => [x]
  | y :: l' => if decide (y < x) then y :: insert_Qc x l' else x :: l
  end.

Definition sort_Qc (l : list Qc) : list Qc := foldr insert_Qc [] l.

Lemma insert_sorted_Fin x l : insert_sorted (Fin x) (map Fin l) = map Fin (insert_Qc x l).
Proof.
  induction l as [|y l IH]; [done|].
  cbn [map insert_sorted insert_Qc]. unfold nsub, nneg, nadd, nltb.
  destruct (decide (y < x)) as [Hlt|Hge].
  - rewrite bool_decide_eq_true_2 by exact (proj1 (Qclt_minus_iff y x) Hlt).
    by rewrite IH.
  - rewrite bool_decide_eq_false_2; [done|].
    intros H. exact (Hge (proj2 (Qclt_minus_iff y x) H)).
Qed.

Lemma sort_ascending_Fin l : sort_ascending (map Fin l) = map Fin (sort_Qc l).
Proof.
  unfold sort_ascending, sort_Qc. induction l as [|x l IH]; [done|].
  cbn [map foldr]. by rewrite IH, insert_sorted_Fin.
Qed.

Fixpoint ascending (l : list Qc) : Prop :=
  match l with
  | [] => True
  | x :: l' => Forall (Qcle x) l' /\ ascending l'
  end.

Lemma insert_Qc_Forall (P : Qc -> Prop) x l :
  P x -> Forall P l -> Forall P (insert_Qc x l).
Proof.
  intros Hx Hl. induction Hl as [|y l Hy Hl IH]; simpl.
  - by constructor.
  - case_decide; repeat constructor; done.
Qed.

Lemma insert_Qc_ascending x l : ascending l -> ascending (insert_Qc x l).
Proof.
  induction l as [|y l IH]; simpl; [done|].
  intros [Hy Hl]. case_decide as Hlt; simpl.
  - split; [|auto]. apply insert_Qc_Forall; [by apply Qclt_le_weak | done].
  - apply Qcnot_lt_le in Hlt. split; [|done]. constructor; [done|].
    eapply Forall_impl; [exact Hy|]. intros z Hz. by eapply Qcle_trans.
Qed.

Lemma sort_Qc_ascending l : ascending (sort_Qc l).
Proof.
  unfold sort_Qc. induction l as [|x l IH]; simpl; [done|].
  by apply insert_Qc_ascending.
Qed.

Lemma insert_Qc_length x l : length (insert_Qc x l) = S (length l).
Proof.
  induction l as [|y l IH]; simpl; [done|]. case_decide; simpl; [by rewrite IH | done].
Qed.

Lemma sort_Qc_length l : length (sort_Qc l) = length l.
Proof.
  unfold sort_Qc. induction l as [|x l IH]; simpl; [done|].
  by rewrite insert_Qc_length, IH.
Qed.

Lemma ascending_lookup l : forall i j a b,
  ascending l -> (i <= j)%nat -> l !! i = Some a -> l !! j = Some b -> a ≤ b.
Proof.
  induction l as [|x l IH]; intros i j a b Hl Hij Ha Hb; [done|].
  destruct Hl as [Hx Hl]. destruct i as [|i], j as [|j]; simpl in *; try lia.
  - injection Ha as <-. injection Hb as <-. apply Qcle_refl.
  - injection Ha as <-. rewrite Forall_forall in Hx. apply Hx.
    by eapply list_elem_of_lookup_2.
  - eapply IH; [done| |done..]. lia.
Qed.

Lemma simulate_finite random (b t m o : Qc) iterations :
  exists values, simulate random (Fin b) (mkRisk (Fin t) (Fin m) (Fin o)) iterations
                 = map Fin values /\ length values = iterations.
Proof.
  unfold simulate. generalize O as start.
  induction iterations as [|n IH]; intros start.
  - by exists [].
  - destruct (IH (S start)) as (values & Hvalues & Hlen).
    cbn [seq map]. rewrite Hvalues.
    unfold simulatedValue, risk_factor, nsub, dec, of_Z.
    cbn [technical market organizational nneg nadd nmul].
    eexists (_ :: values). split; [reflexivity|]. simpl. by rewrite Hlen.
Qed.

(** [results[Math.floor(iterations * k / d)]] on finite results. *)
Lemma percentile_lookup (l : list Qc) (n : nat) (k : Z) (d : positive) :
  n_index (map Fin l) (nfloor (nmul (of_nat n) (dec k d)))
  = Fin <$> array_get l (Qfloor (Qc_of_Z (Z.of_nat n) * Q2Qc (k # d))%Qc).
Proof.
  unfold of_nat, of_Z, dec, nmul, nfloor, of_Z, n_index.
  rewrite Qfloor_Qc_of_Z. rewrite decide_True by done.
  unfold array_get. case_decide; [|done]. by rewrite list_lookup_fmap.
Qed.

Lemma fraction_le (n : nat) (c c' : Qc) :
  c ≤ c' ->
  (Qfloor (Qc_of_Z (Z.of_nat n) * c)%Qc <= Qfloor (Qc_of_Z (Z.of_nat n) * c')%Qc)%Z.
Proof.
  intros Hc. apply Qfloor_resp_le.
  change (Qc_of_Z (Z.of_nat n) * c ≤ Qc_of_Z (Z.of_nat n) * c').
  rewrite !(Qcmult_comm (Qc_of_Z (Z.of_nat n))).
  apply Qcmult_le_compat_r; [done|].
  apply (proj1 (Z2Qc_inj_le 0 (Z.of_nat n))). lia.
Qed.

Section with_math.
Context {M : MathLib}.

(** Percentiles.  With a finite base value and finite risk factors, for
    every sequence of draws and at least one iteration, the three percentiles
    are finite numbers and [p10 <= p50 <= p90]. *)
Theorem monteCarlo_percentiles_ordered random (b t m o : Qc) iterations :
  (1 <= iterations)%nat ->
  exists low median high,
    percentiles (monteCarloSimulation random (Fin b)
                   (mkRisk (Fin t) (Fin m) (Fin o)) iterations)
    = mkPercentiles (Some (Fin low)) (Some (Fin median)) (Some (Fin high)) /\
    low ≤ median /\ median ≤ high.
Proof.
  intros Hn. unfold monteCarloSimulation. cbn [percentiles].
  destruct (simulate_finite random b t m o iterations) as (values & -> & Hlen).
  rewrite sort_ascending_Fin, !percentile_lookup.
  pose proof (sort_Qc_ascending values) as Hsorted.
  pose proof (sort_Qc_length values) as Hlength. rewrite Hlen in Hlength.
  destruct (FinanceClaims.floor_of_fraction iterations (Q2Qc (1 # 10)) Hn)
    as [H10 H10']; [by vm_compute..|].
  destruct (FinanceClaims.floor_of_fraction iterations (Q2Qc (1 # 2)) Hn)
    as [H50 H50']; [by vm_compute..|].
  destruct (FinanceClaims.floor_of_fraction iterations (Q2Qc (9 # 10)) Hn)
    as [H90 H90']; [by vm_compute..|].
  pose proof (fraction_le iterations (Q2Qc (1 # 10)) (Q2Qc (1 # 2))) as Hle1.
  pose proof (fraction_le iterations (Q2Qc (1 # 2)) (Q2Qc (9 # 10))) as Hle2.
  unfold array_get. rewrite !decide_True by done.
  set (i10 := Qfloor (Qc_of_Z (Z.of_nat iterations) * Q2Qc (1 # 10))%Qc) in *.
  set (i50 := Qfloor (Qc_of_Z (Z.of_nat iterations) * Q2Qc (1 # 2))%Qc) in *.
  set (i90 := Qfloor (Qc_of_Z (Z.of_nat iterations) * Q2Qc (9 # 10))%Qc) in *.
  destruct (lookup_lt_is_Some_2 (sort_Qc values) (Z.to_nat i10)) as [low Hlow]; [lia|].
  destruct (lookup_lt_is_Some_2 (sort_Qc values) (Z.to_nat i50)) as [median Hmedian]; [lia|].
  destruct (lookup_lt_is_Some_2 (sort_Qc values) (Z.to_nat i90)) as [high Hhigh]; [lia|].
  exists low, median, high. rewrite Hlow, Hmedian, Hhigh. split; [done|]. split.
  - eapply (ascending_lookup _ (Z.to_nat i10) (Z.to_nat i50)); [done| |done..].
    specialize (Hle1 ltac:(by vm_compute)). lia.
  - eapply (ascending_lookup _ (Z.to_nat i50) (Z.to_nat i90)); [done| |done..].
    specialize (Hle2 ltac:(by vm_compute)). lia.
Qed.

(** With 0 iterations the mean and the standard deviation are [NaN] and the
    three percentiles are [undefined]. *)
Lemma monteCarlo_no_iterations random baseValue riskFactors :
  monteCarloSimulation random baseValue riskFactors 0
  = mkMonteCarlo NaN NaN (mkPercentiles None None None).
Proof. reflexivity. Qed.

End with_math.

Lemma monteCarlo_percentiles_ordered_witness :
  exists low median high,
    percentiles (monteCarloSimulation (M := floor_math)
                   (fun k => Q2Qc (Z.of_nat (k mod 7) # 7)) (Fin (Qc_of_Z 1000))
                   (mkRisk (Fin (q_dec 2 10)) (Fin (q_dec 1 10)) (Fin (q_dec 3 10))) 5)
    = mkPercentiles (Some (Fin low)) (Some (Fin median)) (Some (Fin high)) /\
    low ≤ median /\ median ≤ high.
Proof.
  apply (monteCarlo_percentiles_ordered (M := floor_math)
           (fun k => Q2Qc (Z.of_nat (k mod 7) # 7)) (Qc_of_Z 1000)
           (q_dec 2 10) (q_dec 1 10) (q_dec 3 10) 5).
  lia.
Defined.

(** ** Sensitivity analysis *)

(** Unused parameter.  A parameter that the calculation does not depend on
    gets the base result as its increased and decreased results and a
    sensitivity of 0, when the base result is finite and not 0 and the
    variation is finite and not 0. *)
Theorem sensitivity_of_unused_parameter (baseParameters : gmap string num)
    (calculateFunction : gmap string num -> num) (variation base : Qc) param value :
  baseParameters !! param = Some value ->
  (forall value', calculateFunction (<[param := value']> baseParameters)
                  = calculateFunction baseParameters) ->
  calculateFunction baseParameters = Fin base ->
  base <> 0 -> variation <> 0 ->
  sensitivityAnalysis baseParameters calculateFunction (Fin variation) !! param
  = Some (mkSensitivity (Fin base) (Fin base) (Fin 0)).
Proof.
  intros Hparam Hunused Hbase Hb Hv. unfold sensitivityAnalysis.
  rewrite map_lookup_imap, Hparam. cbn [option_bind mbind].
  rewrite !Hunused, Hbase. do 2 f_equal.
  unfold nsub, nneg, nadd, of_Z, nmul. rewrite Qcplus_opp_r.
  unfold ndiv at 2. rewrite decide_False by done. cbn [nmul].
  unfold ndiv. rewrite decide_False.
  - unfold nabs. f_equal. unfold Qcdiv. rewrite !Qcmult_0_l.
    by rewrite decide_False.
  - intros [H|H]%Qc_mult_zero; [done|]. by apply Qc_of_Z_100_ne_0.
Qed.

Definition labour_parameters : gmap string num :=
  {[ "hours" := Fin (Qc_of_Z 120); "overhead" := Fin (Qc_of_Z 3) ]}.

Definition hours_only (params : gmap string num) : num :=
  nmul (default NaN (params !! "hours")) (Fin (Qc_of_Z 75)).

Lemma sensitivity_of_unused_parameter_witness :
  sensitivityAnalysis labour_parameters hours_only (Fin (q_dec 2 10)) !! "overhead"
  = Some (mkSensitivity (Fin (Qc_of_Z 9000)) (Fin (Qc_of_Z 9000)) (Fin 0)).
Proof.
  apply (sensitivity_of_unused_parameter labour_parameters hours_only (q_dec 2 10)
           (Qc_of_Z 9000) "overhead" (Fin (Qc_of_Z 3))).
  - reflexivity.
  - intros value'. unfold hours_only. by rewrite lookup_insert_ne.
  - unfold hours_only, labour_parameters. rewrite lookup_insert_eq.
    change (Fin (Qc_of_Z 120 * Qc_of_Z 75) = Fin (Qc_of_Z 9000)).
    f_equal. apply Qc_is_canon. reflexivity.
  - by vm_compute.
  - by vm_compute.
Defined.

Lemma ndiv_by_zero_not_finite a : is_finite (ndiv (nsub a (Fin 0)) (Fin 0)) = false.
Proof.
  destruct a as [x| | |]; try reflexivity.
  unfold nsub, nneg, nadd, ndiv. rewrite decide_True by done.
  unfold signed_inf. by repeat case_decide; try destruct (Bool.eqb _ _).
Qed.

Lemma nmul_100_not_finite a : is_finite a = false -> is_finite (nmul a (of_Z 100)) = false.
Proof. by destruct a. Qed.

Lemma ndiv_not_finite a b : is_finite a = false -> is_finite (ndiv a b) = false.
Proof.
  destruct a as [x| | |], b as [y| | |]; try done; intros _; simpl; by case_decide.
Qed.

Lemma nabs_not_finite a : is_finite a = false -> is_finite (nabs a) = false.
Proof. by destruct a. Qed.

(** Zero base result.  When the calculation gives 0 on the base parameters,
    the sensitivity of every parameter is [NaN] or an infinity, whatever the
    variation and the other results are: no parameter gets a usable
    sensitivity. *)
Theorem sensitivity_undefined_at_zero_base (baseParameters : gmap string num)
    (calculateFunction : gmap string num -> num) (variationPercent : num) param value :
  baseParameters !! param = Some value ->
  calculateFunction baseParameters = Fin 0 ->
  exists entry,
    sensitivityAnalysis baseParameters calculateFunction variationPercent !! param
    = Some entry /\
    is_finite (sensitivity entry) = false.
Proof.
  intros Hparam Hbase. unfold sensitivityAnalysis.
  rewrite map_lookup_imap, Hparam. cbn [option_bind mbind].
  eexists. split; [reflexivity|]. cbn [sensitivity]. rewrite Hbase.
  apply nabs_not_finite, ndiv_not_finite, nmul_100_not_finite, ndiv_by_zero_not_finite.
Qed.

Definition idle_parameters : gmap string num :=
  {[ "hours" := Fin 0; "overhead" := Fin (Qc_of_Z 3) ]}.

Lemma sensitivity_undefined_at_zero_base_witness :
  exists entry,
    sensitivityAnalysis idle_parameters hours_only (Fin (q_dec 2 10)) !! "hours"
    = Some entry /\
    is_finite (sensitivity entry) = false.
Proof.
  apply (sensitivity_undefined_at_zero_base idle_parameters hours_only
           (Fin (q_dec 2 10)) "hours" (Fin 0)).
  - reflexivity.
  - unfold hours_only, idle_parameters. rewrite lookup_insert_eq.
    change (Fin (0 * Qc_of_Z 75) = Fin 0). by rewrite Qcmult_0_l.
Defined.

End FinanceExtras.

(** * Estimation methods: ranges of the results *)

Module EstimationExtras.
Import JsNum Estimation NumFacts EstimationClaims.

Local Open Scope Qc_scope.

(** ** Delphi estimation *)


Section with_math.
Context {M : MathLib}.


End with_math.

(** ** Regression estimation *)








Section with_math.
Context {M : MathLib}.


End with_math.



End EstimationExtras.
